(** * FriendlyPix: feed synchronisation and pagination

    A shallow embedding of the data-access layer ([FirebaseHelper.js]) and of
    the feed view ([Feed.js]).

    The remote realtime database is a finite map from paths to JSON values;
    every remote call is one atomic step on that map.  Promise chains are
    written as explicit state passing in the order the calls are issued.
    Keys are push ids: non-empty strings ordered lexicographically, which is
    both the order of [orderByKey()] and the order in which [val()] and
    [Object.keys] enumerate them. *)

From Stdlib Require Import String Ascii OrderedTypeEx.
From stdpp Require Import base option list sorting gmap strings pretty.

Local Open Scope string_scope.
Local Open Scope list_scope.
Local Open Scope nat_scope.

(** ** Keys and their order *)

Definition key_le (a b : string) : Prop := String.leb a b = true.
Definition key_lt (a b : string) : Prop := String.ltb a b = true.

#[global] Instance key_le_dec : RelDecision key_le.
Proof. intros a b. unfold key_le. apply _. Defined.

#[global] Instance key_lt_dec : RelDecision key_lt.
Proof. intros a b. unfold key_lt. apply _. Defined.

(** ** JSON values held by the database *)

Record PostRecord := mkPost {
  author_uid : string;
  full_url : string;
  thumb_url : string;
  text : string;
  full_storage_uri : string;
  thumb_storage_uri : string
}.

Inductive value : Type :=
| VBool (b : bool)
| VStr (s : string)
| VPost (p : PostRecord).

#[global] Instance PostRecord_eq_dec : EqDecision PostRecord.
Proof. solve_decision. Defined.

#[global] Instance value_eq_dec : EqDecision value.
Proof. solve_decision. Defined.

(** What a snapshot's [val()] hands to JavaScript.  Database strings come
    back as primitive strings; [JStringObject] is the wrapper object that
    only [new String(..)] creates. *)
Inductive jsval : Type :=
| JNull
| JBool (b : bool)
| JString (s : string)
| JStringObject (s : string)
| JObject (p : PostRecord).

Definition val (v : option value) : jsval :=
  match v with
  | None => JNull
  | Some (VBool b) => JBool b
  | Some (VStr s) => JString s
  | Some (VPost p) => JObject p
  end.

(** [x instanceof String] *)
Definition instanceof_String (x : jsval) : bool :=
  match x with
  | JStringObject _ => true
  | _ => false
  end.

(** JavaScript truthiness, as used by [if (x)]. *)
Definition truthy (x : jsval) : bool :=
  match x with
  | JNull => false
  | JBool b => b
  | JString s => negb (String.eqb s "")
  | JStringObject _ => true
  | JObject _ => true
  end.

(** [x !== y] where [x] is a key and [y] a value read from a snapshot. *)
Definition key_strict_neq (k : string) (y : jsval) : bool :=
  match y with
  | JString s => negb (String.eqb k s)
  | _ => true
  end.

(** ** JavaScript objects used as ordered maps

    [Object.keys] lists string keys in insertion order; assigning to an
    existing key keeps its position. *)

Abbreviation obj K A := (list (K * A)).

Definition obj_keys {K A} (o : obj K A) : list K := fst <$> o.

Fixpoint obj_get {K A} `{EqDecision K} (k : K) (o : obj K A) : option A :=
  match o with
  | [] => None
  | (k', v) :: o' => if decide (k = k') then Some v else obj_get k o'
  end.

Fixpoint obj_set {K A} `{EqDecision K} (k : K) (v : A) (o : obj K A) : obj K A :=
  match o with
  | [] => [(k, v)]
  | (k', v') :: o' =>
      if decide (k = k') then (k, v) :: o' else (k', v') :: obj_set k v o'
  end.

Fixpoint obj_delete {K A} `{EqDecision K} (k : K) (o : obj K A) : obj K A :=
  match o with
  | [] => []
  | (k', v') :: o' =>
      if decide (k = k') then obj_delete k o' else (k', v') :: obj_delete k o'
  end.

(** ** The remote database *)

Abbreviation path := (list string).

Abbreviation Database := (gmap (list string) value).

(** [strip p q] is the rest of [q] below [p], when [q] lies at or under [p]. *)
Fixpoint strip (p q : path) : option path :=
  match p, q with
  | [], _ => Some q
  | _ :: _, [] => None
  | a :: p', b :: q' => if String.eqb a b then strip p' q' else None
  end.

Definition under (p q : path) : bool :=
  match strip p q with Some _ => true | None => false end.

(** The child key of [q] when [q] is a direct child of [p]. *)
Definition child_key (p q : path) : option string :=
  match strip p q with
  | Some [k] => Some k
  | _ => None
  end.

(** [ref(p).set(null)] / [ref(p).remove()]: the whole subtree goes. *)
Definition db_remove (p : path) (d : Database) : Database :=
  filter (fun qv => under p (fst qv) = false) d.

(** [ref(p).set(v)]: the subtree is replaced by the value. *)
Definition db_set (p : path) (v : option value) (d : Database) : Database :=
  match v with
  | None => db_remove p d
  | Some x => <[p := x]> (db_remove p d)
  end.

(** [ref().update(u)]: every path of the object is set, in one step. *)
Definition db_update (u : obj path (option value)) (d : Database) : Database :=
  fold_left (fun acc pv => db_set (fst pv) (snd pv) acc) u d.

(** The children of the node at [p], in key order: what [ref(p)] shows to
    [once('value')] and to [on('child_added')]. *)
Definition entry_le (a b : string * value) : Prop := key_le (fst a) (fst b).

#[global] Instance entry_le_dec : RelDecision entry_le.
Proof. intros a b. unfold entry_le. apply _. Defined.

Definition child_entry (p : path) (qv : path * value) : option (string * value) :=
  match child_key p (fst qv) with
  | Some k => Some (k, snd qv)
  | None => None
  end.

Definition children (d : Database) (p : path) : obj string value :=
  merge_sort entry_le (omap (child_entry p) (map_to_list d)).

(** A reference with its range restrictions: [ref(p)], then optionally
    [.orderByKey().startAt(k)], [.orderByKey().endAt(k)], [.limitToLast(n)]. *)
Record Query := mkQuery {
  q_path : path;
  q_startAt : option string;
  q_endAt : option string;
  q_limitToLast : option nat
}.

Definition ref (p : path) : Query :=
  {| q_path := p; q_startAt := None; q_endAt := None; q_limitToLast := None |}.

Definition startAt (k : string) (q : Query) : Query :=
  {| q_path := q_path q; q_startAt := Some k;
     q_endAt := q_endAt q; q_limitToLast := q_limitToLast q |}.

Definition endAt (k : string) (q : Query) : Query :=
  {| q_path := q_path q; q_startAt := q_startAt q;
     q_endAt := Some k; q_limitToLast := q_limitToLast q |}.

Definition limitToLast (n : nat) (q : Query) : Query :=
  {| q_path := q_path q; q_startAt := q_startAt q;
     q_endAt := q_endAt q; q_limitToLast := Some n |}.

(** Whether a child key lies in the key range of the query. *)
Definition in_range (q : Query) (k : string) : bool :=
  match q_startAt q with Some a => bool_decide (key_le a k) | None => true end
  && match q_endAt q with Some b => bool_decide (key_le k b) | None => true end.

Definition last_n {A} (n : nat) (l : list A) : list A := drop (length l - n) l.

(** [q.once('value')], read as [val()]: the children selected by the query,
    in key order. *)
Definition once (d : Database) (q : Query) : obj string value :=
  let l := filter (fun kv => in_range q (fst kv) = true) (children d (q_path q)) in
  match q_limitToLast q with
  | Some n => last_n n l
  | None => l
  end.

(** A nullable string argument ([null], [undefined] or a string). *)
Definition js_of_id (o : option string) : jsval :=
  match o with
  | None => JNull
  | Some s => JString s
  end.

(** ** The remote services and the calls sent to them *)

Inductive completion : Type := Fulfilled | Rejected.

(** [Promise.all]: fulfilled when every promise is, rejected otherwise. *)
Definition Promise_all (l : list completion) : completion :=
  if forallb (fun c => match c with Fulfilled => true | Rejected => false end) l
  then Fulfilled else Rejected.

Inductive Call : Type :=
| CUpdate (u : obj path (option value))
| CRemove (p : path)
| CStorageDelete (uri : string).

Record World := mkWorld {
  database : Database;
  storage : gset string;
  issued : list Call
}.

Definition with_database (d : Database) (w : World) : World :=
  {| database := d; storage := storage w; issued := issued w |}.

Definition log (c : Call) (w : World) : World :=
  {| database := database w; storage := storage w; issued := issued w ++ [c] |}.

Section FirebaseHelper.

(** The database's write rules, which are deployed with the backend: a
    write touching a path the rules refuse is rejected as a whole. *)
Variable rules : path → bool.

(** [this.auth.currentUser.uid] *)
Variable uid : string.

(** [this.database.ref().update(u)] *)
Definition update (u : obj path (option value)) (w : World) : World * completion :=
  let w := log (CUpdate u) w in
  if forallb (fun pv => rules (fst pv)) u
  then (with_database (db_update u (database w)) w, Fulfilled)
  else (w, Rejected).

(** [this.database.ref(p).remove()], as the store takes it.  What the reads
    of the client return before the verdict has arrived is the matter of
    [_getPaginatedFeed_client] below. *)
Definition remove (p : path) (w : World) : World * completion :=
  let w := log (CRemove p) w in
  if rules p
  then (with_database (db_remove p (database w)) w, Fulfilled)
  else (w, Rejected).

(** [this.storage.ref(uri).delete()] and [refFromURL(uri).delete()]:
    deleting an object that is not there is an error. *)
Definition storage_delete (uri : string) (w : World) : World * completion :=
  let w := log (CStorageDelete uri) w in
  if decide (uri ∈ storage w)
  then ({| database := database w; storage := storage w ∖ {[uri]};
           issued := issued w |}, Fulfilled)
  else (w, Rejected).

(** [getPostData(postId)] *)
Definition getPostData (w : World) (postId : string) : option value :=
  database w !! ["posts"; postId].

(** [deleteFromFeed(uri, postId)] *)
Definition deleteFromFeed (uri : path) (postId : string) (w : World) : World * completion :=
  remove (uri ++ [postId]) w.

(** The corrective deletes issued by one round of [_getPaginatedFeed],
    in order. *)
Definition repair (uri : path) (ids : list string) (w : World) : World :=
  fold_left (fun w k => fst (deleteFromFeed uri k w)) ids w.

(** *** [_subscribeToFeed] *)

Definition feedRef (uri : path) (latestEntryId : option string) : Query :=
  if truthy (js_of_id latestEntryId)
  then match latestEntryId with
       | Some k => startAt k (ref uri)
       | None => ref uri
       end
  else ref uri.




(** *** [_getPaginatedFeed] *)

Record Page := mkPage {
  entries : obj string value;
  nextPage : option string   (* the id captured by the [nextPage] closure *)
}.

Definition pageRef (uri : path) (earliestEntryId : option string) : Query :=
  if truthy (js_of_id earliestEntryId)
  then match earliestEntryId with
       | Some k => endAt k (ref uri)
       | None => ref uri
       end
  else ref uri.

(** "Figure out if there is a next page": the page, the ids left in
    [entryIds] and the starting id of the next page. *)
Definition split_page (pageSize : nat) (data : obj string value)
    : obj string value * list string * option string :=
  let entryIds := obj_keys data in
  if decide (pageSize < length entryIds) then
    match entryIds with
    | k0 :: rest => (obj_delete k0 data, rest, Some k0)
    | [] => (data, entryIds, None)
    end
  else (data, entryIds, None).

(** The body of [results.forEach]. *)
Definition expand_result (uri : path)
    (acc : obj string value * list completion * World) (result : string * option value)
    : obj string value * list completion * World :=
  let '(entries, deleteOps, w) := acc in
  match snd result with
  | Some x =>
      if truthy (val (Some x))
      then (obj_set (fst result) x entries, deleteOps, w)
      else let (w', op) := deleteFromFeed uri (fst result) w in
           (obj_delete (fst result) entries, deleteOps ++ [op], w')
  | None =>
      let (w', op) := deleteFromFeed uri (fst result) w in
      (obj_delete (fst result) entries, deleteOps ++ [op], w')
  end.

Fixpoint _getPaginatedFeed (fuel : nat) (uri : path) (pageSize : nat)
    (earliestEntryId : option string) (fetchPostDetails : bool) (w : World)
    : option (World * Page) :=
  match fuel with
  | O => None
  | S fuel' =>
      let data := once (database w) (limitToLast (pageSize + 1) (pageRef uri earliestEntryId)) in
      let '(entries, entryIds, nextPage) := split_page pageSize data in
      if fetchPostDetails then
        let results := map (fun postId => (postId, getPostData w postId)) entryIds in
        let '(entries', deleteOps, w') :=
          fold_left (expand_result uri) results (entries, [], w) in
        if decide (0 < length deleteOps)
        then _getPaginatedFeed fuel' uri pageSize earliestEntryId fetchPostDetails w'
        else Some (w', mkPage entries' nextPage)
      else Some (w, mkPage entries nextPage)
  end.

(** Calling the [nextPage] closure of a page. *)
Definition call_nextPage (fuel : nat) (uri : path) (pageSize : nat)
    (fetchPostDetails : bool) (nextPageStartingId : string) (w : World)
    : option (World * Page) :=
  _getPaginatedFeed fuel uri pageSize (Some nextPageStartingId) fetchPostDetails w.

(** *** [_getPaginatedFeed] and the order of events

    The client reads through its own view of the database.  [remove()] takes
    effect on that view at once; the verdict of the rules arrives later, and a
    refused removal is then undone in the view.  [_getPaginatedFeed] does not
    wait for [deleteOps] before it calls itself again, so what the retry reads
    depends on whether the verdicts have arrived by then.  Below, [w] is the
    state of the store, [view] is what the reads of the client return, and
    [settled n] tells whether the verdicts on the removals issued so far have
    arrived when the retry of round [n] reads.  [_getPaginatedFeed] above is
    the case where they always have. *)

(** The body of [results.forEach]: the removal is sent to the store and
    applied to the view. *)
Definition expand_result_client (uri : path)
    (acc : obj string value * list completion * World * Database)
    (result : string * option value)
    : obj string value * list completion * World * Database :=
  let '(entries, deleteOps, w, view) := acc in
  match snd result with
  | Some x =>
      if truthy (val (Some x))
      then (obj_set (fst result) x entries, deleteOps, w, view)
      else let (w', op) := deleteFromFeed uri (fst result) w in
           (obj_delete (fst result) entries, deleteOps ++ [op], w',
            db_remove (uri ++ [fst result]) view)
  | None =>
      let (w', op) := deleteFromFeed uri (fst result) w in
      (obj_delete (fst result) entries, deleteOps ++ [op], w',
       db_remove (uri ++ [fst result]) view)
  end.

Fixpoint _getPaginatedFeed_client (settled : nat → bool) (n fuel : nat) (uri : path)
    (pageSize : nat) (earliestEntryId : option string) (fetchPostDetails : bool)
    (w : World) (view : Database) : option (World * Database * Page) :=
  match fuel with
  | O => None
  | S fuel' =>
      let data := once view (limitToLast (pageSize + 1) (pageRef uri earliestEntryId)) in
      let '(entries, entryIds, nextPage) := split_page pageSize data in
      if fetchPostDetails then
        let results :=
          map (fun postId => (postId, getPostData (with_database view w) postId)) entryIds in
        let '(entries', deleteOps, w', view') :=
          fold_left (expand_result_client uri) results (entries, [], w, view) in
        if decide (0 < length deleteOps)
        then _getPaginatedFeed_client settled (S n) fuel' uri pageSize earliestEntryId
               fetchPostDetails w' (if settled n then database w' else view')
        else Some (w', view', mkPage entries' nextPage)
      else Some (w, view, mkPage entries nextPage)
  end.

(** *** Home feed updaters *)

(** The string carried by a JavaScript value that passed [instanceof String]. *)
Definition string_of (x : jsval) : string :=
  match x with
  | JString s | JStringObject s => s
  | _ => ""
  end.

(** [followedUserPostsRef]: the followed user's post list, restricted to
    start at the stored cursor when the cursor [instanceof String]. *)
Definition followedUserPostsRef (followedUid : string) (cursor : jsval) : Query :=
  let r := ref ["people"; followedUid; "posts"] in
  if instanceof_String cursor then startAt (string_of cursor) r else r.

(** The two assignments into [updates] made for one post. *)
Definition home_feed_updates (followedUid postId : string)
    (updates : obj path (option value)) : obj path (option value) :=
  obj_set ["people"; uid; "following"; followedUid] (Some (VStr postId))
    (obj_set ["feed"; uid; postId] (Some (VBool true)) updates).

(** The listener of [followedUserPostsRef.on('child_added', ..)] in
    [startHomeFeedLiveUpdaters]: the write made for one delivered post. *)
Definition home_feed_listener (followedUid : string) (followingData : value)
    (postKey : string) (w : World) : World :=
  if key_strict_neq postKey (val (Some followingData))
  then fst (update (home_feed_updates followedUid postKey []) w)
  else w.

(** The listener of [followingRef.on('child_added', ..)]: subscribes to the
    posts of one followed user; the posts already there are delivered. *)
Definition following_listener (followingData : string * value) (w : World) : World :=
  let followedUid := fst followingData in
  let r := followedUserPostsRef followedUid (val (Some (snd followingData))) in
  fold_left (fun w postData => home_feed_listener followedUid (snd followingData) (fst postData) w)
            (once (database w) r) w.

Definition startHomeFeedLiveUpdaters (w : World) : World :=
  fold_left (fun w followingData => following_listener followingData w)
            (once (database w) (ref ["people"; uid; "following"])) w.

(** A post inserted later under a followed user is delivered when its key
    is in the range of [followedUserPostsRef]. *)
Definition startHomeFeedLiveUpdaters_insert (followedUid : string)
    (followingData : value) (postKey : string) (w : World) : World :=
  if in_range (followedUserPostsRef followedUid (val (Some followingData))) postKey
  then home_feed_listener followedUid followingData postKey w
  else w.

(** The body of [Object.keys(postData.val()).forEach] in [updateHomeFeeds]. *)
Definition updateHomeFeeds_post (followedUid : string) (lastSyncedPostId : value)
    (updates : obj path (option value)) (postId : string) : obj path (option value) :=
  if key_strict_neq postId (val (Some lastSyncedPostId))
  then home_feed_updates followedUid postId updates
  else updates.

(** One element of [updateOperations]. *)
Definition updateHomeFeeds_followed (following : string * value) (w : World)
    : World * completion :=
  let followedUid := fst following in
  let lastSyncedPostId := snd following in
  let r := followedUserPostsRef followedUid (val (Some lastSyncedPostId)) in
  let postData := once (database w) r in
  match postData with
  | [] => (w, Fulfilled)
  | _ :: _ =>
      update (fold_left (updateHomeFeeds_post followedUid lastSyncedPostId)
                        (obj_keys postData) []) w
  end.

Definition updateHomeFeeds (w : World) : World * completion :=
  let following := once (database w) (ref ["people"; uid; "following"]) in
  let '(w', ops) :=
    fold_left (fun '(w, ops) f =>
                 let (w', op) := updateHomeFeeds_followed f w in (w', ops ++ [op]))
              following (w, []) in
  (w', Promise_all ops).

(** *** [toggleFollowUser] *)

(** [follow ? x : null] *)
Definition if_follow (follow : bool) (x : value) : option value :=
  if follow then Some x else None.

Definition toggleFollowUser_updateData (followedUserId : string) (follow : bool)
    (data : obj string value) : obj path (option value) :=
  let '(updateData, lastPostId) :=
    fold_left (fun '(updateData, lastPostId) post =>
                 (obj_set ["feed"; uid; fst post] (if_follow follow (VBool true)) updateData,
                  VStr (fst post)))
              data ([], VBool true) in
  let updateData :=
    obj_set ["people"; uid; "following"; followedUserId]
            (if_follow follow lastPostId) updateData in
  obj_set ["followers"; followedUserId; uid] (if_follow follow (VBool true)) updateData.

Definition toggleFollowUser (followedUserId : string) (follow : bool) (w : World)
    : World * completion :=
  let data := once (database w) (ref ["people"; followedUserId; "posts"]) in
  update (toggleFollowUser_updateData followedUserId follow data) w.

(** *** [deletePost] *)

Definition deletePost_updateObj (postId : string) : obj path (option value) :=
  obj_set ["feed"; uid; postId] None
    (obj_set ["posts"; postId] None
      (obj_set ["likes"; postId] None
        (obj_set ["comments"; postId] None
          (obj_set ["people"; uid; "posts"; postId] None [])))).

(** Both branches on [picStorageUri.startsWith('gs:/')] delete the two
    objects named by the arguments, through [refFromURL] or [ref]. *)
Definition deletePost (postId : string) (picStorageUri : option string)
    (thumbStorageUri : string) (w : World) : World * completion :=
  let (w, deleteFromDatabase) := update (deletePost_updateObj postId) w in
  if truthy (js_of_id picStorageUri) then
    let (w, deletePicFromStorage) := storage_delete (string_of (js_of_id picStorageUri)) w in
    let (w, deleteThumbFromStorage) := storage_delete thumbStorageUri w in
    (w, Promise_all [deleteFromDatabase; deletePicFromStorage; deleteThumbFromStorage])
  else (w, deleteFromDatabase).

End FirebaseHelper.

(** ** Notions used to state the properties of pagination *)

(** The entries of the feed at or before the bound [earliestEntryId]. *)
Definition remaining (d : Database) (uri : path) (earliestEntryId : option string)
    : obj string value :=
  once d (pageRef uri earliestEntryId).

(** A feed entry is dangling when the post it names is gone: [result.val()]
    is falsy. *)
Definition dangling (w : World) (postId : string) : bool :=
  negb (truthy (val (getPostData w postId))).

Definition dangling_ids (w : World) (ids : list string) : list string :=
  filter (fun postId => dangling w postId = true) ids.

(** What [results.forEach] leaves in [entries]. *)
Definition expand_entries (w : World) (ids : list string) (e : obj string value)
    : obj string value :=
  fold_left (fun e postId =>
               match getPostData w postId with
               | Some x => if truthy (val (Some x)) then obj_set postId x e
                           else obj_delete postId e
               | None => obj_delete postId e
               end) ids e.

(** The removals of one round as the view of the client takes them. *)
Definition local_repair (uri : path) (ids : list string) (view : Database) : Database :=
  fold_left (fun d k => db_remove (uri ++ [k]) d) ids view.

(** ** The feed view ([Feed.js]) *)

Record Element := mkElement {
  el_post : string;          (* the id given to [new Post(..)] *)
  el_class : list string     (* its class attribute *)
}.

Record Button := mkButton {
  btn_text : string;
  btn_shown : bool
}.

Record Feed := mkFeed {
  posts : list string;              (* [this.posts], by post id *)
  newPosts : obj string value;      (* [this.newPosts] *)
  feedImageContainer : list Element;
  newPostsButton : Button;
  noPostsMessage : bool             (* shown or hidden *)
}.

Definition post_class (postId : string) : string := "fp-post-" ++ postId.

Definition hasClass (c : string) (e : Element) : bool :=
  bool_decide (c ∈ el_class e).

Definition addClass (c : string) (e : Element) : Element :=
  if hasClass c e then e
  else {| el_post := el_post e; el_class := el_class e ++ [c] |}.

(** [$(sel, container).replaceWith(e)] *)
Definition replaceWith (c : string) (e : Element) (container : list Element) : list Element :=
  map (fun x => if hasClass c x then e else x) container.

Definition new_posts_text (n : nat) : string :=
  "Display " ++ pretty n ++ " new posts".

Section FeedView.

(** The class attribute of the markup built by [new Post(helper, id)];
    [Post.js] is a collaborator of the feed. *)
Variable post_markup_class : string → list string.

Definition new_Post (postId : string) : Element :=
  {| el_post := postId; el_class := post_markup_class postId |}.

(** One turn of the loop of [addPosts]. *)
Definition addPosts_step (f : Feed) (postId : string) : Feed :=
  let post := new_Post postId in
  let existingPostElement :=
    filter (fun x => hasClass (post_class postId) x = true) (feedImageContainer f) in
  {| posts := posts f ++ [postId];
     newPosts := newPosts f;
     feedImageContainer :=
       if decide (0 < length existingPostElement)
       then replaceWith (post_class postId) post (feedImageContainer f)
       else feedImageContainer f ++ [addClass (post_class postId) post];
     newPostsButton := newPostsButton f;
     noPostsMessage := false |}.

(** [for (let i = postIds.length - 1; i >= 0; i--)] *)
Definition addPosts (page : obj string value) (f : Feed) : Feed :=
  fold_left addPosts_step (reverse (obj_keys page)) f.

Definition addNewPost (postId : string) (postValue : value) (f : Feed) : Feed :=
  let newPosts' := obj_set postId postValue (newPosts f) in
  {| posts := posts f;
     newPosts := newPosts';
     feedImageContainer := feedImageContainer f;
     newPostsButton :=
       {| btn_text := new_posts_text (length (obj_keys newPosts')); btn_shown := true |};
     noPostsMessage := noPostsMessage f |}.

(** One turn of the loop of [showNewPosts]. *)
Definition showNewPosts_step (f : Feed) (postKey : string) : Feed :=
  {| posts := posts f ++ [postKey];
     newPosts := newPosts f;
     feedImageContainer := new_Post postKey :: feedImageContainer f;
     newPostsButton := newPostsButton f;
     noPostsMessage := false |}.

Definition showNewPosts (f : Feed) : Feed :=
  let pending := newPosts f in
  let f :=
    {| posts := posts f;
       newPosts := [];
       feedImageContainer := feedImageContainer f;
       newPostsButton :=
         {| btn_text := btn_text (newPostsButton f); btn_shown := false |};
       noPostsMessage := noPostsMessage f |} in
  fold_left showNewPosts_step (obj_keys pending) f.

(** The ids on display, topmost first. *)
Definition displayed (f : Feed) : list string := map el_post (feedImageContainer f).

End FeedView.

(** ** Sample states *)

Definition w_demo : World :=
  mkWorld (db_update [ (["feed"; "a"; "p1"], Some (VBool true));
                       (["feed"; "a"; "p2"], Some (VBool true));
                       (["feed"; "a"; "p3"], Some (VBool true));
                       (["posts"; "p2"], Some (VStr "x"));
                       (["posts"; "p3"], Some (VStr "y")) ] ∅) ∅ [].


Definition w_social : World :=
  mkWorld (db_update [ (["people"; "B"; "posts"; "p1"], Some (VBool true));
                       (["people"; "B"; "posts"; "p2"], Some (VBool true));
                       (["people"; "B"; "posts"; "p3"], Some (VBool true)) ] ∅) ∅ [].

Definition w_following : World :=
  fst (toggleFollowUser (fun _ => true) "A" "B" true w_social).

Definition w_post : World :=
  mkWorld (db_update [ (["posts"; "p1"], Some (VPost (mkPost "A" "u" "t" "hi" "gs://b/A/full/p1/a.jpg" "gs://b/A/thumb/p1/a.jpg")));
                       (["people"; "A"; "posts"; "p1"], Some (VBool true));
                       (["feed"; "A"; "p1"], Some (VBool true));
                       (["feed"; "C"; "p1"], Some (VBool true));
                       (["hashtags"; "cats"; "p1"], Some (VBool true));
                       (["comments"; "p1"; "c1"], Some (VStr "nice"));
                       (["likes"; "p1"; "C"], Some (VBool true)) ] ∅)
          ∅ [].

Definition feed_shown (markup : string → list string) (ids : list string) : Feed :=
  {| posts := ids;
     newPosts := [];
     feedImageContainer := (fun k => addClass (post_class k) (new_Post markup k)) <$> ids;
     newPostsButton := mkButton "" false;
     noPostsMessage := false |}.

(** ** Further operations of the helper *)

(** No data at or under a path. *)
Definition absent (d : Database) (p : path) : Prop :=
  ∀ q, under p q = true → d !! q = None.

(** [block ? !!block : null] *)
Definition if_block (block : bool) : option value :=
  if block then Some (VBool true) else None.

Definition toggleBlockUser_update (uid followedUserId : string) (block : bool)
    : obj path (option value) :=
  obj_set ["blocked"; followedUserId; uid] (if_block block)
    (obj_set ["blocking"; uid; followedUserId] (if_block block) []).

(** [toggleBlockUser(followedUserId, block)] *)
Definition toggleBlockUser (rules : path → bool) (uid followedUserId : string) (block : bool)
    (w : World) : World * completion :=
  update rules (toggleBlockUser_update uid followedUserId block) w.

(** ** Further operations of the feed view *)

(** [onPostDeleted(postId)] *)
Definition onPostDeleted (postId : string) (f : Feed) : Feed :=
  let f :=
    if truthy (val (obj_get postId (newPosts f))) then
      let newPosts' := obj_delete postId (newPosts f) in
      let nbNewPosts := length (obj_keys newPosts') in
      {| posts := posts f;
         newPosts := newPosts';
         feedImageContainer := feedImageContainer f;
         newPostsButton :=
           {| btn_text := new_posts_text nbNewPosts;
              btn_shown := if decide (nbNewPosts = 0) then false
                           else btn_shown (newPostsButton f) |};
         noPostsMessage := noPostsMessage f |}
    else f in
  {| posts := posts f;
     newPosts := newPosts f;
     feedImageContainer :=
       filter (fun e => hasClass (post_class postId) e = false) (feedImageContainer f);
     newPostsButton := newPostsButton f;
     noPostsMessage := noPostsMessage f |}.

(** ** The feed page: the feed, its next-page button and the listeners *)

Definition POSTS_PAGE_SIZE : nat := 3.

Record NextPageButton := mkNextPageButton {
  next_shown : bool;
  next_disabled : bool;
  next_click : option string   (* the [nextPage] closure of the bound [loadMorePosts] *)
}.

Record FeedPage := mkFeedPage {
  page_feed : Feed;
  nextPageButton : NextPageButton;
  firebaseRefs : list Query     (* [firebaseHelper.firebaseRefs] *)
}.

Definition with_feed (f : Feed) (v : FeedPage) : FeedPage :=
  {| page_feed := f; nextPageButton := nextPageButton v; firebaseRefs := firebaseRefs v |}.

Definition push_ref (q : Query) (v : FeedPage) : FeedPage :=
  {| page_feed := page_feed v; nextPageButton := nextPageButton v;
     firebaseRefs := firebaseRefs v ++ [q] |}.

Definition cancelAllSubscriptions (v : FeedPage) : FeedPage :=
  {| page_feed := page_feed v; nextPageButton := nextPageButton v; firebaseRefs := [] |}.

Definition registerForPostsDeletion (v : FeedPage) : FeedPage :=
  push_ref (ref ["posts"]) v.

Definition clear (v : FeedPage) : FeedPage :=
  let f := page_feed v in
  cancelAllSubscriptions
    {| page_feed :=
         {| posts := [];
            newPosts := [];
            feedImageContainer :=
              filter (fun e => hasClass "fp-post" e = false) (feedImageContainer f);
            newPostsButton :=
              {| btn_text := btn_text (newPostsButton f); btn_shown := false |};
            noPostsMessage := false |};
       nextPageButton :=
         {| next_shown := false;
            next_disabled := next_disabled (nextPageButton v);
            next_click := None |};
       firebaseRefs := firebaseRefs v |}.

Definition toggleNextPageButton (nextPage : option string) (v : FeedPage) : FeedPage :=
  {| page_feed := page_feed v;
     nextPageButton :=
       match nextPage with
       | Some c => {| next_shown := true; next_disabled := false; next_click := Some c |}
       | None => {| next_shown := false;
                    next_disabled := next_disabled (nextPageButton v);
                    next_click := None |}
       end;
     firebaseRefs := firebaseRefs v |}.

(** The calls of the callback of [_subscribeToFeed] for the children already
    there when the post details are not fetched: each carries the entry
    itself. *)
Definition subscribed_entries (uri : path) (latestEntryId : option string) (w : World)
    : obj string value :=
  filter (fun feedData => key_strict_neq (fst feedData) (js_of_id latestEntryId) = true)
         (once (database w) (feedRef uri latestEntryId)).

Section FeedPageView.
Variable post_markup_class : string → list string.
Variable rules : path → bool.

(** [loadMorePosts], which [toggleNextPageButton] binds to the next-page
    button, for the [nextPage] closure of a page of the feed [uri]; without a
    bound handler the click does nothing. *)
Definition loadMorePosts (fuel : nat) (uri : path) (pageSize : nat) (fetchPostDetails : bool)
    (w : World) (v : FeedPage) : option (World * FeedPage) :=
  match next_click (nextPageButton v) with
  | None => Some (w, v)
  | Some c =>
      let v := {| page_feed := page_feed v;
                  nextPageButton :=
                    {| next_shown := next_shown (nextPageButton v);
                       next_disabled := true;
                       next_click := next_click (nextPageButton v) |};
                  firebaseRefs := firebaseRefs v |} in
      match call_nextPage rules fuel uri pageSize fetchPostDetails c w with
      | Some (w', data) =>
          let v := with_feed (addPosts post_markup_class (entries data) (page_feed v)) v in
          Some (w', toggleNextPageButton (nextPage data) v)
      | None => None
      end
  end.

(** The next-page button used [n] times. *)
Fixpoint load_pages (n fuel : nat) (uri : path) (pageSize : nat) (fetchPostDetails : bool)
    (w : World) (v : FeedPage) : option (World * FeedPage) :=
  match n with
  | O => Some (w, v)
  | S n' =>
      match loadMorePosts fuel uri pageSize fetchPostDetails w v with
      | Some (w', v') => load_pages n' fuel uri pageSize fetchPostDetails w' v'
      | None => None
      end
  end.

Definition showGeneralFeed (fuel : nat) (w : World) (v : FeedPage) : option (World * FeedPage) :=
  let v := clear v in
  let v := registerForPostsDeletion v in
  match _getPaginatedFeed rules fuel ["posts"] POSTS_PAGE_SIZE None false w with
  | Some (w', data) =>
      let latestPostId := last (obj_keys (entries data)) in
      let v := push_ref (feedRef ["posts"] latestPostId) v in
      let v := with_feed (addPosts post_markup_class (entries data) (page_feed v)) v in
      let v := toggleNextPageButton (nextPage data) v in
      let events := subscribed_entries ["posts"] latestPostId w' in
      Some (w', with_feed (fold_left (fun f feedData =>
                                        addNewPost (fst feedData) (snd feedData) f)
                                     events (page_feed v)) v)
  | None => None
  end.

End FeedPageView.

(** The state of the page once the [m] newest entries of the feed [uri] have
    been loaded. *)
Definition pages_shown (markup : string → list string) (uri : path) (w : World) (m : nat)
    (v : FeedPage) : Prop :=
  let all := children (database w) uri in
  feedImageContainer (page_feed v)
    = (fun k => addClass (post_class k) (new_Post markup k)) <$> reverse (obj_keys (last_n m all))
  ∧ posts (page_feed v) = reverse (obj_keys (last_n m all))
  ∧ newPosts (page_feed v) = []
  ∧ btn_shown (newPostsButton (page_feed v)) = false
  ∧ noPostsMessage (page_feed v) = false
  ∧ next_click (nextPageButton v) = fst <$> last (take (length all - m) all)
  ∧ next_shown (nextPageButton v) = bool_decide (m < length all).

Definition w_general : World :=
  mkWorld (db_update [ (["posts"; "p1"], Some (VStr "one"));
                       (["posts"; "p2"], Some (VStr "two"));
                       (["posts"; "p3"], Some (VStr "three"));
                       (["posts"; "p4"], Some (VStr "four"));
                       (["posts"; "p5"], Some (VStr "five")) ] ∅) ∅ [].

Definition page_shown (markup : string → list string) (ids : list string) : FeedPage :=
  mkFeedPage (feed_shown markup ids) (mkNextPageButton false false None) [].

(** ** Search *)

(** The key of the child of [p] in which [q] lies, when [q] lies strictly
    under [p]. *)
Definition first_key (p q : path) : option string :=
  match strip p q with
  | Some (k :: _) => Some k
  | _ => None
  end.

(** *** The order of keys under [orderByKey]

    A key that parses as a 32-bit integer comes before every key that does
    not; two such keys are ordered by their value, then by their length; the
    other keys are ordered as strings.  Hashtags are text typed by users, so
    both kinds occur among them. *)

Definition is_digit (c : ascii) : bool :=
  (48 <=? nat_of_ascii c)%nat && (nat_of_ascii c <=? 57)%nat.

Fixpoint all_digits (s : string) : bool :=
  match s with
  | EmptyString => true
  | String c r => is_digit c && all_digits r
  end.

Fixpoint strip_zeros (s : string) : string :=
  match s with
  | EmptyString => s
  | String c r => if Ascii.eqb c "0"%char then strip_zeros r else s
  end.

Fixpoint digits_value (acc : Z) (s : string) : Z :=
  match s with
  | EmptyString => acc
  | String c r => digits_value (10 * acc + (Z.of_nat (nat_of_ascii c) - 48))%Z r
  end.

(** The integer a key stands for, if any: an optional minus sign, then
    digits of which at most ten follow the leading zeros, with a value that
    fits in 32 bits. *)
Definition tryParseInt (s : string) : option Z :=
  let '(negative, body) :=
    match s with
    | EmptyString => (false, s)
    | String c r => if Ascii.eqb c "-"%char then (true, r) else (false, s)
    end in
  if negb (String.eqb body "") && all_digits body
     && (String.length (strip_zeros body) <=? 10)%nat
  then let v := digits_value 0 body in
       let z := if negative then (- v)%Z else v in
       if ((-2147483648 <=? z) && (z <=? 2147483647))%Z then Some z else None
  else None.

Definition orderByKey_le (a b : string) : bool :=
  match tryParseInt a, tryParseInt b with
  | Some x, Some y =>
      if (x =? y)%Z then (String.length a <=? String.length b)%nat else (x <? y)%Z
  | Some _, None => true
  | None, Some _ => false
  | None, None => String.leb a b
  end.

Definition name_le (a b : string) : Prop := orderByKey_le a b = true.

#[global] Instance name_le_dec : RelDecision name_le.
Proof. intros a b. unfold name_le. apply _. Defined.

(** The keys of the child nodes of [p], leaves or not, as [orderByKey] lists
    them: the integer-like keys, then the others. *)
Definition child_nodes (d : Database) (p : path) : list string :=
  let keys := remove_dups (omap (first_key p) (fst <$> map_to_list d)) in
  merge_sort name_le (filter (fun k => is_Some (tryParseInt k)) keys)
  ++ merge_sort key_le (filter (fun k => tryParseInt k = None) keys).

(** [ref(p).orderByKey().startAt(k).limitToFirst(n).once('value')]: the
    keys of the snapshot, in order.  [limitToFirst] throws unless its argument
    is a positive integer. *)
Definition once_first (d : Database) (p : path) (k : string) (n : nat)
    : option (list string) :=
  if decide (n = 0) then None
  else Some (take n (filter (name_le k) (child_nodes d p))).

Section Search.

(** [latinize(s).toLowerCase()]; [latinize] is an imported package. *)
Variable normalize : string → string.

(** The value kept for a hashtag is the node below it: the posts that carry
    the hashtag.  [None] stands for the exception of [limitToFirst]. *)
Definition searchHashtags (searchString : string) (maxResults : nat) (w : World)
    : option (obj string (obj string value)) :=
  let searchString := normalize searchString in
  match once_first (database w) ["hashtags"] searchString maxResults with
  | None => None
  | Some result =>
      let hashtagsData :=
        fold_left (fun acc key => obj_set key (children (database w) ["hashtags"; key]) acc)
                  result [] in
      Some (fold_left (fun acc hashtag =>
                         if String.prefix searchString hashtag then acc
                         else obj_delete hashtag acc)
                      (obj_keys hashtagsData) hashtagsData)
  end.

End Search.

(** Hashtags, some of them numbers. *)
Definition w_tags : World :=
  mkWorld (db_update [ (["hashtags"; "cats"; "p1"], Some (VBool true));
                       (["hashtags"; "cars"; "p2"], Some (VBool true));
                       (["hashtags"; "dogs"; "p1"], Some (VBool true)) ] ∅) ∅ [].

Definition w_tags_numbers : World :=
  mkWorld (db_update [ (["hashtags"; "1"; "p1"], Some (VBool true));
                       (["hashtags"; "2"; "p2"], Some (VBool true));
                       (["hashtags"; "10"; "p3"], Some (VBool true)) ] ∅) ∅ [].

(** * Facts about the key order *)

Section key_order.

Lemma compare_refl (a : string) : String.compare a a = Eq.
Proof. by apply String_as_OT.cmp_eq. Qed.

Lemma compare_lt_trans (a b c : string) :
  String.compare a b = Lt → String.compare b c = Lt → String.compare a c = Lt.
Proof.
  intros H1 H2. apply String_as_OT.cmp_lt.
  apply String_as_OT.cmp_lt in H1, H2.
  by eapply String_as_OT.lt_trans.
Qed.

Lemma key_lt_le (a b : string) : key_lt a b → key_le a b.
Proof. unfold key_lt, key_le, String.ltb, String.leb. by destruct (String.compare a b). Qed.

Lemma key_lt_irrefl (a : string) : ¬ key_lt a a.
Proof. unfold key_lt, String.ltb. by rewrite compare_refl. Qed.

Lemma key_le_lt_or_eq (a b : string) : key_le a b ↔ key_lt a b ∨ a = b.
Proof.
  unfold key_le, key_lt, String.leb, String.ltb.
  destruct (String.compare a b) eqn:E.
  - apply String_as_OT.cmp_eq in E. naive_solver.
  - naive_solver.
  - split; [done|]. intros [?| ->]; [done|]. by rewrite compare_refl in E.
Qed.

Lemma key_lt_iff (a b : string) : key_lt a b ↔ key_le a b ∧ a ≠ b.
Proof.
  rewrite key_le_lt_or_eq. split.
  - intros H. split; [by left|]. intros ->. by eapply key_lt_irrefl.
  - intros [[?|?] ?]; done.
Qed.

#[global] Instance key_lt_trans : Transitive key_lt.
Proof.
  intros a b c. unfold key_lt, String.ltb.
  destruct (String.compare a b) eqn:E1; try done.
  destruct (String.compare b c) eqn:E2; try done.
  by rewrite (compare_lt_trans a b c).
Qed.

#[global] Instance key_lt_antisym : AntiSymm (=) key_lt.
Proof. intros a b Hab Hba. exfalso. apply (key_lt_irrefl a). by etrans. Qed.

#[global] Instance key_le_refl : Reflexive key_le.
Proof. intros a. apply key_le_lt_or_eq. by right. Qed.

#[global] Instance key_le_trans : Transitive key_le.
Proof.
  intros a b c. rewrite !key_le_lt_or_eq.
  intros [?| ->] [?| ->]; eauto. left. by etrans.
Qed.

#[global] Instance key_le_total : Total key_le.
Proof. intros a b. apply String.leb_total. Qed.

#[global] Instance key_le_antisym : AntiSymm (=) key_le.
Proof. intros a b. apply String.leb_antisym. Qed.


Lemma key_lt_le_trans (a b c : string) : key_lt a b → key_le b c → key_lt a c.
Proof. rewrite (key_le_lt_or_eq b c). intros ? [?| <-]; [by etrans|done]. Qed.

Lemma key_lt_not_le (a b : string) : key_lt a b → ¬ key_le b a.
Proof.
  intros H1 H2. apply (key_lt_irrefl a). by eapply key_lt_le_trans.
Qed.

Lemma key_le_empty (a : string) : key_le "" a.
Proof. by destruct a. Qed.

#[global] Instance entry_le_trans : Transitive entry_le.
Proof. intros a b c. unfold entry_le. apply key_le_trans. Qed.

#[global] Instance entry_le_total : Total entry_le.
Proof. intros a b. unfold entry_le. apply key_le_total. Qed.

End key_order.

(** * Facts about paths and the database *)

Section database_facts.

Lemma strip_Some (p q r : path) : strip p q = Some r ↔ q = p ++ r.
Proof.
  revert q. induction p as [|a p IH]; intros q; simpl.
  - naive_solver.
  - destruct q as [|b q]; [naive_solver|].
    destruct (String.eqb_spec a b) as [->|Hne].
    + rewrite IH. naive_solver.
    + naive_solver.
Qed.

Lemma under_true (p q : path) : under p q = true ↔ ∃ r, q = p ++ r.
Proof.
  unfold under. destruct (strip p q) as [r|] eqn:E.
  - apply strip_Some in E. naive_solver.
  - split; [done|]. intros [r Hr]. apply strip_Some in Hr. congruence.
Qed.

Lemma under_false (p q : path) : under p q = false ↔ ∀ r, q ≠ p ++ r.
Proof.
  rewrite <-not_true_iff_false, under_true. naive_solver.
Qed.

Lemma under_refl (p : path) : under p p = true.
Proof. apply under_true. exists []. by rewrite app_nil_r. Qed.

Lemma under_same_length (p q : path) :
  under p q = true → length p = length q → p = q.
Proof.
  intros [r ->]%under_true. rewrite length_app. intros Hlen.
  destruct r; [by rewrite app_nil_r|]. simpl in Hlen. lia.
Qed.

Lemma child_key_Some (p q : path) (k : string) :
  child_key p q = Some k ↔ q = p ++ [k].
Proof.
  unfold child_key. destruct (strip p q) as [r|] eqn:E.
  - apply strip_Some in E. subst q.
    destruct r as [|k' [|k'' r]]; split; intros H; simplify_list_eq; done.
  - split; [done|]. intros ->.
    assert (strip p (p ++ [k]) = Some [k]) by by apply strip_Some. congruence.
Qed.

Lemma lookup_db_remove (p q : path) (d : Database) :
  db_remove p d !! q = if under p q then None else d !! q.
Proof.
  unfold db_remove. destruct (under p q) eqn:E.
  - apply map_lookup_filter_None. right. intros v _. simpl. congruence.
  - destruct (d !! q) as [v|] eqn:Hq.
    + apply map_lookup_filter_Some. done.
    + apply map_lookup_filter_None. by left.
Qed.

Lemma lookup_db_set_Some (p q : path) (x : value) (d : Database) :
  db_set p (Some x) d !! q =
    if decide (p = q) then Some x else if under p q then None else d !! q.
Proof.
  simpl. rewrite lookup_insert. case_decide; [done|]. apply lookup_db_remove.
Qed.

Lemma lookup_db_set_None (p q : path) (d : Database) :
  db_set p None d !! q = if under p q then None else d !! q.
Proof. apply lookup_db_remove. Qed.

(** A write leaves alone every path that is not at or under it. *)
Lemma lookup_db_set_frame (p q : path) (v : option value) (d : Database) :
  under p q = false → db_set p v d !! q = d !! q.
Proof.
  intros H. destruct v.
  - rewrite lookup_db_set_Some, H. case_decide; [|done].
    subst. by rewrite under_refl in H.
  - by rewrite lookup_db_set_None, H.
Qed.

Lemma lookup_db_update_frame (u : obj path (option value)) (q : path) (d : Database) :
  Forall (fun pv => under (fst pv) q = false) u → db_update u d !! q = d !! q.
Proof.
  unfold db_update. revert d. induction u as [|[p v] u IH]; intros d Hu; [done|].
  inversion_clear Hu. simpl. rewrite IH by done. by apply lookup_db_set_frame.
Qed.

Lemma db_update_app (u1 u2 : obj path (option value)) (d : Database) :
  db_update (u1 ++ u2) d = db_update u2 (db_update u1 d).
Proof. unfold db_update. by rewrite fold_left_app. Qed.

End database_facts.

(** * Facts about children and queries *)

Section children_facts.

Lemma child_entry_Some (p : path) (qv : path * value) (k : string) (v : value) :
  child_entry p qv = Some (k, v) ↔ qv = (p ++ [k], v).
Proof.
  unfold child_entry. destruct qv as [q x]. simpl.
  destruct (child_key p q) as [k'|] eqn:E.
  - apply child_key_Some in E. naive_solver.
  - split; [done|]. intros [= -> ->].
    assert (child_key p (p ++ [k]) = Some k) by by apply child_key_Some. congruence.
Qed.

Lemma elem_of_children (d : Database) (p : path) (k : string) (v : value) :
  (k, v) ∈ children d p ↔ d !! (p ++ [k]) = Some v.
Proof.
  unfold children. rewrite merge_sort_Permutation, list_elem_of_omap. split.
  - intros (qv & Hin & Hqv). apply child_entry_Some in Hqv. subst qv.
    by apply elem_of_map_to_list in Hin.
  - intros H. exists (p ++ [k], v). split.
    + by apply elem_of_map_to_list.
    + by apply child_entry_Some.
Qed.

Lemma NoDup_child_keys (p : path) (l : list (path * value)) :
  NoDup (fst <$> l) → NoDup (fst <$> omap (child_entry p) l).
Proof.
  induction l as [|[q x] l IH]; simpl; [constructor|].
  rewrite NoDup_cons. intros [Hq Hl].
  destruct (child_entry p (q, x)) as [[k v]|] eqn:E; simpl; [|by apply IH].
  apply NoDup_cons. split; [|by apply IH].
  apply child_entry_Some in E. injection E as -> ->.
  intros Hk. apply Hq.
  apply list_elem_of_fmap in Hk as ([k' v'] & -> & Hin).
  apply list_elem_of_omap in Hin as ([q' x'] & Hin & Hq').
  apply child_entry_Some in Hq'. injection Hq' as -> ->.
  apply list_elem_of_fmap. by exists (p ++ [k'], v').
Qed.

Lemma NoDup_children_keys (d : Database) (p : path) :
  NoDup (obj_keys (children d p)).
Proof.
  unfold children, obj_keys. rewrite merge_sort_Permutation.
  apply NoDup_child_keys, NoDup_fst_map_to_list.
Qed.

Lemma sorted_keys_strict (l : obj string value) :
  StronglySorted entry_le l → NoDup (obj_keys l) →
  StronglySorted key_lt (obj_keys l).
Proof.
  unfold obj_keys. induction 1 as [|[k v] l Hs IH Hall]; simpl; [constructor|].
  rewrite NoDup_cons. intros [Hk Hl]. constructor; [by apply IH|].
  apply Forall_fmap, Forall_forall. intros [k' v'] Hin. simpl.
  apply key_lt_iff. split.
  - rewrite Forall_forall in Hall. by apply (Hall (k', v')).
  - intros ->. apply Hk. apply list_elem_of_fmap. by exists (k', v').
Qed.

Lemma children_sorted (d : Database) (p : path) :
  StronglySorted key_lt (obj_keys (children d p)).
Proof.
  apply sorted_keys_strict, NoDup_children_keys.
  unfold children. apply StronglySorted_merge_sort; apply _.
Qed.

End children_facts.

(** * Facts about JavaScript objects *)

Section obj_facts.
Context {K A : Type} `{EqDecision K}.
Implicit Types (o : obj K A) (k : K) (v : A).

Lemma obj_delete_notin k o : k ∉ obj_keys o → obj_delete k o = o.
Proof.
  unfold obj_keys. induction o as [|[k' v'] o IH]; csimpl; [done|].
  rewrite not_elem_of_cons. intros [Hne Hnotin].
  case_decide; [done|]. by rewrite IH.
Qed.

Lemma obj_keys_delete k o : obj_keys (obj_delete k o) = filter (fun k' => k ≠ k') (obj_keys o).
Proof.
  unfold obj_keys. induction o as [|[k' v'] o IH]; csimpl; [done|].
  destruct (decide (k = k')) as [->|Hne].
  - by rewrite filter_cons_False by naive_solver.
  - rewrite filter_cons_True by done. csimpl. by rewrite IH.
Qed.

Lemma obj_keys_set_in k v o : k ∈ obj_keys o → obj_keys (obj_set k v o) = obj_keys o.
Proof.
  unfold obj_keys. induction o as [|[k' v'] o IH]; csimpl.
  - by intros ?%elem_of_nil.
  - intros Hin. case_decide as Hk; csimpl; [by subst|].
    f_equal. apply IH. apply elem_of_cons in Hin as [?|?]; done.
Qed.

Lemma obj_keys_set_notin k v o : k ∉ obj_keys o → obj_keys (obj_set k v o) = obj_keys o ++ [k].
Proof.
  unfold obj_keys. induction o as [|[k' v'] o IH]; csimpl; [done|].
  rewrite not_elem_of_cons. intros [Hne Hnotin].
  case_decide; [done|]. csimpl. by rewrite IH.
Qed.

Lemma obj_set_notin k v o : k ∉ obj_keys o → obj_set k v o = o ++ [(k, v)].
Proof.
  unfold obj_keys. induction o as [|[k' v'] o IH]; csimpl; [done|].
  rewrite not_elem_of_cons. intros [Hne Hnotin].
  case_decide; [done|]. by rewrite IH.
Qed.

Lemma obj_set_set k v v' o : obj_set k v' (obj_set k v o) = obj_set k v' o.
Proof.
  induction o as [|[k' x] o IH]; simpl.
  - by rewrite decide_True.
  - case_decide; simpl.
    + by rewrite decide_True.
    + rewrite decide_False by done. by rewrite IH.
Qed.

End obj_facts.

(** * Facts about taking the last entries of a sorted list *)

Section last_n_facts.
Context {A : Type}.
Implicit Types (l : list A).

Lemma last_n_all (n : nat) l : (length l ≤ n)%nat → last_n n l = l.
Proof. intros H. unfold last_n. by replace (length l - n) with 0 by lia. Qed.

Lemma length_last_n (n : nat) l : length (last_n n l) = min n (length l).
Proof. unfold last_n. rewrite length_drop. lia. Qed.

Lemma last_n_S (n : nat) l :
  (n < length l)%nat →
  ∃ x, l = take (length l - S n) l ++ x :: last_n n l ∧ last_n (S n) l = x :: last_n n l.
Proof.
  intros Hn. unfold last_n.
  destruct (lookup_lt_is_Some_2 l (length l - S n)) as [x Hx]; [lia|].
  exists x. replace (length l - n) with (S (length l - S n)) by lia.
  rewrite <-(drop_S _ _ _ Hx). by rewrite take_drop.
Qed.

Lemma last_n_suffix (n : nat) l : ∃ l0, l = l0 ++ last_n n l.
Proof. exists (take (length l - n) l). unfold last_n. by rewrite take_drop. Qed.

End last_n_facts.

Section sorted_facts.
Implicit Types (l : obj string value).

Lemma obj_keys_app {K A} (l1 l2 : obj K A) : obj_keys (l1 ++ l2) = obj_keys l1 ++ obj_keys l2.
Proof. unfold obj_keys. apply fmap_app. Qed.

Lemma sorted_keys_NoDup (ks : list string) : StronglySorted key_lt ks → NoDup ks.
Proof.
  induction 1 as [|k ks Hs IH Hall]; constructor; [|done].
  intros Hin. rewrite Forall_forall in Hall. by eapply key_lt_irrefl, Hall.
Qed.

Lemma sorted_keys_filter (P : string * value → Prop) `{∀ x, Decision (P x)} l :
  StronglySorted key_lt (obj_keys l) → StronglySorted key_lt (obj_keys (filter P l)).
Proof.
  unfold obj_keys. induction l as [|kv l IH]; [done|].
  rewrite fmap_cons. intros Hs. apply StronglySorted_inv in Hs as [Hs Hall].
  rewrite filter_cons. case_decide; [|by apply IH].
  rewrite fmap_cons. constructor; [by apply IH|].
  rewrite Forall_forall in *. intros k Hk. apply Hall.
  apply list_elem_of_fmap in Hk as (kv' & -> & Hin).
  apply list_elem_of_filter in Hin as [_ Hin].
  apply list_elem_of_fmap. by exists kv'.
Qed.

Lemma sorted_keys_suffix l0 l1 :
  StronglySorted key_lt (obj_keys (l0 ++ l1)) → StronglySorted key_lt (obj_keys l1).
Proof. rewrite obj_keys_app. apply StronglySorted_app_1_r. Qed.

Lemma sorted_keys_last_n (n : nat) l :
  StronglySorted key_lt (obj_keys l) → StronglySorted key_lt (obj_keys (last_n n l)).
Proof.
  destruct (last_n_suffix n l) as [l0 Hl]. rewrite Hl at 1. apply sorted_keys_suffix.
Qed.

End sorted_facts.

(** * Facts about pagination *)

Section pagination_facts.
Implicit Types (d : Database) (w : World) (uri : path) (b : option string).

Lemma in_range_pageRef_limit uri b (n : nat) k :
  in_range (limitToLast n (pageRef uri b)) k = in_range (pageRef uri b) k.
Proof. done. Qed.

Lemma pageRef_path uri b : q_path (pageRef uri b) = uri.
Proof. unfold pageRef. destruct b as [k|]; simpl; [|done]. by destruct (negb _). Qed.

Lemma pageRef_limit uri b : q_limitToLast (pageRef uri b) = None.
Proof. unfold pageRef. destruct b as [k|]; simpl; [|done]. by destruct (negb _). Qed.

Lemma once_limit_pageRef d uri b (n : nat) :
  once d (limitToLast n (pageRef uri b)) = last_n n (remaining d uri b).
Proof.
  unfold remaining, once. rewrite pageRef_limit. simpl. done.
Qed.

Lemma remaining_filter d uri b :
  remaining d uri b =
    filter (fun kv => in_range (pageRef uri b) (fst kv) = true) (children d uri).
Proof. unfold remaining, once. by rewrite pageRef_limit, pageRef_path. Qed.

Lemma remaining_sorted d uri b : StronglySorted key_lt (obj_keys (remaining d uri b)).
Proof. rewrite remaining_filter. apply sorted_keys_filter, children_sorted. Qed.

Lemma remaining_NoDup d uri b : NoDup (obj_keys (remaining d uri b)).
Proof. apply sorted_keys_NoDup, remaining_sorted. Qed.

Lemma elem_of_remaining d uri b k v :
  (k, v) ∈ remaining d uri b ↔
    d !! (uri ++ [k]) = Some v ∧ in_range (pageRef uri b) k = true.
Proof.
  rewrite remaining_filter, list_elem_of_filter, elem_of_children. simpl. tauto.
Qed.


Lemma split_page_last_n (N : nat) (R : obj string value) :
  NoDup (obj_keys R) →
  split_page N (last_n (N + 1) R) =
    if decide (N < length R)
    then (last_n N R, obj_keys (last_n N R), head (obj_keys (last_n (N + 1) R)))
    else (R, obj_keys R, None).
Proof.
  intros Hnd. unfold split_page. rewrite Nat.add_1_r.
  destruct (decide (N < length R)) as [Hlen|Hlen].
  - destruct (last_n_S N R Hlen) as (x & HR & Hx). rewrite Hx.
    assert (N < length (obj_keys (x :: last_n N R))) as Hl.
    { unfold obj_keys. rewrite length_fmap. simpl. rewrite length_last_n. lia. }
    rewrite decide_True by done.
    destruct x as [k0 v0]. csimpl. rewrite decide_True by done.
    rewrite obj_delete_notin; [done|].
    rewrite HR, obj_keys_app in Hnd. apply NoDup_app in Hnd as (_ & _ & Hnd).
    unfold obj_keys in Hnd. rewrite fmap_cons in Hnd. by apply NoDup_cons in Hnd as [? _].
  - rewrite last_n_all by lia.
    rewrite decide_False; [done|]. unfold obj_keys. by rewrite length_fmap.
Qed.

Lemma db_remove_subseteq p d : db_remove p d ⊆ d.
Proof. apply map_filter_subseteq. Qed.

Lemma dangling_false w k :
  dangling w k = false ↔ ∃ x, getPostData w k = Some x ∧ truthy (val (Some x)) = true.
Proof.
  unfold dangling. destruct (getPostData w k) as [x|]; simpl.
  - rewrite negb_false_iff. naive_solver.
  - naive_solver.
Qed.

Lemma expand_entries_cons_kept w k x ids e :
  getPostData w k = Some x → truthy (val (Some x)) = true →
  expand_entries w (k :: ids) e = expand_entries w ids (obj_set k x e).
Proof. intros Hx Ht. unfold expand_entries. cbn [fold_left]. by rewrite Hx, Ht. Qed.

Lemma expand_entries_cons_dangling w k ids e :
  dangling w k = true →
  expand_entries w (k :: ids) e = expand_entries w ids (obj_delete k e).
Proof.
  unfold dangling, expand_entries. cbn [fold_left].
  destruct (getPostData w k) as [x|]; [|done].
  by intros ->%negb_true_iff.
Qed.

Lemma expand_entries_keys w ids e :
  Forall (fun k => dangling w k = false) ids → ids ⊆ obj_keys e →
  obj_keys (expand_entries w ids e) = obj_keys e.
Proof.
  revert e. induction ids as [|k ids IH]; intros e Hd Hsub; [done|].
  inversion_clear Hd as [|?? Hk Hids].
  apply dangling_false in Hk as (x & Hx & Ht).
  rewrite (expand_entries_cons_kept _ _ x) by done.
  assert (k ∈ obj_keys e) by set_solver.
  rewrite IH; [by apply obj_keys_set_in|done|].
  rewrite obj_keys_set_in by done. set_solver.
Qed.

Lemma dangling_ids_nil w ids :
  dangling_ids w ids = [] ↔ Forall (fun k => dangling w k = false) ids.
Proof.
  unfold dangling_ids. induction ids as [|k ids IH]; [done|].
  rewrite filter_cons, Forall_cons. destruct (dangling w k) eqn:Hk.
  - rewrite decide_True by done. split; [done|]. by intros [? _].
  - rewrite decide_False by done. rewrite IH. tauto.
Qed.

Lemma dangling_ids_database w w' ids :
  database w = database w' → dangling_ids w ids = dangling_ids w' ids.
Proof. intros H. unfold dangling_ids, dangling, getPostData. by rewrite H. Qed.

Lemma dangling_ids_subseteq w ids : dangling_ids w ids ⊆ ids.
Proof. unfold dangling_ids. intros k Hk. by apply list_elem_of_filter in Hk as [_ ?]. Qed.

Lemma keys_last_n_subseteq (n : nat) (R : obj string value) :
  obj_keys (last_n n R) ⊆ obj_keys R.
Proof.
  destruct (last_n_suffix n R) as [l0 Hl]. rewrite Hl at 2.
  rewrite obj_keys_app. set_solver.
Qed.

Lemma remaining_subseteq d d' uri b :
  d' ⊆ d → remaining d' uri b ⊆ remaining d uri b.
Proof.
  intros Hsub [k v]. rewrite !elem_of_remaining. intros [Hk ?]. split; [|done].
  by eapply lookup_weaken.
Qed.

Variable rules : path → bool.

Lemma database_remove p w :
  database (fst (remove rules p w)) =
    if rules p then db_remove p (database w) else database w.
Proof. unfold remove. by destruct (rules p). Qed.

Lemma database_deleteFromFeed uri k w :
  database (fst (deleteFromFeed rules uri k w)) =
    if rules (uri ++ [k]) then db_remove (uri ++ [k]) (database w) else database w.
Proof. apply database_remove. Qed.

Lemma database_repair_subseteq uri ids w : database (repair rules uri ids w) ⊆ database w.
Proof.
  unfold repair. revert w. induction ids as [|k ids IH]; intros w; simpl; [done|].
  etrans; [apply IH|]. rewrite database_deleteFromFeed.
  destruct (rules _); [apply db_remove_subseteq|done].
Qed.

Lemma repair_frame uri ids w q :
  (∀ k, k ∈ ids → under (uri ++ [k]) q = false) →
  database (repair rules uri ids w) !! q = database w !! q.
Proof.
  unfold repair. revert w. induction ids as [|k ids IH]; intros w Hq; [done|].
  cbn [fold_left]. rewrite IH by (intros; apply Hq; by right).
  rewrite database_deleteFromFeed. destruct (rules _); [|done].
  rewrite lookup_db_remove, Hq; [done|by left].
Qed.

Lemma storage_repair uri ids w : storage (repair rules uri ids w) = storage w.
Proof.
  unfold repair. revert w. induction ids as [|k ids IH]; intros w; [done|].
  cbn [fold_left]. rewrite IH. unfold deleteFromFeed, remove. by destruct (rules _).
Qed.

Lemma dangling_repair uri ids w k' :
  (∀ k, under (uri ++ [k]) ["posts"; k'] = false) →
  dangling (repair rules uri ids w) k' = dangling w k'.
Proof.
  intros H. unfold dangling, getPostData. by rewrite repair_frame by (intros; apply H).
Qed.

Lemma expand_result_kept uri wr k x e ops w0 :
  getPostData wr k = Some x → truthy (val (Some x)) = true →
  expand_result rules uri (e, ops, w0) (k, getPostData wr k) = (obj_set k x e, ops, w0).
Proof. intros -> Ht. unfold expand_result. cbn [fst snd]. by rewrite Ht. Qed.

Lemma expand_result_dangling uri wr k e ops w0 :
  dangling wr k = true →
  expand_result rules uri (e, ops, w0) (k, getPostData wr k) =
    (obj_delete k e, ops ++ [snd (deleteFromFeed rules uri k w0)],
     fst (deleteFromFeed rules uri k w0)).
Proof.
  unfold dangling, expand_result. cbn [fst snd].
  destruct (getPostData wr k) as [x|].
  - intros ->%negb_true_iff. by destruct (deleteFromFeed rules uri k w0).
  - intros _. by destruct (deleteFromFeed rules uri k w0).
Qed.

Lemma fold_expand uri wr ids e ops w0 :
  ∃ ops',
    fold_left (expand_result rules uri) (map (fun k => (k, getPostData wr k)) ids) (e, ops, w0)
      = (expand_entries wr ids e, ops ++ ops', repair rules uri (dangling_ids wr ids) w0)
    ∧ length ops' = length (dangling_ids wr ids).
Proof.
  revert e ops w0. induction ids as [|k ids IH]; intros e ops w0.
  - exists []. by rewrite app_nil_r.
  - cbn [map fold_left]. unfold dangling_ids. rewrite filter_cons.
    destruct (dangling wr k) eqn:Hk.
    + rewrite decide_True by done.
      rewrite expand_result_dangling, expand_entries_cons_dangling by done.
      destruct (IH (obj_delete k e) (ops ++ [snd (deleteFromFeed rules uri k w0)])
                   (fst (deleteFromFeed rules uri k w0))) as (ops' & -> & Hlen).
      exists (snd (deleteFromFeed rules uri k w0) :: ops').
      rewrite <-app_assoc. cbn. by rewrite Hlen.
    + rewrite decide_False by done.
      apply dangling_false in Hk as (x & Hx & Ht).
      rewrite (expand_result_kept _ _ _ x), (expand_entries_cons_kept _ _ x) by done.
      apply IH.
Qed.

(** One round of [_getPaginatedFeed], by cases. *)
Lemma paginate_unfold fuel uri (N : nat) b fetch w :
  let R := remaining (database w) uri b in
  let ids := obj_keys (last_n N R) in
  let next := if decide (N < length R) then head (obj_keys (last_n (N + 1) R)) else None in
  _getPaginatedFeed rules (S fuel) uri N b fetch w =
    if fetch then
      if decide (dangling_ids w ids = [])
      then Some (w, mkPage (expand_entries w ids (last_n N R)) next)
      else _getPaginatedFeed rules fuel uri N b fetch (repair rules uri (dangling_ids w ids) w)
    else Some (w, mkPage (last_n N R) next).
Proof.
  intros R ids next. simpl.
  rewrite once_limit_pageRef, split_page_last_n by apply remaining_NoDup.
  fold R. subst ids next.
  assert (∀ ids0 e0 next0,
    (let '(entries', deleteOps, w') :=
       fold_left (expand_result rules uri) (map (fun k => (k, getPostData w k)) ids0) (e0, [], w) in
     if decide (0 < length deleteOps)
     then _getPaginatedFeed rules fuel uri N b true w'
     else Some (w', mkPage entries' next0)) =
    if decide (dangling_ids w ids0 = [])
    then Some (w, mkPage (expand_entries w ids0 e0) next0)
    else _getPaginatedFeed rules fuel uri N b true (repair rules uri (dangling_ids w ids0) w)) as Hround.
  { intros ids0 e0 next0.
    destruct (fold_expand uri w ids0 e0 [] w) as (ops & -> & Hops).
    cbn [app]. destruct (decide (dangling_ids w ids0 = [])) as [H2|H2].
    - rewrite H2 in *. destruct ops; [|done]. by rewrite decide_False by (simpl; lia).
    - rewrite decide_True; [done|].
      destruct ops; [|simpl; lia]. by destruct (dangling_ids w ids0). }
  destruct (decide (N < length R)) as [Hlen|Hlen].
  - destruct fetch; [|done]. apply Hround.
  - rewrite (last_n_all N R) by lia. destruct fetch; [|done]. apply Hround.
Qed.

(** What a successful call returns, in terms of the feed it leaves behind. *)
Lemma paginate_returns fuel uri (N : nat) b fetch w w' pg :
  _getPaginatedFeed rules fuel uri N b fetch w = Some (w', pg) →
  let R := remaining (database w') uri b in
  nextPage pg = (if decide (N < length R) then head (obj_keys (last_n (N + 1) R)) else None)
  ∧ obj_keys (entries pg) = obj_keys (last_n N R)
  ∧ (fetch = false → w' = w ∧ entries pg = last_n N R)
  ∧ (fetch = true → Forall (fun k => dangling w' k = false) (obj_keys (entries pg)))
  ∧ database w' ⊆ database w.
Proof.
  revert w. induction fuel as [|fuel IH]; intros w; [done|].
  rewrite paginate_unfold. destruct fetch.
  - case_decide as Hd.
    + intros [= <- <-]. cbn [nextPage entries].
      apply dangling_ids_nil in Hd.
      rewrite expand_entries_keys by done. done.
    + intros Hret. destruct (IH _ Hret) as (H1 & H2 & H3 & H4 & H5).
      repeat split; try done.
      etrans; [done|]. apply database_repair_subseteq.
  - intros [= <- <-]. cbn [nextPage entries]. done.
Qed.


Section accepted.
Variable uri : path.
Hypothesis accepted : ∀ k, rules (uri ++ [k]) = true.

Lemma lookup_repair_removed ids k w :
  k ∈ ids → database (repair rules uri ids w) !! (uri ++ [k]) = None.
Proof.
  unfold repair. revert w. induction ids as [|k' ids IH]; intros w Hk.
  - by apply elem_of_nil in Hk.
  - cbn [fold_left]. apply elem_of_cons in Hk as [->|Hk]; [|by apply IH].
    eapply lookup_weaken_None; [|apply database_repair_subseteq].
    rewrite database_deleteFromFeed, accepted, lookup_db_remove.
    by rewrite under_refl.
Qed.

Lemma remaining_repair_length ids b w :
  ids ⊆ obj_keys (remaining (database w) uri b) → ids ≠ [] →
  length (remaining (database (repair rules uri ids w)) uri b)
    < length (remaining (database w) uri b).
Proof.
  intros Hsub Hne. destruct ids as [|k ids]; [done|].
  assert (k ∈ obj_keys (remaining (database w) uri b)) as Hk by set_solver.
  apply list_elem_of_fmap in Hk as ([k' v] & -> & Hkv). cbn [fst] in *.
  set (R' := remaining (database (repair rules uri (k' :: ids) w)) uri b).
  assert ((k', v) :: R' ⊆+ remaining (database w) uri b) as Hlen.
  { apply NoDup_submseteq.
    - apply NoDup_cons. split.
      + unfold R'. rewrite elem_of_remaining.
        rewrite lookup_repair_removed by set_solver. by intros [? _].
      + eapply NoDup_fmap_1, remaining_NoDup.
    - intros x [->|Hx]%elem_of_cons; [done|].
      eapply remaining_subseteq; [|done]. apply database_repair_subseteq. }
  apply submseteq_length in Hlen. cbn [length] in Hlen. subst R'. lia.
Qed.

(** With the corrective deletes accepted, every round that retries leaves
    fewer entries in range, so the call returns. *)
Lemma paginate_terminates (N : nat) b fetch w fuel :
  length (remaining (database w) uri b) < fuel →
  is_Some (_getPaginatedFeed rules fuel uri N b fetch w).
Proof.
  revert w. induction fuel as [|fuel IH]; intros w Hfuel; [lia|].
  rewrite paginate_unfold. destruct fetch; [|done].
  case_decide as Hd; [done|]. apply IH.
  pose proof (remaining_repair_length _ b w
    (transitivity (dangling_ids_subseteq w _) (keys_last_n_subseteq N _)) Hd).
  lia.
Qed.

End accepted.

(** With the corrective deletes refused, a page holding a dangling entry is
    fetched again and again. *)
Lemma database_repair_refused uri ids w :
  (∀ k, rules (uri ++ [k]) = false) → database (repair rules uri ids w) = database w.
Proof.
  intros Hr. unfold repair. revert w. induction ids as [|k ids IH]; intros w; [done|].
  cbn [fold_left]. rewrite IH, database_deleteFromFeed. by rewrite Hr.
Qed.

Lemma paginate_stuck uri (N : nat) b w :
  (∀ k, rules (uri ++ [k]) = false) →
  dangling_ids w (obj_keys (last_n N (remaining (database w) uri b))) ≠ [] →
  ∀ fuel, _getPaginatedFeed rules fuel uri N b true w = None.
Proof.
  intros Hr Hd fuel. revert w Hd. induction fuel as [|fuel IH]; intros w Hd; [done|].
  rewrite paginate_unfold. rewrite decide_False by done. apply IH.
  rewrite database_repair_refused by done.
  by rewrite (dangling_ids_database _ w) by by apply database_repair_refused.
Qed.

Lemma paginate_fuel_mono (fuel fuel' : nat) uri (N : nat) b fetch w r :
  _getPaginatedFeed rules fuel uri N b fetch w = Some r → (fuel ≤ fuel')%nat →
  _getPaginatedFeed rules fuel' uri N b fetch w = Some r.
Proof.
  revert fuel' w. induction fuel as [|fuel IH]; intros fuel' w; [done|].
  intros Hret Hle. destruct fuel' as [|fuel']; [lia|].
  rewrite paginate_unfold in *. destruct fetch; [|done].
  case_decide; [done|]. apply IH; [done|lia].
Qed.

(** ** The retry and the order of events *)

Lemma getPostData_view view w k : getPostData (with_database view w) k = view !! ["posts"; k].
Proof. done. Qed.

Lemma fold_expand_client uri wr ids e ops w0 view0 :
  ∃ ops',
    fold_left (expand_result_client rules uri)
              (map (fun k => (k, getPostData wr k)) ids) (e, ops, w0, view0)
      = (expand_entries wr ids e, ops ++ ops',
         repair rules uri (dangling_ids wr ids) w0,
         local_repair uri (dangling_ids wr ids) view0)
    ∧ length ops' = length (dangling_ids wr ids).
Proof.
  revert e ops w0 view0. induction ids as [|k ids IH]; intros e ops w0 view0.
  - exists []. by rewrite app_nil_r.
  - cbn [map fold_left]. unfold dangling_ids. rewrite filter_cons.
    destruct (dangling wr k) eqn:Hk.
    + rewrite decide_True by done.
      rewrite expand_entries_cons_dangling by done.
      assert (expand_result_client rules uri (e, ops, w0, view0) (k, getPostData wr k)
              = (obj_delete k e, ops ++ [snd (deleteFromFeed rules uri k w0)],
                 fst (deleteFromFeed rules uri k w0), db_remove (uri ++ [k]) view0)) as ->.
      { unfold dangling in Hk. unfold expand_result_client. cbn [fst snd].
        destruct (getPostData wr k) as [x|].
        - apply negb_true_iff in Hk. rewrite Hk.
          by destruct (deleteFromFeed rules uri k w0).
        - by destruct (deleteFromFeed rules uri k w0). }
      destruct (IH (obj_delete k e) (ops ++ [snd (deleteFromFeed rules uri k w0)])
                   (fst (deleteFromFeed rules uri k w0)) (db_remove (uri ++ [k]) view0))
        as (ops' & -> & Hlen).
      exists (snd (deleteFromFeed rules uri k w0) :: ops').
      rewrite <-app_assoc. cbn. by rewrite Hlen.
    + rewrite decide_False by done.
      apply dangling_false in Hk as (x & Hx & Ht).
      rewrite (expand_entries_cons_kept _ _ x) by done.
      assert (expand_result_client rules uri (e, ops, w0, view0) (k, getPostData wr k)
              = (obj_set k x e, ops, w0, view0)) as ->.
      { unfold expand_result_client. cbn [fst snd]. by rewrite Hx, Ht. }
      apply IH.
Qed.

(** One round as the client runs it, by cases. *)
Lemma paginate_client_unfold settled (n fuel : nat) uri (N : nat) b fetch w view :
  let R := remaining view uri b in
  let ids := obj_keys (last_n N R) in
  let next := if decide (N < length R) then head (obj_keys (last_n (N + 1) R)) else None in
  let gone := dangling_ids (with_database view w) ids in
  _getPaginatedFeed_client rules settled n (S fuel) uri N b fetch w view =
    if fetch then
      if decide (gone = [])
      then Some (w, view, mkPage (expand_entries (with_database view w) ids (last_n N R)) next)
      else _getPaginatedFeed_client rules settled (S n) fuel uri N b fetch
             (repair rules uri gone w)
             (if settled n then database (repair rules uri gone w)
              else local_repair uri gone view)
    else Some (w, view, mkPage (last_n N R) next).
Proof.
  intros R ids next gone. simpl.
  rewrite once_limit_pageRef, split_page_last_n by apply remaining_NoDup.
  fold R. subst ids next gone.
  assert (∀ ids0 e0 next0,
    (let '(entries', deleteOps, w', view') :=
       fold_left (expand_result_client rules uri)
                 (map (fun k => (k, getPostData (with_database view w) k)) ids0)
                 (e0, [], w, view) in
     if decide (0 < length deleteOps)
     then _getPaginatedFeed_client rules settled (S n) fuel uri N b true w'
            (if settled n then database w' else view')
     else Some (w', view', mkPage entries' next0)) =
    if decide (dangling_ids (with_database view w) ids0 = [])
    then Some (w, view, mkPage (expand_entries (with_database view w) ids0 e0) next0)
    else _getPaginatedFeed_client rules settled (S n) fuel uri N b true
           (repair rules uri (dangling_ids (with_database view w) ids0) w)
           (if settled n
            then database (repair rules uri (dangling_ids (with_database view w) ids0) w)
            else local_repair uri (dangling_ids (with_database view w) ids0) view)) as Hround.
  { intros ids0 e0 next0.
    destruct (fold_expand_client uri (with_database view w) ids0 e0 [] w view)
      as (ops & -> & Hops).
    cbn [app]. destruct (decide (dangling_ids (with_database view w) ids0 = [])) as [H2|H2].
    - rewrite H2 in *. destruct ops; [|done]. by rewrite decide_False by (simpl; lia).
    - rewrite decide_True; [done|].
      destruct ops; [|simpl; lia]. by destruct (dangling_ids (with_database view w) ids0). }
  destruct (decide (N < length R)) as [Hlen|Hlen].
  - destruct fetch; [|done]. apply Hround.
  - rewrite (last_n_all N R) by lia. destruct fetch; [|done]. apply Hround.
Qed.

Lemma with_database_id w : with_database (database w) w = w.
Proof. by destruct w. Qed.

Lemma local_repair_accepted uri ids w :
  (∀ k, rules (uri ++ [k]) = true) →
  database (repair rules uri ids w) = local_repair uri ids (database w).
Proof.
  intros Hacc. unfold repair, local_repair. revert w.
  induction ids as [|k ids IH]; intros w; [done|].
  cbn [fold_left]. rewrite IH, database_deleteFromFeed. by rewrite Hacc.
Qed.

(** When the verdicts always arrive before the retry reads, or when the
    removals are accepted, the view is the store and the client runs
    [_getPaginatedFeed] as embedded above. *)
Lemma paginate_client_settled settled (n fuel : nat) uri (N : nat) b fetch w :
  (∀ m, settled m = true) ∨ (∀ k, rules (uri ++ [k]) = true) →
  _getPaginatedFeed_client rules settled n fuel uri N b fetch w (database w) =
    (fun r => (fst r, database (fst r), snd r)) <$> _getPaginatedFeed rules fuel uri N b fetch w.
Proof.
  intros Hcase. revert n w. induction fuel as [|fuel IH]; intros n w; [done|].
  rewrite paginate_client_unfold, paginate_unfold, with_database_id.
  destruct fetch; [|done]. case_decide; [done|].
  rewrite <-(IH (S n)). f_equal.
  destruct Hcase as [Hs|Hacc]; [by rewrite Hs|].
  destruct (settled n); [done|]. by rewrite local_repair_accepted.
Qed.

(** A page returned holds no id that is dangling in the view. *)
Lemma paginate_client_clean settled (n fuel : nat) uri (N : nat) b w view w' view' pg :
  _getPaginatedFeed_client rules settled n fuel uri N b true w view = Some (w', view', pg) →
  dangling_ids (with_database view' w') (obj_keys (entries pg)) = [].
Proof.
  revert n w view. induction fuel as [|fuel IH]; intros n w view; [done|].
  rewrite paginate_client_unfold. case_decide as Hd; [|apply IH].
  intros [= <- <- <-]. cbn [entries].
  rewrite expand_entries_keys; [done| |done]. by apply dangling_ids_nil.
Qed.

Lemma lookup_local_repair_removed uri ids k view :
  k ∈ ids → local_repair uri ids view !! (uri ++ [k]) = None.
Proof.
  unfold local_repair. revert view. induction ids as [|k' ids IH]; intros view Hk.
  - by apply elem_of_nil in Hk.
  - cbn [fold_left]. apply elem_of_cons in Hk as [->|Hk]; [|by apply IH].
    assert (∀ d, fold_left (fun d k => db_remove (uri ++ [k]) d) ids d ⊆ d) as Hsub.
    { clear. induction ids as [|k ids IH]; intros d; [done|].
      cbn [fold_left]. etrans; [apply IH|apply db_remove_subseteq]. }
    eapply lookup_weaken_None; [|apply Hsub].
    by rewrite lookup_db_remove, under_refl.
Qed.

Lemma local_repair_subseteq uri ids view : local_repair uri ids view ⊆ view.
Proof.
  unfold local_repair. revert view. induction ids as [|k ids IH]; intros view; [done|].
  cbn [fold_left]. etrans; [apply IH|apply db_remove_subseteq].
Qed.

Lemma remaining_local_repair_length uri ids b view :
  ids ⊆ obj_keys (remaining view uri b) → ids ≠ [] →
  length (remaining (local_repair uri ids view) uri b) < length (remaining view uri b).
Proof.
  intros Hsub Hne. destruct ids as [|k ids]; [done|].
  assert (k ∈ obj_keys (remaining view uri b)) as Hk by (apply Hsub; by left).
  apply list_elem_of_fmap in Hk as ([k' v] & -> & Hkv). cbn [fst] in *.
  set (R' := remaining (local_repair uri (k' :: ids) view) uri b).
  assert ((k', v) :: R' ⊆+ remaining view uri b) as Hlen.
  { apply NoDup_submseteq.
    - apply NoDup_cons. split.
      + unfold R'. rewrite elem_of_remaining.
        rewrite lookup_local_repair_removed by (by left). by intros [? _].
      + eapply NoDup_fmap_1, remaining_NoDup.
    - intros x [->|Hx]%elem_of_cons; [done|].
      eapply remaining_subseteq; [|done]. apply local_repair_subseteq. }
  apply submseteq_length in Hlen. cbn [length] in Hlen. subst R'. lia.
Qed.

(** When the retry reads before any verdict has arrived, every round that
    retries reads fewer entries in range, whatever the rules say. *)
Lemma paginate_client_unsettled settled (n fuel : nat) uri (N : nat) b w view :
  (∀ m, settled m = false) →
  length (remaining view uri b) < fuel →
  ∃ w' view' pg,
    _getPaginatedFeed_client rules settled n fuel uri N b true w view = Some (w', view', pg)
    ∧ ((∀ k, rules (uri ++ [k]) = false) → database w' = database w).
Proof.
  intros Hs. revert n w view. induction fuel as [|fuel IH]; intros n w view Hfuel; [lia|].
  rewrite paginate_client_unfold. case_decide as Hd; [by eexists _, _, _|].
  rewrite Hs.
  set (gone := dangling_ids (with_database view w) (obj_keys (last_n N (remaining view uri b)))) in *.
  destruct (IH (S n) (repair rules uri gone w) (local_repair uri gone view))
    as (w' & view' & pg & Hret & Hsame).
  { pose proof (remaining_local_repair_length uri gone b view
      (transitivity (dangling_ids_subseteq _ _) (keys_last_n_subseteq N _)) Hd). lia. }
  exists w', view', pg. split; [done|].
  intros Href. rewrite Hsame by done. by apply database_repair_refused.
Qed.

End pagination_facts.

(** * Pagination: next page and repair *)

Section claims_pagination.




(** C2, as amended.  The retry of [_getPaginatedFeed] is not capped and
    does not wait for the corrective deletes, so whether it ends depends on the
    rules and on the order of events.  When the store accepts the deletes under
    the feed, then in whatever order the verdicts arrive a call with
    [fetchPostDetails] returns within one fetch per entry at or before the
    bound plus one, and no id of the page it returns is dangling.  When each
    retry reads before any verdict has arrived, it reads the view from which the
    removals are already gone, and the call returns within the same number of
    fetches whatever the rules say, with no dangling id on the page; if the
    deletes are refused the store still holds the dangling entries.  When the
    deletes are refused and each refusal has arrived before the retry reads, a
    dangling entry of the page is still there for the retry, and no number of
    fetches makes the call return.  In the first and the last case the client
    runs [_getPaginatedFeed] as embedded with the store read directly. *)
Theorem getPaginatedFeed_retry_bounded (rules : path → bool) (uri : path) (N : nat)
    (b : option string) (w : World) :
  let fuel := S (length (remaining (database w) uri b)) in
  (∀ settled fuel0,
     (∀ m, settled m = true) ∨ (∀ k, rules (uri ++ [k]) = true) →
     _getPaginatedFeed_client rules settled 0 fuel0 uri N b true w (database w)
     = (fun r => (fst r, database (fst r), snd r))
         <$> _getPaginatedFeed rules fuel0 uri N b true w)
  ∧ ((∀ k, rules (uri ++ [k]) = true) →
     (∃ w' pg,
        _getPaginatedFeed rules fuel uri N b true w = Some (w', pg)
        ∧ dangling_ids w' (obj_keys (entries pg)) = [])
     ∧ ∀ settled, ∃ w' pg,
         _getPaginatedFeed_client rules settled 0 fuel uri N b true w (database w)
         = Some (w', database w', pg)
         ∧ dangling_ids w' (obj_keys (entries pg)) = [])
  ∧ (∀ settled, (∀ m, settled m = false) →
     ∃ w' view' pg,
       _getPaginatedFeed_client rules settled 0 fuel uri N b true w (database w)
       = Some (w', view', pg)
       ∧ dangling_ids (with_database view' w') (obj_keys (entries pg)) = []
       ∧ ((∀ k, rules (uri ++ [k]) = false) → database w' = database w))
  ∧ ((∀ k, rules (uri ++ [k]) = false) →
     dangling_ids w (obj_keys (last_n N (remaining (database w) uri b))) ≠ [] →
     ∀ settled, (∀ m, settled m = true) →
     ∀ fuel0,
       _getPaginatedFeed_client rules settled 0 fuel0 uri N b true w (database w) = None).
Proof.
  intros fuel. split; [|split; [|split]].
  - intros settled fuel0 Hcase. by apply paginate_client_settled.
  - intros Hacc.
    destruct (paginate_terminates rules uri Hacc N b true w fuel) as [[w' pg] Hret];
      [unfold fuel; lia|].
    assert (dangling_ids w' (obj_keys (entries pg)) = []) as Hclean.
    { destruct (paginate_returns _ _ _ _ _ _ _ _ _ Hret) as (_ & _ & _ & Hd & _).
      apply dangling_ids_nil. by apply Hd. }
    split; [by exists w', pg|].
    intros settled. exists w', pg. split; [|done].
    rewrite paginate_client_settled by (by right). by rewrite Hret.
  - intros settled Hs.
    destruct (paginate_client_unsettled rules settled 0 fuel uri N b w (database w) Hs)
      as (w' & view' & pg & Hret & Hsame); [unfold fuel; lia|].
    exists w', view', pg. split; [done|]. split; [|done].
    by eapply paginate_client_clean.
  - intros Href Hd settled Hs fuel0.
    rewrite paginate_client_settled by (by left).
    by rewrite paginate_stuck.
Qed.

(** The feed of [w_demo], whose entry [p1] is dangling.  With every write
    accepted it is paged within four fetches; with every write refused and the
    retry reading before the refusal arrives, the second fetch returns [p2] and
    [p3] and the store is as it was. *)
Lemma getPaginatedFeed_retry_bounded_witness :
  (∃ w' pg,
     _getPaginatedFeed (fun _ => true)
       (S (length (remaining (database w_demo) ["feed"; "a"] None))) ["feed"; "a"] 3 None true
       w_demo = Some (w', pg)
     ∧ dangling_ids w' (obj_keys (entries pg)) = [])
  ∧ (∃ w' view' pg,
       _getPaginatedFeed_client (fun _ => false) (fun _ => false) 0
         (S (length (remaining (database w_demo) ["feed"; "a"] None))) ["feed"; "a"] 3 None true
         w_demo (database w_demo) = Some (w', view', pg)
       ∧ dangling_ids (with_database view' w') (obj_keys (entries pg)) = []
       ∧ database w' = database w_demo
       ∧ obj_keys (entries pg) = ["p2"; "p3"]).
Proof.
  destruct (getPaginatedFeed_retry_bounded (fun _ => true) ["feed"; "a"] 3 None w_demo)
    as (_ & Hacc & _).
  destruct (getPaginatedFeed_retry_bounded (fun _ => false) ["feed"; "a"] 3 None w_demo)
    as (_ & _ & Hearly & _).
  split; [exact (proj1 (Hacc (fun _ => eq_refl)))|].
  destruct (Hearly (fun _ => false) (fun _ => eq_refl)) as (w' & view' & pg & Hret & Hclean & Hsame).
  exists w', view', pg. split; [exact Hret|]. split; [exact Hclean|].
  split; [exact (Hsame (fun _ => eq_refl))|].
  vm_compute in Hret. injection Hret as <- <- <-. reflexivity.
Defined.

(** C2, counterexample.  The entry [p1] of the feed has no post; the store
    refuses the corrective delete and the refusal arrives before the retry
    reads, so the entry is still in the feed when the retry runs, and the call
    never returns. *)
Lemma getPaginatedFeed_retry_unbounded :
  dangling_ids w_demo (obj_keys (last_n 3 (remaining (database w_demo) ["feed"; "a"] None)))
    = ["p1"]
  ∧ database (repair (fun _ => false) ["feed"; "a"] ["p1"] w_demo) !! ["feed"; "a"; "p1"]
    = Some (VBool true)
  ∧ ∀ fuel,
      _getPaginatedFeed_client (fun _ => false) (fun _ => true) 0 fuel ["feed"; "a"] 3 None true
        w_demo (database w_demo) = None.
Proof.
  split; [by vm_compute|]. split; [by vm_compute|].
  intros fuel. rewrite paginate_client_settled by (by left).
  rewrite paginate_stuck; [done|done|]. by vm_compute.
Qed.

End claims_pagination.

(** * Live subscription *)

Section claims_subscription.
Implicit Types (w : World) (uri : path).


Lemma filter_all {A} (P : A → Prop) `{∀ x, Decision (P x)} (l : list A) :
  (∀ x, P x) → filter P l = l.
Proof.
  intros HP. induction l as [|x l IH]; [done|].
  by rewrite filter_cons_True, IH by done.
Qed.

Lemma once_feedRef w uri latest :
  once (database w) (feedRef uri latest) =
    filter (fun kv => in_range (feedRef uri latest) (fst kv) = true) (children (database w) uri).
Proof.
  unfold once, feedRef.
  destruct latest as [s|]; cbn [js_of_id truthy]; [|done].
  by destruct (negb (s =? "")%string).
Qed.

(** A key passes the range of the reference and the [!==] test exactly
    when it is greater than [sinceId]. *)
Lemma delivered_iff uri sinceId k :
  in_range (feedRef uri (Some sinceId)) k = true
  ∧ key_strict_neq k (js_of_id (Some sinceId)) = true
  ↔ key_lt sinceId k.
Proof.
  unfold feedRef. cbn [js_of_id truthy key_strict_neq].
  rewrite negb_true_iff, String.eqb_neq, key_lt_iff.
  destruct (String.eqb_spec sinceId "") as [->|Hne]; cbn [negb].
  - unfold in_range. cbn. split.
    + intros [_ ?]. split; [apply key_le_empty|done].
    + intros [_ ?]. done.
  - unfold in_range. cbn. rewrite andb_true_r, bool_decide_eq_true.
    split; intros [? ?]; done.
Qed.



End claims_subscription.

(** * Facts about multi-path updates *)

Section update_facts.
Implicit Types (d : Database) (w : World) (u : obj path (option value)).

Lemma db_set_same p v d : db_set p v d !! p = v.
Proof.
  destruct v as [x|].
  - rewrite lookup_db_set_Some. by rewrite decide_True.
  - by rewrite lookup_db_set_None, under_refl.
Qed.

(** A write of nulls: what lies at or under one of its paths is gone, the
    rest stays. *)
Lemma lookup_db_update_nulls u d q :
  Forall (fun pv => snd pv = None) u →
  db_update u d !! q =
    if bool_decide (Exists (fun pv => under (fst pv) q = true) u) then None else d !! q.
Proof.
  unfold db_update. revert d. induction u as [|[p v] u IH]; intros d Hu.
  - cbn [fold_left]. by rewrite bool_decide_eq_false_2 by by intros ?%Exists_nil.
  - inversion_clear Hu as [|?? Hv Hu']. cbn [snd] in Hv. subst v.
    cbn [fold_left fst snd]. rewrite IH by done.
    rewrite lookup_db_set_None.
    destruct (under p q) eqn:Hp.
    + rewrite (bool_decide_eq_true_2 (Exists _ ((p, None) :: u))) by (left; done).
      by case_bool_decide.
    + case_bool_decide as H1; case_bool_decide as H2; try done.
      * exfalso. apply H2. by right.
      * exfalso. apply Exists_cons in H2 as [H2|H2]; [cbn in H2; congruence|done].
Qed.

Lemma update_spec rules u w :
  issued (fst (update rules u w)) = issued w ++ [CUpdate u]
  ∧ storage (fst (update rules u w)) = storage w
  ∧ (snd (update rules u w) = Fulfilled →
     database (fst (update rules u w)) = db_update u (database w))
  ∧ (snd (update rules u w) = Rejected →
     database (fst (update rules u w)) = database w).
Proof. unfold update. by destruct (forallb _ u). Qed.

Lemma update_fulfilled rules u w :
  snd (update rules u w) = Fulfilled ↔ forallb (fun pv => rules (fst pv)) u = true.
Proof. unfold update. by destruct (forallb _ u). Qed.

Lemma sorted_entries (l : obj string value) :
  StronglySorted key_lt (obj_keys l) →
  StronglySorted (fun a b => key_lt (fst a) (fst b)) l.
Proof.
  unfold obj_keys. induction l as [|kv l IH]; [constructor|].
  rewrite fmap_cons. intros [Hs Hall]%StronglySorted_inv.
  constructor; [by apply IH|].
  rewrite Forall_forall in Hall. apply Forall_forall. intros b Hb. apply Hall.
  apply list_elem_of_fmap. by exists b.
Qed.

(** Strictly sorted lists of entries with the same elements are equal. *)
Lemma sorted_obj_ext (l1 l2 : obj string value) :
  StronglySorted key_lt (obj_keys l1) → StronglySorted key_lt (obj_keys l2) →
  (∀ kv, kv ∈ l1 ↔ kv ∈ l2) → l1 = l2.
Proof.
  intros H1 H2 Hiff.
  assert (AntiSymm (=) (fun a b : string * value => key_lt (fst a) (fst b))).
  { intros a b Hab Hba. exfalso. apply (key_lt_irrefl (fst a)). by etrans. }
  apply (StronglySorted_unique (fun a b => key_lt (fst a) (fst b))).
  - by apply sorted_entries.
  - by apply sorted_entries.
  - apply NoDup_Permutation; [| |done].
    + eapply NoDup_fmap_1, sorted_keys_NoDup, H1.
    + eapply NoDup_fmap_1, sorted_keys_NoDup, H2.
Qed.

Lemma children_ext d d' (p : path) :
  (∀ k, d !! (p ++ [k]) = d' !! (p ++ [k])) → children d p = children d' p.
Proof.
  intros H. apply sorted_obj_ext; [apply children_sorted..|].
  intros [k v]. by rewrite !elem_of_children, H.
Qed.

Lemma elem_of_children_keys d (p : path) k :
  k ∈ obj_keys (children d p) ↔ is_Some (d !! (p ++ [k])).
Proof.
  unfold obj_keys. rewrite list_elem_of_fmap. split.
  - intros ([k' v] & -> & Hin). apply elem_of_children in Hin. by eexists.
  - intros [v Hv]. exists (k, v). split; [done|]. by apply elem_of_children.
Qed.

Lemma once_ref d (p : path) : once d (ref p) = children d p.
Proof.
  unfold once, ref. cbn. induction (children d p) as [|kv l IH]; [done|].
  by rewrite filter_cons_True, IH by done.
Qed.

End update_facts.

(** * Follow and unfollow *)

Section follow_facts.
Variable uid : string.
Implicit Types (d : Database) (w : World) (data : obj string value).

Lemma last_cons_default {A} (x : A) (l : list A) : default x (last l) = default x (last (x :: l)).
Proof. destruct l as [|y l]; [done|]. cbn [last]. by destruct (last (y :: l)). Qed.

Lemma follow_fold (follow : bool) data (u0 : obj path (option value)) (l0 : value) :
  NoDup (obj_keys data) →
  (∀ k, k ∈ obj_keys data → ["feed"; uid; k] ∉ obj_keys u0) →
  fold_left (fun '(updateData, lastPostId) post =>
               (obj_set ["feed"; uid; fst post] (if_follow follow (VBool true)) updateData,
                VStr (fst post)))
            data (u0, l0)
  = (u0 ++ ((fun post => (["feed"; uid; fst post], if_follow follow (VBool true))) <$> data),
     default l0 (VStr <$> last (obj_keys data))).
Proof.
  revert u0 l0. induction data as [|[k v] data IH]; intros u0 l0 Hnd Hfresh.
  - by rewrite app_nil_r.
  - unfold obj_keys in Hnd. rewrite fmap_cons in Hnd. apply NoDup_cons in Hnd as [Hk Hnd].
    cbn [fold_left fst]. rewrite obj_set_notin by (apply Hfresh; set_solver).
    rewrite IH; [|done|].
    + rewrite fmap_cons, <-app_assoc. cbn [app fst]. f_equal.
      unfold obj_keys. rewrite fmap_cons. cbn [fst].
      destruct (data.*1) as [|k' ks]; [done|]. cbn [last].
      destruct (proj2 (last_is_Some (k' :: ks))) as [x Hx]; [done|]. by rewrite Hx.
    + intros k' Hk'. rewrite obj_keys_app, elem_of_app. intros [Hin|Hin].
      * apply (Hfresh k'); [|done]. unfold obj_keys. rewrite fmap_cons. set_solver.
      * apply list_elem_of_singleton in Hin. injection Hin as ->. done.
Qed.

Lemma toggleFollowUser_updateData_eq followedUserId (follow : bool) data :
  NoDup (obj_keys data) →
  toggleFollowUser_updateData uid followedUserId follow data =
    ((fun post => (["feed"; uid; fst post], if_follow follow (VBool true))) <$> data)
    ++ [ (["people"; uid; "following"; followedUserId],
          if_follow follow (default (VBool true) (VStr <$> last (obj_keys data))));
         (["followers"; followedUserId; uid], if_follow follow (VBool true)) ].
Proof.
  intros Hnd. unfold toggleFollowUser_updateData.
  rewrite follow_fold; [|done|intros ? _ ?%elem_of_nil; done].
  cbn [app].
  set (F := (fun post => (["feed"; uid; fst post], if_follow follow (VBool true))) <$> data).
  assert (∀ p, p ∈ obj_keys F → ∃ k, p = ["feed"; uid; k]) as HF.
  { intros p. unfold obj_keys, F. rewrite <-list_fmap_compose.
    intros (post & -> & _)%list_elem_of_fmap. by eexists. }
  rewrite (obj_set_notin _ _ F).
  2:{ intros (k & Hk)%HF. done. }
  rewrite obj_set_notin.
  2:{ rewrite obj_keys_app, elem_of_app. intros [(k & Hk)%HF|Hin]; [done|].
      by apply list_elem_of_singleton in Hin. }
  by rewrite <-app_assoc.
Qed.

Lemma lookup_feed_part_frame (follow : bool) data d q :
  (∀ k, k ∈ obj_keys data → under ["feed"; uid; k] q = false) →
  db_update ((fun post => (["feed"; uid; fst post], if_follow follow (VBool true))) <$> data) d !! q
  = d !! q.
Proof.
  intros H. apply lookup_db_update_frame, Forall_fmap, Forall_forall.
  intros [k v] Hin. cbn. apply H. apply list_elem_of_fmap. by exists (k, v).
Qed.

Lemma lookup_feed_part_in (follow : bool) data d k :
  k ∈ obj_keys data →
  db_update ((fun post => (["feed"; uid; fst post], if_follow follow (VBool true))) <$> data) d
    !! ["feed"; uid; k]
  = if_follow follow (VBool true).
Proof.
  revert d. induction data as [|[k0 v0] data IH]; intros d Hk.
  - by apply elem_of_nil in Hk.
  - rewrite fmap_cons. unfold db_update. cbn [fold_left fst snd]. fold (db_update).
    destruct (decide (k ∈ obj_keys data)) as [Hin|Hnotin].
    + by apply IH.
    + unfold obj_keys in Hk. rewrite fmap_cons in Hk. cbn [fst] in Hk.
      apply elem_of_cons in Hk as [->|Hk]; [|done].
      pose proof (lookup_feed_part_frame follow data
                    (db_set ["feed"; uid; k0] (if_follow follow (VBool true)) d)
                    ["feed"; uid; k0]) as Hframe.
      unfold db_update in Hframe. rewrite Hframe; [apply db_set_same|].
      intros k Hk. destruct (under ["feed"; uid; k] ["feed"; uid; k0]) eqn:E; [|done].
      apply under_same_length in E; [|done]. by injection E as ->.
Qed.

Lemma lookup_toggle_feed followedUserId (follow : bool) data d k :
  NoDup (obj_keys data) →
  db_update (toggleFollowUser_updateData uid followedUserId follow data) d !! ["feed"; uid; k]
  = if decide (k ∈ obj_keys data) then if_follow follow (VBool true)
    else d !! ["feed"; uid; k].
Proof.
  intros Hnd. rewrite toggleFollowUser_updateData_eq, db_update_app by done.
  unfold db_update at 1. cbn [fold_left fst snd].
  rewrite !lookup_db_set_frame by done.
  case_decide as Hk; [by apply lookup_feed_part_in|].
  apply lookup_feed_part_frame. intros k' Hk'.
  destruct (under ["feed"; uid; k'] ["feed"; uid; k]) eqn:E; [|done].
  apply under_same_length in E; [|done]. by injection E as ->.
Qed.

Lemma lookup_toggle_following followedUserId (follow : bool) data d :
  NoDup (obj_keys data) →
  db_update (toggleFollowUser_updateData uid followedUserId follow data) d
    !! ["people"; uid; "following"; followedUserId]
  = if_follow follow (default (VBool true) (VStr <$> last (obj_keys data))).
Proof.
  intros Hnd. rewrite toggleFollowUser_updateData_eq, db_update_app by done.
  unfold db_update at 1. cbn [fold_left fst snd].
  rewrite lookup_db_set_frame by done. apply db_set_same.
Qed.

Lemma lookup_toggle_followers followedUserId (follow : bool) data d :
  NoDup (obj_keys data) →
  db_update (toggleFollowUser_updateData uid followedUserId follow data) d
    !! ["followers"; followedUserId; uid]
  = if_follow follow (VBool true).
Proof.
  intros Hnd. rewrite toggleFollowUser_updateData_eq, db_update_app by done.
  unfold db_update at 1. cbn [fold_left fst snd]. apply db_set_same.
Qed.

Lemma lookup_toggle_posts followedUserId (follow : bool) data d u k :
  NoDup (obj_keys data) →
  db_update (toggleFollowUser_updateData uid followedUserId follow data) d
    !! ["people"; u; "posts"; k]
  = d !! ["people"; u; "posts"; k].
Proof.
  intros Hnd. rewrite toggleFollowUser_updateData_eq, db_update_app by done.
  unfold db_update at 1. cbn [fold_left fst snd].
  rewrite lookup_db_set_frame by done.
  rewrite lookup_db_set_frame.
  2:{ unfold under. cbn. by destruct (uid =? u)%string. }
  by apply lookup_feed_part_frame.
Qed.

End follow_facts.

(** * Follow and unfollow: the fan-out *)

Section claims_follow.

Lemma toggleFollowUser_eq rules uid followedUserId follow w :
  toggleFollowUser rules uid followedUserId follow w =
    update rules (toggleFollowUser_updateData uid followedUserId follow
                    (children (database w) ["people"; followedUserId; "posts"])) w.
Proof. unfold toggleFollowUser. by rewrite once_ref. Qed.

(** C4.  When the write of [toggleFollowUser(B, true)] by [A] is fulfilled:
    it is one [update] call; the home feed of [A] holds what it held plus
    exactly the posts of [B] (so exactly the posts of [B] when it was empty);
    the cursor of [A] for [B] is the newest post id of [B]; and [A] is in the
    followers of [B].  When the following [toggleFollowUser(B, false)] is
    fulfilled: it is one [update] call, no post of [B] is left in the home
    feed of [A], and the cursor and the followers entry are gone. *)
Theorem toggleFollowUser_fan_out (rules : path → bool) (A B : string) (w : World) :
  let data := children (database w) ["people"; B; "posts"] in
  let r1 := toggleFollowUser rules A B true w in
  let r2 := toggleFollowUser rules A B false (fst r1) in
  snd r1 = Fulfilled →
  issued (fst r1) = issued w ++ [CUpdate (toggleFollowUser_updateData A B true data)]
  ∧ (∀ k, k ∈ obj_keys (children (database (fst r1)) ["feed"; A]) ↔
          k ∈ obj_keys (children (database w) ["feed"; A]) ∨ k ∈ obj_keys data)
  ∧ (children (database w) ["feed"; A] = [] →
     obj_keys (children (database (fst r1)) ["feed"; A]) = obj_keys data)
  ∧ database (fst r1) !! ["people"; A; "following"; B]
    = Some (default (VBool true) (VStr <$> last (obj_keys data)))
  ∧ database (fst r1) !! ["followers"; B; A] = Some (VBool true)
  ∧ (snd r2 = Fulfilled →
     issued (fst r2) = issued (fst r1) ++ [CUpdate (toggleFollowUser_updateData A B false data)]
     ∧ (∀ k, k ∈ obj_keys data → k ∉ obj_keys (children (database (fst r2)) ["feed"; A]))
     ∧ database (fst r2) !! ["people"; A; "following"; B] = None
     ∧ database (fst r2) !! ["followers"; B; A] = None).
Proof.
  intros data r1 r2 Hok1.
  pose proof (NoDup_children_keys (database w) ["people"; B; "posts"]) as Hnd. fold data in Hnd.
  assert (r1 = update rules (toggleFollowUser_updateData A B true data) w) as Hr1
    by apply toggleFollowUser_eq.
  destruct (update_spec rules (toggleFollowUser_updateData A B true data) w)
    as (Hlog1 & _ & Hdb1 & _).
  rewrite <-Hr1 in Hlog1, Hdb1. specialize (Hdb1 Hok1).
  assert (∀ k, k ∈ obj_keys (children (database (fst r1)) ["feed"; A]) ↔
               k ∈ obj_keys (children (database w) ["feed"; A]) ∨ k ∈ obj_keys data) as Hfeed.
  { intros k. rewrite !elem_of_children_keys, Hdb1. cbn [app].
    rewrite lookup_toggle_feed by done. case_decide; cbn [if_follow]; [|tauto].
    split; [tauto|]. intros _. by eexists. }
  split; [done|]. split; [done|]. split; [|split; [|split]].
  - intros Hempty. apply (StronglySorted_unique key_lt).
    + apply children_sorted.
    + apply children_sorted.
    + apply NoDup_Permutation; [apply NoDup_children_keys|done|].
      intros k. rewrite Hfeed, Hempty. cbn. set_solver.
  - rewrite Hdb1. by apply lookup_toggle_following.
  - rewrite Hdb1. by apply lookup_toggle_followers.
  - intros Hok2.
    assert (children (database (fst r1)) ["people"; B; "posts"] = data) as Hdata.
    { apply children_ext. intros k. rewrite Hdb1. cbn [app]. by apply lookup_toggle_posts. }
    assert (r2 = update rules (toggleFollowUser_updateData A B false data) (fst r1)) as Hr2.
    { unfold r2. by rewrite toggleFollowUser_eq, Hdata. }
    destruct (update_spec rules (toggleFollowUser_updateData A B false data) (fst r1))
      as (Hlog2 & _ & Hdb2 & _).
    rewrite <-Hr2 in Hlog2, Hdb2. specialize (Hdb2 Hok2).
    split; [done|]. split; [|split].
    + intros k Hk. rewrite elem_of_children_keys, Hdb2. cbn [app].
      rewrite lookup_toggle_feed by done. rewrite decide_True by done.
      cbn. by intros [? ?].
    + rewrite Hdb2. by apply lookup_toggle_following.
    + rewrite Hdb2. by apply lookup_toggle_followers.
Qed.


(** The scenario of the property: [B] has the posts [p1], [p2], [p3], and [A]
    follows then unfollows [B]. *)
Lemma toggleFollowUser_fan_out_witness :
  let r1 := toggleFollowUser (fun _ => true) "A" "B" true w_social in
  let r2 := toggleFollowUser (fun _ => true) "A" "B" false (fst r1) in
  snd r1 = Fulfilled
  ∧ obj_keys (children (database (fst r1)) ["feed"; "A"]) = ["p1"; "p2"; "p3"]
  ∧ database (fst r1) !! ["people"; "A"; "following"; "B"] = Some (VStr "p3")
  ∧ database (fst r1) !! ["followers"; "B"; "A"] = Some (VBool true)
  ∧ (∀ k, k ∈ ["p1"; "p2"; "p3"] → k ∉ obj_keys (children (database (fst r2)) ["feed"; "A"]))
  ∧ database (fst r2) !! ["people"; "A"; "following"; "B"] = None
  ∧ database (fst r2) !! ["followers"; "B"; "A"] = None.
Proof.
  intros r1 r2.
  assert (snd r1 = Fulfilled) as Hok1 by (vm_compute; reflexivity).
  assert (snd r2 = Fulfilled) as Hok2 by (vm_compute; reflexivity).
  destruct (toggleFollowUser_fan_out (fun _ => true) "A" "B" w_social Hok1)
    as (_ & _ & Hexact & Hcursor & Hfollowers & Hun).
  destruct (Hun Hok2) as (_ & Hnone & Hcursor2 & Hfollowers2).
  split; [exact Hok1|].
  split; [exact (Hexact eq_refl)|].
  split; [exact Hcursor|].
  split; [exact Hfollowers|].
  split; [exact Hnone|].
  split; [exact Hcursor2|exact Hfollowers2].
Defined.

End claims_follow.

(** * Home feed updaters *)

Section claims_home_feed.
Implicit Types (w : World) (d : Database).

(** A value read from the database never passes [instanceof String], so
    the reference is never restricted. *)
Lemma followedUserPostsRef_unanchored followedUid (v : value) :
  followedUserPostsRef followedUid (val (Some v)) = ref ["people"; followedUid; "posts"].
Proof. by destruct v. Qed.

Lemma in_range_ref (p : path) k : in_range (ref p) k = true.
Proof. done. Qed.

Lemma home_feed_updates_nil uid followedUid postId :
  home_feed_updates uid followedUid postId [] =
    [ (["feed"; uid; postId], Some (VBool true));
      (["people"; uid; "following"; followedUid], Some (VStr postId)) ].
Proof. unfold home_feed_updates. cbn [obj_set]. by rewrite decide_False by done. Qed.

Lemma db_update_two_idem (p1 p2 : path) (x1 x2 : value) d :
  db_update [(p1, Some x1); (p2, Some x2)] (db_update [(p1, Some x1); (p2, Some x2)] d)
  = db_update [(p1, Some x1); (p2, Some x2)] d.
Proof.
  apply map_eq. intros q. unfold db_update. cbn [fold_left fst snd].
  rewrite !lookup_db_set_Some.
  repeat case_decide; try done; by repeat destruct (under _ q).
Qed.

Lemma filter_eq_NoDup (l : list string) (x : string) :
  NoDup l → x ∈ l → filter (fun y => y = x) l = [x].
Proof.
  induction 1 as [|y l Hy Hl IH]; [by intros ?%elem_of_nil|].
  intros [->|Hin]%elem_of_cons.
  - rewrite filter_cons_True by done. f_equal.
    clear IH Hl. induction l as [|z l IH]; [done|].
    apply not_elem_of_cons in Hy as [? ?].
    rewrite filter_cons_False by done. by apply IH.
  - rewrite filter_cons_False by (intros ->; done). by apply IH.
Qed.

(** C5.  Delivering the same inserted post id twice to the write path of the
    home-feed live updater leaves the database as delivering it once does;
    when the id is not the stored cursor and the write is accepted, the home
    feed then holds exactly one entry for that id. *)
Theorem home_feed_redelivery_idempotent (rules : path → bool) (uid followedUid : string)
    (followingData : value) (postKey : string) (w : World) :
  let deliver := startHomeFeedLiveUpdaters_insert rules uid followedUid followingData postKey in
  database (deliver (deliver w)) = database (deliver w)
  ∧ (key_strict_neq postKey (val (Some followingData)) = true →
     rules ["feed"; uid; postKey] = true →
     rules ["people"; uid; "following"; followedUid] = true →
     database (deliver (deliver w)) !! ["feed"; uid; postKey] = Some (VBool true)
     ∧ filter (fun k => k = postKey)
              (obj_keys (children (database (deliver (deliver w))) ["feed"; uid]))
       = [postKey]).
Proof.
  intros deliver.
  assert (∀ w0, deliver w0 = home_feed_listener rules uid followedUid followingData postKey w0)
    as Hdeliver.
  { intros w0. unfold deliver, startHomeFeedLiveUpdaters_insert.
    by rewrite followedUserPostsRef_unanchored, in_range_ref. }
  assert (∀ w0, database (deliver w0) =
                if key_strict_neq postKey (val (Some followingData))
                   && rules ["feed"; uid; postKey]
                   && rules ["people"; uid; "following"; followedUid]
                then db_update (home_feed_updates uid followedUid postKey []) (database w0)
                else database w0) as Hdb.
  { intros w0. rewrite Hdeliver. unfold home_feed_listener.
    destruct (key_strict_neq _ _); [|done].
    unfold update. rewrite home_feed_updates_nil. cbn [forallb fst].
    rewrite andb_true_r.
    by destruct (rules ["feed"; uid; postKey]),
                (rules ["people"; uid; "following"; followedUid]). }
  split.
  - rewrite !Hdb. destruct (_ && _ && _); [|done].
    rewrite home_feed_updates_nil. apply db_update_two_idem.
  - intros Hne Hr1 Hr2. rewrite !Hdb, Hne, Hr1, Hr2. cbn [andb].
    rewrite home_feed_updates_nil, db_update_two_idem.
    assert (db_update [ (["feed"; uid; postKey], Some (VBool true));
                        (["people"; uid; "following"; followedUid], Some (VStr postKey)) ]
                      (database w) !! ["feed"; uid; postKey] = Some (VBool true)) as Hin.
    { unfold db_update. cbn [fold_left fst snd].
      rewrite lookup_db_set_frame by done. apply db_set_same. }
    split; [done|].
    apply filter_eq_NoDup; [apply NoDup_children_keys|].
    apply elem_of_children_keys. cbn [app]. by rewrite Hin.
Qed.

(** A new post [p4] of [B] delivered twice to the updater of [A]. *)
Lemma home_feed_redelivery_idempotent_witness :
  let deliver :=
    startHomeFeedLiveUpdaters_insert (fun _ => true) "A" "B" (VStr "p3") "p4" in
  database (deliver (deliver w_following)) = database (deliver w_following)
  ∧ database (deliver (deliver w_following)) !! ["feed"; "A"; "p4"] = Some (VBool true)
  ∧ filter (fun k => k = "p4")
           (obj_keys (children (database (deliver (deliver w_following))) ["feed"; "A"]))
    = ["p4"].
Proof.
  intros deliver.
  destruct (home_feed_redelivery_idempotent (fun _ => true) "A" "B" (VStr "p3") "p4" w_following)
    as [Hidem Hone].
  split; [exact Hidem|]. exact (Hone eq_refl eq_refl eq_refl).
Defined.

(** C3, the code at the failing input.  [A] follows [B], whose posts are
    [p1], [p2], [p3]; the stored cursor is [p3].  The reference the updaters
    listen on is not restricted to start at the cursor, the first write of the
    live updater sets the cursor to [p1], and both [startHomeFeedLiveUpdaters]
    and [updateHomeFeeds] leave the cursor at [p2], older than [p3]. *)
Lemma home_feed_cursor_rewound :
  let cursor := ["people"; "A"; "following"; "B"] in
  obj_keys (children (database w_following) ["people"; "B"; "posts"]) = ["p1"; "p2"; "p3"]
  ∧ database w_following !! cursor = Some (VStr "p3")
  ∧ followedUserPostsRef "B" (val (database w_following !! cursor))
    = ref ["people"; "B"; "posts"]
  ∧ database (home_feed_listener (fun _ => true) "A" "B" (VStr "p3") "p1" w_following) !! cursor
    = Some (VStr "p1")
  ∧ database (startHomeFeedLiveUpdaters (fun _ => true) "A" w_following) !! cursor
    = Some (VStr "p2")
  ∧ database (fst (updateHomeFeeds (fun _ => true) "A" w_following)) !! cursor
    = Some (VStr "p2")
  ∧ key_lt "p1" "p3" ∧ key_lt "p2" "p3".
Proof. by vm_compute. Qed.

End claims_home_feed.

(** * Deleting a post *)

Section claims_deletePost.
Implicit Types (w : World) (d : Database).

Lemma deletePost_updateObj_eq uid postId :
  deletePost_updateObj uid postId =
    [ (["people"; uid; "posts"; postId], None);
      (["comments"; postId], None);
      (["likes"; postId], None);
      (["posts"; postId], None);
      (["feed"; uid; postId], None) ].
Proof.
  unfold deletePost_updateObj. cbn [obj_set].
  repeat (rewrite decide_False by done; cbn [obj_set]). done.
Qed.

Lemma storage_delete_spec uri w :
  database (fst (storage_delete uri w)) = database w
  ∧ issued (fst (storage_delete uri w)) = issued w ++ [CStorageDelete uri]
  ∧ storage (fst (storage_delete uri w)) = storage w ∖ {[uri]}
  ∧ (snd (storage_delete uri w) = Fulfilled ↔ uri ∈ storage w).
Proof.
  unfold storage_delete. cbn [log storage database issued].
  destruct (decide (uri ∈ storage w)) as [Hin|Hnotin]; cbn.
  - done.
  - repeat split; try done. set_solver.
Qed.

Lemma Promise_all_Fulfilled (l : list completion) :
  Promise_all l = Fulfilled ↔ Forall (fun c => c = Fulfilled) l.
Proof.
  unfold Promise_all. induction l as [|c l IH]; [done|].
  rewrite Forall_cons. cbn [forallb]. destruct c; cbn [andb].
  - rewrite IH. tauto.
  - split; [done|]. by intros [? _].
Qed.

(** [deletePost] with a picture given, call by call. *)
Lemma deletePost_pic rules uid postId pic thumb w :
  pic ≠ "" →
  let w1 := fst (update rules (deletePost_updateObj uid postId) w) in
  let w2 := fst (storage_delete pic w1) in
  deletePost rules uid postId (Some pic) thumb w =
    (fst (storage_delete thumb w2),
     Promise_all [ snd (update rules (deletePost_updateObj uid postId) w);
                   snd (storage_delete pic w1);
                   snd (storage_delete thumb w2) ]).
Proof.
  intros Hpic w1 w2. unfold deletePost.
  destruct (update rules (deletePost_updateObj uid postId) w) as [w1' c1] eqn:E1.
  cbn [js_of_id truthy string_of].
  apply String.eqb_neq in Hpic. rewrite Hpic. cbn [negb].
  subst w1 w2. cbn [fst snd].
  destruct (storage_delete pic w1') as [w2' c2] eqn:E2. cbn [fst snd].
  by destruct (storage_delete thumb w2') as [w3' c3] eqn:E3.
Qed.

(** C6, as amended.  [deletePost] sends one multi-path [update] of the five
    paths, all set to null, and whatever [picStorageUri] is, the blob deletions
    never change the database: it is the one the write leaves, which when the
    write is fulfilled is the one the multi-path delete leaves.  With a picture
    URI given, the two blob deletions follow the write and the completion
    returned is [Promise.all] of the three: it is fulfilled exactly when the
    write and both blob deletions are, so a failed blob deletion makes the
    call fail.  With no picture URI (null, undefined or the empty string)
    nothing but the write is sent and what is returned is the write's own
    completion. *)
Theorem deletePost_blob_failure (rules : path → bool) (uid postId : string)
    (picStorageUri : option string) (thumb : string) (w : World) :
  let r := deletePost rules uid postId picStorageUri thumb w in
  let written := update rules (deletePost_updateObj uid postId) w in
  deletePost_updateObj uid postId =
    [ (["people"; uid; "posts"; postId], None);
      (["comments"; postId], None);
      (["likes"; postId], None);
      (["posts"; postId], None);
      (["feed"; uid; postId], None) ]
  ∧ database (fst r) = database (fst written)
  ∧ (snd written = Fulfilled →
     database (fst r) = db_update (deletePost_updateObj uid postId) (database w))
  ∧ (∀ pic, picStorageUri = Some pic → pic ≠ "" →
       issued (fst r) = issued w ++ [ CUpdate (deletePost_updateObj uid postId);
                                      CStorageDelete pic; CStorageDelete thumb ]
       ∧ (snd r = Fulfilled ↔
          snd written = Fulfilled ∧ pic ∈ storage w ∧ thumb ∈ storage w ∖ {[pic]})
       ∧ (pic ∉ storage w ∨ thumb ∉ storage w → snd r = Rejected))
  ∧ (picStorageUri = None ∨ picStorageUri = Some "" →
       r = written
       ∧ issued (fst r) = issued w ++ [ CUpdate (deletePost_updateObj uid postId) ]
       ∧ storage (fst r) = storage w).
Proof.
  intros r written.
  destruct (update_spec rules (deletePost_updateObj uid postId) w) as (Hi1 & Hs1 & Hd1 & _).
  fold written in Hi1, Hs1, Hd1.
  assert (database (fst r) = database (fst written)) as Hdb.
  { unfold r, written, deletePost.
    destruct (update rules (deletePost_updateObj uid postId) w) as [w1 c1].
    destruct (truthy (js_of_id picStorageUri)); [|done].
    destruct (storage_delete_spec (string_of (js_of_id picStorageUri)) w1) as (H2 & _).
    destruct (storage_delete (string_of (js_of_id picStorageUri)) w1) as [w2 c2].
    destruct (storage_delete_spec thumb w2) as (H3 & _).
    destruct (storage_delete thumb w2) as [w3 c3]. cbn [fst] in *. congruence. }
  split; [apply deletePost_updateObj_eq|]. split; [done|].
  split; [intros Hok; by rewrite Hdb, Hd1|]. split.
  - intros pic -> Hpic. unfold r. rewrite deletePost_pic by done. cbn [fst snd].
    fold written.
    destruct (storage_delete_spec pic (fst written)) as (Hd2 & Hi2 & Hs2 & Hc2).
    destruct (storage_delete_spec thumb (fst (storage_delete pic (fst written))))
      as (Hd3 & Hi3 & Hs3 & Hc3).
    assert (Promise_all [ snd written; snd (storage_delete pic (fst written));
                snd (storage_delete thumb (fst (storage_delete pic (fst written)))) ] = Fulfilled
            ↔ snd written = Fulfilled ∧ pic ∈ storage w ∧ thumb ∈ storage w ∖ {[pic]}) as Hall.
    { rewrite Promise_all_Fulfilled, !Forall_cons, Hc2, Hc3, Hs2, Hs1.
      split; [intros (? & ? & ? & _); done|intros (? & ? & ?); done]. }
    split; [by rewrite Hi3, Hi2, Hi1, <-!app_assoc|].
    split; [done|].
    intros Hmissing.
    destruct (Promise_all _); [|done].
    destruct (proj1 Hall eq_refl) as (_ & Hp & Ht). exfalso.
    destruct Hmissing as [Hm|Hm]; [done|].
    apply Hm. by apply elem_of_difference in Ht as [? _].
  - intros Hnone.
    assert (r = written) as Hr.
    { unfold r, written, deletePost.
      destruct (update rules (deletePost_updateObj uid postId) w) as [w1 c1].
      by destruct Hnone as [-> | ->]. }
    split; [done|]. by rewrite Hr.
Qed.

(** The post [p1] deleted while its picture is missing from storage; and
    deleted with no picture URI. *)
Lemma deletePost_blob_failure_witness :
  let r := deletePost (fun _ => true) "A" "p1" (Some "gs://b/A/full/p1/a.jpg")
                      "gs://b/A/thumb/p1/a.jpg" w_post in
  let r0 := deletePost (fun _ => true) "A" "p1" None "" w_post in
  database (fst r) = db_update (deletePost_updateObj "A" "p1") (database w_post)
  ∧ snd r = Rejected
  ∧ r0 = update (fun _ => true) (deletePost_updateObj "A" "p1") w_post
  ∧ snd r0 = Fulfilled.
Proof.
  intros r r0.
  destruct (deletePost_blob_failure (fun _ => true) "A" "p1" (Some "gs://b/A/full/p1/a.jpg")
              "gs://b/A/thumb/p1/a.jpg" w_post) as (_ & _ & Hdb & Hpic & _).
  destruct (deletePost_blob_failure (fun _ => true) "A" "p1" None "" w_post)
    as (_ & _ & _ & _ & Hnone).
  destruct (Hpic "gs://b/A/full/p1/a.jpg" eq_refl ltac:(discriminate)) as (_ & _ & Hrej).
  destruct (Hnone (or_introl eq_refl)) as (Hr0 & _).
  split; [exact (Hdb eq_refl)|]. split.
  - apply Hrej. left. apply (bool_decide_unpack _). vm_compute. exact I.
  - split; [exact Hr0|]. subst r0. rewrite Hr0. reflexivity.
Defined.

(** C6, counterexample.  The database write is fulfilled and the post record
    is gone, the picture is not in storage, and the completion returned by
    [deletePost] is rejected. *)
Lemma deletePost_fails_on_blob_failure :
  let r := deletePost (fun _ => true) "A" "p1" (Some "gs://b/A/full/p1/a.jpg")
                      "gs://b/A/thumb/p1/a.jpg" w_post in
  snd (update (fun _ => true) (deletePost_updateObj "A" "p1") w_post) = Fulfilled
  ∧ database (fst r) !! ["posts"; "p1"] = None
  ∧ snd r = Rejected.
Proof. by vm_compute. Qed.


Lemma database_deletePost rules uid postId pic thumb w :
  database (fst (deletePost rules uid postId pic thumb w)) =
    database (fst (update rules (deletePost_updateObj uid postId) w)).
Proof.
  unfold deletePost.
  destruct (update rules (deletePost_updateObj uid postId) w) as [w1 c1].
  destruct (truthy (js_of_id pic)); [|done].
  destruct (storage_delete (string_of (js_of_id pic)) w1) as [w2 c2] eqn:E2.
  destruct (storage_delete thumb w2) as [w3 c3] eqn:E3. cbn [fst].
  destruct (storage_delete_spec thumb w2) as (H3 & _).
  destruct (storage_delete_spec (string_of (js_of_id pic)) w1) as (H2 & _).
  rewrite E3 in H3. rewrite E2 in H2. cbn [fst] in H2, H3. congruence.
Qed.

(** The repair made by [_getPaginatedFeed] removes a dangling entry that is
    on the page it fetches. *)
Lemma paginate_repairs rules uri (N : nat) b fuel w k w' pg :
  (∀ k', rules (uri ++ [k']) = true) →
  dangling w k = true →
  k ∈ obj_keys (last_n N (remaining (database w) uri b)) →
  _getPaginatedFeed rules fuel uri N b true w = Some (w', pg) →
  database w' !! (uri ++ [k]) = None ∧ k ∉ obj_keys (entries pg).
Proof.
  intros Hacc Hd Hk. destruct fuel as [|fuel]; [done|].
  rewrite paginate_unfold.
  assert (k ∈ dangling_ids w (obj_keys (last_n N (remaining (database w) uri b)))) as Hin.
  { unfold dangling_ids. by apply list_elem_of_filter. }
  rewrite decide_False by (intros Hnil; rewrite Hnil in Hin; by apply elem_of_nil in Hin).
  intros Hret.
  destruct (paginate_returns _ _ _ _ _ _ _ _ _ Hret) as (_ & Hkeys & _ & _ & Hsub).
  assert (database w' !! (uri ++ [k]) = None) as Hnone.
  { eapply lookup_weaken_None; [|exact Hsub]. by apply lookup_repair_removed. }
  split; [done|].
  rewrite Hkeys. intros Hk'%keys_last_n_subseteq.
  apply list_elem_of_fmap in Hk' as ([k' v] & -> & Hkv).
  apply elem_of_remaining in Hkv as [Hkv _]. cbn [fst] in Hnone. congruence.
Qed.

(** C9.  [deletePost] sends one multi-path write whose object names exactly
    five paths, all set to null: the post in the user's own post list, the
    comments of the post, its likes, the post record and the post in the user's
    own home feed.  The write is accepted exactly when the rules accept the five
    paths; then everything at or under each of the five is gone from the
    database, and when it is refused the database is unchanged.  In either case
    every path that is not at or under one of the five keeps its value, so the
    entry of the post in another user's home feed and in a hashtag feed stay.
    Such a stale entry is removed by a later [_getPaginatedFeed] with
    [fetchPostDetails] on that feed: when the entry is on the page fetched and
    the corrective delete is accepted, the entry is gone from the feed and
    from the page once the call returns. *)
Theorem deletePost_frame (rules : path → bool) (uid postId : string)
    (pic : option string) (thumb : string) (w : World) :
  let r := deletePost rules uid postId pic thumb w in
  let five := [ ["people"; uid; "posts"; postId];
                ["comments"; postId];
                ["likes"; postId];
                ["posts"; postId];
                ["feed"; uid; postId] ] in
  deletePost_updateObj uid postId =
    [ (["people"; uid; "posts"; postId], None);
      (["comments"; postId], None);
      (["likes"; postId], None);
      (["posts"; postId], None);
      (["feed"; uid; postId], None) ]
  ∧ issued (fst r) =
      issued w ++ CUpdate (deletePost_updateObj uid postId)
        :: (if truthy (js_of_id pic)
            then [CStorageDelete (string_of (js_of_id pic)); CStorageDelete thumb]
            else [])
  ∧ (forallb rules five = true →
       ∀ p q, p ∈ five → under p q = true → database (fst r) !! q = None)
  ∧ (forallb rules five = false → database (fst r) = database w)
  ∧ (∀ q, (∀ p, p ∈ five → under p q = false) →
          database (fst r) !! q = database w !! q)
  ∧ (∀ q, Forall (fun pv => under (fst pv) q = false) (deletePost_updateObj uid postId) →
          database (fst r) !! q = database w !! q)
  ∧ (∀ other, other ≠ uid →
       database (fst r) !! ["feed"; other; postId] = database w !! ["feed"; other; postId])
  ∧ (∀ hashtag,
       database (fst r) !! ["hashtags"; hashtag; postId]
       = database w !! ["hashtags"; hashtag; postId])
  ∧ (∀ uri (N : nat) b fuel w' pg,
       (∀ k, rules (uri ++ [k]) = true) →
       getPostData (fst r) postId = None →
       postId ∈ obj_keys (last_n N (remaining (database (fst r)) uri b)) →
       _getPaginatedFeed rules fuel uri N b true (fst r) = Some (w', pg) →
       database w' !! (uri ++ [postId]) = None ∧ postId ∉ obj_keys (entries pg)).
Proof.
  intros r five.
  pose proof (deletePost_updateObj_eq uid postId) as Hobj.
  assert (forallb (fun pv => rules (fst pv)) (deletePost_updateObj uid postId)
          = forallb rules five) as Hrules by (by rewrite Hobj).
  destruct (update_spec rules (deletePost_updateObj uid postId) w) as (Hlog & _ & Hok & Hrej).
  pose proof (update_fulfilled rules (deletePost_updateObj uid postId) w) as Hful.
  rewrite Hrules in Hful.
  assert (∀ q, Forall (fun pv => under (fst pv) q = false) (deletePost_updateObj uid postId) →
               database (fst r) !! q = database w !! q) as Hframe.
  { intros q Hq. unfold r. rewrite database_deletePost.
    destruct (snd (update rules (deletePost_updateObj uid postId) w)).
    - rewrite Hok by done. by apply lookup_db_update_frame.
    - by rewrite Hrej. }
  split; [done|]. split; [|split; [|split; [|split; [|split; [done|split; [|split]]]]]].
  - unfold r, deletePost.
    destruct (update rules (deletePost_updateObj uid postId) w) as [w1 c1]. cbn [fst] in Hlog.
    destruct (truthy (js_of_id pic)); [|done].
    destruct (storage_delete_spec (string_of (js_of_id pic)) w1) as (_ & H2 & _).
    destruct (storage_delete (string_of (js_of_id pic)) w1) as [w2 c2].
    destruct (storage_delete_spec thumb w2) as (_ & H3 & _).
    destruct (storage_delete thumb w2) as [w3 c3]. cbn [fst] in *.
    by rewrite H3, H2, Hlog, <-!app_assoc.
  - intros Hacc p0 q Hp0 Hq. unfold r. rewrite database_deletePost.
    rewrite Hok by (by apply Hful). rewrite lookup_db_update_nulls.
    + rewrite bool_decide_eq_true_2; [done|]. apply Exists_exists.
      exists (p0, None). split; [|done]. rewrite Hobj.
      apply (list_elem_of_fmap_2 (fun p => (p, @None value))) in Hp0. exact Hp0.
    + rewrite Hobj. repeat constructor.
  - intros Href. unfold r. rewrite database_deletePost. apply Hrej.
    destruct (snd (update rules (deletePost_updateObj uid postId) w)); [|done].
    rewrite (proj1 Hful eq_refl) in Href. done.
  - intros q Hq. apply Hframe. rewrite Hobj.
    repeat constructor; cbn [fst]; apply Hq; apply list_elem_of_In; cbn; auto 10.
  - intros other Hne. apply Hframe. rewrite Hobj.
    repeat constructor; try done. unfold under. cbn.
    destruct (String.eqb_spec uid other); [done|]. done.
  - intros hashtag. apply Hframe. rewrite Hobj.
    repeat constructor; done.
  - intros uri N b fuel w' pg Hacc Hgone Hin Hret.
    eapply paginate_repairs; [done| |done|done].
    unfold dangling. by rewrite Hgone.
Qed.


(** The post [p1] deleted by its author [A]: the post record and its
    comments are gone, the entries in the home feed of [C] and under the
    hashtag stay, and paging the home feed of [C] removes the stale entry. *)
Lemma deletePost_frame_witness :
  let r := deletePost (fun _ => true) "A" "p1" None "" w_post in
  database (fst r) !! ["posts"; "p1"] = None
  ∧ database (fst r) !! ["comments"; "p1"; "c1"] = None
  ∧ database (fst r) !! ["feed"; "C"; "p1"] = Some (VBool true)
  ∧ database (fst r) !! ["hashtags"; "cats"; "p1"] = Some (VBool true)
  ∧ ∃ w' pg,
      _getPaginatedFeed (fun _ => true) 2 ["feed"; "C"] 3 None true (fst r) = Some (w', pg)
      ∧ database w' !! ["feed"; "C"; "p1"] = None
      ∧ "p1" ∉ obj_keys (entries pg).
Proof.
  intros r.
  destruct (deletePost_frame (fun _ => true) "A" "p1" None "" w_post)
    as (_ & _ & Hgone & _ & _ & _ & Hfeed & Htag & Hrepair).
  split; [apply (Hgone eq_refl ["posts"; "p1"]); [apply list_elem_of_In; cbn; auto 10|reflexivity]|].
  split; [apply (Hgone eq_refl ["comments"; "p1"]); [apply list_elem_of_In; cbn; auto 10|reflexivity]|].
  split; [exact (Hfeed "C" ltac:(discriminate))|].
  split; [exact (Htag "cats")|].
  destruct (_getPaginatedFeed (fun _ => true) 2 ["feed"; "C"] 3 None true (fst r))
    as [[w' pg]|] eqn:Hret; [|by vm_compute in Hret].
  exists w', pg. split; [reflexivity|].
  apply (Hrepair ["feed"; "C"] 3 None 2 w' pg); [reflexivity|reflexivity| |exact Hret].
  apply (bool_decide_unpack _). vm_compute. exact I.
Defined.

End claims_deletePost.

(** * The feed view *)

Section claims_feed_view.
Variable markup : string → list string.
Implicit Types (f : Feed) (ks : list string).

Lemma showNewPosts_fold ks f :
  let f' := fold_left (showNewPosts_step markup) ks f in
  feedImageContainer f' = (new_Post markup <$> reverse ks) ++ feedImageContainer f
  ∧ newPosts f' = newPosts f
  ∧ newPostsButton f' = newPostsButton f
  ∧ posts f' = posts f ++ ks.
Proof.
  revert f. induction ks as [|k ks IH]; intros f.
  - cbn. by rewrite app_nil_r.
  - cbn [fold_left]. destruct (IH (showNewPosts_step markup f k)) as (H1 & H2 & H3 & H4).
    cbn zeta. rewrite H1, H2, H3, H4. cbn [showNewPosts_step feedImageContainer newPosts
      newPostsButton posts].
    rewrite reverse_cons, fmap_app, <-!app_assoc. done.
Qed.

Lemma displayed_new_Posts ks : el_post <$> (new_Post markup <$> ks) = ks.
Proof. induction ks as [|k ks IH]; [done|]. csimpl. by rewrite IH. Qed.

(** C7.  [addNewPost(postId, ..)] twice then [showNewPosts()]: the second
    insert overwrites the buffered entry and adds no key; [showNewPosts]
    empties the buffer and hides its button, and puts the buffered ids above
    what was displayed, the last drained topmost.  From an empty buffer the
    display is [postId] followed by what was displayed: displayed
    [p3, p2, p1] becomes [p4, p3, p2, p1]. *)
Theorem showNewPosts_reveals_once (f : Feed) (postId : string) (v v' : value) :
  let pending := addNewPost postId v' (addNewPost postId v f) in
  let f' := showNewPosts markup pending in
  newPosts pending = obj_set postId v' (newPosts f)
  ∧ obj_keys (newPosts pending) = obj_keys (newPosts (addNewPost postId v f))
  ∧ newPosts f' = []
  ∧ btn_shown (newPostsButton f') = false
  ∧ displayed f' = reverse (obj_keys (newPosts pending)) ++ displayed f
  ∧ (newPosts f = [] → displayed f' = postId :: displayed f).
Proof.
  intros pending f'.
  assert (newPosts pending = obj_set postId v' (newPosts f)) as Hp.
  { unfold pending, addNewPost. cbn [newPosts]. apply obj_set_set. }
  assert (displayed f' = reverse (obj_keys (newPosts pending)) ++ displayed f) as Hd.
  { unfold f', showNewPosts, displayed.
    match goal with |- context [fold_left _ ?ks ?f0] =>
      destruct (showNewPosts_fold ks f0) as (-> & _) end.
    cbn [feedImageContainer]. rewrite fmap_app.
    change (map el_post ?l) with (el_post <$> l).
    by rewrite displayed_new_Posts. }
  split; [done|]. split.
  { rewrite Hp. unfold addNewPost. cbn [newPosts].
    destruct (decide (postId ∈ obj_keys (newPosts f))).
    - by rewrite !obj_keys_set_in.
    - by rewrite !obj_keys_set_notin. }
  split.
  { unfold f', showNewPosts.
    match goal with |- context [fold_left _ ?ks ?f0] =>
      destruct (showNewPosts_fold ks f0) as (_ & -> & _) end. done. }
  split.
  { unfold f', showNewPosts.
    match goal with |- context [fold_left _ ?ks ?f0] =>
      destruct (showNewPosts_fold ks f0) as (_ & _ & -> & _) end. done. }
  split; [done|].
  intros Hempty. rewrite Hd, Hp, Hempty. done.
Qed.

End claims_feed_view.

(** The scenario of the property: [p3, p2, p1] on display, [p4] inserted
    twice, then revealed. *)
Lemma showNewPosts_reveals_once_witness :
  let markup := fun _ : string => ["fp-post"] in
  let f := feed_shown markup ["p3"; "p2"; "p1"] in
  displayed f = ["p3"; "p2"; "p1"]
  ∧ newPosts f = []
  ∧ displayed (showNewPosts markup
                 (addNewPost "p4" (VStr "again") (addNewPost "p4" (VStr "first") f)))
    = ["p4"; "p3"; "p2"; "p1"].
Proof.
  intros markup f. split; [reflexivity|]. split; [reflexivity|].
  destruct (showNewPosts_reveals_once markup f "p4" (VStr "first") (VStr "again"))
    as (_ & _ & _ & _ & _ & Hshown).
  exact (Hshown eq_refl).
Defined.
Section claims_addPosts.
Variable markup : string → list string.
Implicit Types (f : Feed) (ks : list string) (e : Element).

Lemma post_class_inj k k' : post_class k = post_class k' → k = k'.
Proof. unfold post_class. apply String.app_inj. Qed.

Lemma hasClass_addClass c c' e :
  hasClass c (addClass c' e) = hasClass c e || bool_decide (c = c').
Proof.
  unfold addClass. destruct (hasClass c' e) eqn:Hc'.
  - case_bool_decide as Hcc; [|by rewrite orb_false_r]. subst c'.
    by rewrite Hc'.
  - unfold hasClass. cbn [el_class].
    rewrite <-bool_decide_or. apply bool_decide_ext.
    by rewrite elem_of_app, list_elem_of_singleton.
Qed.

Lemma el_post_addClass c e : el_post (addClass c e) = el_post e.
Proof. unfold addClass. by destruct (hasClass c e). Qed.

(** The element appended by [addPosts] for an id not yet on display. *)
Local Abbreviation shown k := (addClass (post_class k) (new_Post markup k)).

Section plain_markup.
(** The markup of a post carries no other post's id class. *)
Hypothesis plain : ∀ k k', post_class k ∈ markup k' → k = k'.

Lemma hasClass_new_Post k k' : k ≠ k' → hasClass (post_class k) (new_Post markup k') = false.
Proof.
  intros Hne. unfold hasClass, new_Post. cbn [el_class].
  apply bool_decide_eq_false. intros ?%plain. done.
Qed.

Lemma hasClass_shown k k' : k ≠ k' → hasClass (post_class k) (shown k') = false.
Proof.
  intros Hne. rewrite hasClass_addClass, hasClass_new_Post by done.
  apply bool_decide_eq_false. intros ?%post_class_inj. done.
Qed.

Lemma hasClass_shown_same k : hasClass (post_class k) (shown k) = true.
Proof. rewrite hasClass_addClass. rewrite bool_decide_eq_true_2 by done. apply orb_true_r. Qed.

Lemma addPosts_first ks f :
  NoDup ks →
  (∀ k e, k ∈ ks → e ∈ feedImageContainer f → hasClass (post_class k) e = false) →
  feedImageContainer (fold_left (addPosts_step markup) ks f)
  = feedImageContainer f ++ ((fun k => shown k) <$> ks).
Proof.
  revert f. induction ks as [|k ks IH]; intros f Hnd Hfresh.
  - cbn. by rewrite app_nil_r.
  - apply NoDup_cons in Hnd as [Hk Hnd]. cbn [fold_left].
    assert (feedImageContainer (addPosts_step markup f k) = feedImageContainer f ++ [shown k])
      as Hstep.
    { unfold addPosts_step. cbn [feedImageContainer].
      rewrite decide_False; [done|].
      assert (filter (fun x => hasClass (post_class k) x = true) (feedImageContainer f) = [])
        as ->; [|cbn; lia].
      induction (feedImageContainer f) as [|e l IHl]; [done|].
      rewrite filter_cons_False.
      - apply IHl. intros k' e' ? ?. apply Hfresh; [done|]. by right.
      - rewrite (Hfresh k e); [done|by left|by left]. }
    rewrite IH, Hstep; [by rewrite fmap_cons, <-app_assoc|done|].
    intros k' e Hk' He. rewrite Hstep in He. apply elem_of_app in He as [He|He].
    + apply Hfresh; [by right|done].
    + apply list_elem_of_singleton in He as ->. apply hasClass_shown. by intros ->.
Qed.

Lemma replaceWith_other c e' (l : list Element) :
  (∀ e, e ∈ l → hasClass c e = false) → replaceWith c e' l = l.
Proof.
  intros H. unfold replaceWith. induction l as [|e l IH]; [done|].
  cbn [map]. rewrite (H e) by by left. f_equal. apply IH. intros ? ?. apply H. by right.
Qed.

Lemma addPosts_again ks f (pre : list Element) :
  NoDup ks →
  feedImageContainer f = pre ++ ((fun k => shown k) <$> ks) →
  (∀ k e, k ∈ ks → e ∈ pre → hasClass (post_class k) e = false) →
  feedImageContainer (fold_left (addPosts_step markup) ks f)
  = pre ++ (new_Post markup <$> ks).
Proof.
  revert f pre. induction ks as [|k ks IH]; intros f pre Hnd Hf Hpre.
  - cbn. by rewrite Hf.
  - apply NoDup_cons in Hnd as [Hk Hnd]. cbn [fold_left].
    rewrite fmap_cons in Hf.
    assert (feedImageContainer (addPosts_step markup f k)
            = (pre ++ [new_Post markup k]) ++ ((fun k => shown k) <$> ks)) as Hstep.
    { unfold addPosts_step. cbn [feedImageContainer]. rewrite Hf.
      rewrite decide_True.
      2:{ rewrite filter_app, filter_cons_True by apply hasClass_shown_same.
          rewrite length_app. cbn. lia. }
      unfold replaceWith. rewrite map_app. cbn [map].
      rewrite hasClass_shown_same.
      fold (replaceWith (post_class k) (new_Post markup k) pre).
      fold (replaceWith (post_class k) (new_Post markup k) ((fun k => shown k) <$> ks)).
      rewrite !replaceWith_other; [by rewrite <-app_assoc| |].
      - intros e (k' & -> & Hk')%list_elem_of_fmap. apply hasClass_shown. by intros ->.
      - intros e He. apply Hpre; [by left|done]. }
    rewrite (IH _ (pre ++ [new_Post markup k])); [|done|done|].
    + by rewrite fmap_cons, <-app_assoc.
    + intros k' e Hk' [He|He]%elem_of_app.
      * apply Hpre; [by right|done].
      * apply list_elem_of_singleton in He as ->. apply hasClass_new_Post. by intros ->.
Qed.


Lemma displayed_shown ks : el_post <$> ((fun k => shown k) <$> ks) = ks.
Proof.
  induction ks as [|k ks IH]; [done|]. csimpl. by rewrite el_post_addClass, IH.
Qed.

Lemma displayed_fresh ks : el_post <$> (new_Post markup <$> ks) = ks.
Proof. induction ks as [|k ks IH]; [done|]. csimpl. by rewrite IH. Qed.

(** C8, as amended.  For a page whose ids are not on display yet (and post
    markup that carries no other post's id class): [addPosts] walks the page
    from its newest entry to its oldest and appends each below what is
    displayed, so the page lands at the bottom with its newest entry first;
    delivering the same page again leaves the displayed ids as they are.  An
    entry whose id class is found in the container has the elements carrying
    it replaced in place. *)
Theorem addPosts_appends_newest_first (page : obj string value) (f : Feed)
    (Hkeys : NoDup (obj_keys page))
    (Hfresh : ∀ k e, k ∈ obj_keys page → e ∈ feedImageContainer f →
                     hasClass (post_class k) e = false) :
  displayed (addPosts markup page f) = displayed f ++ reverse (obj_keys page)
  ∧ displayed (addPosts markup page (addPosts markup page f))
    = displayed (addPosts markup page f)
  ∧ ∀ f0 k,
      Exists (fun e => hasClass (post_class k) e = true) (feedImageContainer f0) →
      feedImageContainer (addPosts_step markup f0 k)
      = replaceWith (post_class k) (new_Post markup k) (feedImageContainer f0)
      ∧ displayed (addPosts_step markup f0 k)
        = map (fun e => if hasClass (post_class k) e then k else el_post e)
              (feedImageContainer f0).
Proof.
  assert (NoDup (reverse (obj_keys page))) as Hnd by by rewrite reverse_Permutation.
  assert (∀ k e, k ∈ reverse (obj_keys page) → e ∈ feedImageContainer f →
                 hasClass (post_class k) e = false) as Hfresh'.
  { intros k e Hk. apply Hfresh. by apply elem_of_reverse. }
  pose proof (addPosts_first _ f Hnd Hfresh') as H1.
  pose proof (addPosts_again _ (addPosts markup page f) (feedImageContainer f) Hnd H1 Hfresh')
    as H2.
  split; [|split].
  - unfold displayed, addPosts. rewrite H1.
    change (map el_post ?l) with (el_post <$> l).
    by rewrite fmap_app, displayed_shown.
  - unfold displayed. unfold addPosts at 1. rewrite H2. unfold addPosts. rewrite H1.
    change (map el_post ?l) with (el_post <$> l).
    by rewrite !fmap_app, displayed_shown, displayed_fresh.
  - intros f0 k Hex.
    assert (feedImageContainer (addPosts_step markup f0 k)
            = replaceWith (post_class k) (new_Post markup k) (feedImageContainer f0)) as Hr.
    { unfold addPosts_step. cbn [feedImageContainer]. rewrite decide_True; [done|].
      apply Exists_exists in Hex as (e & He & Hc).
      assert (e ∈ filter (fun x => hasClass (post_class k) x = true) (feedImageContainer f0))
        as Hin by by apply list_elem_of_filter.
      destruct (filter _ (feedImageContainer f0)); [by apply elem_of_nil in Hin|cbn; lia]. }
    split; [done|].
    unfold displayed. rewrite Hr. unfold replaceWith. rewrite map_map.
    apply map_ext. intros e. by destruct (hasClass (post_class k) e).
Qed.

End plain_markup.

End claims_addPosts.

(** A page of two posts delivered twice to a display showing [p9]. *)
Lemma addPosts_appends_newest_first_witness :
  let markup := fun _ : string => ["fp-post"] in
  let f := feed_shown markup ["p9"] in
  let page := [("p1", VStr "older"); ("p2", VStr "newer")] in
  displayed f = ["p9"]
  ∧ displayed (addPosts markup page f) = ["p9"; "p2"; "p1"]
  ∧ displayed (addPosts markup page (addPosts markup page f)) = ["p9"; "p2"; "p1"].
Proof.
  intros markup f page.
  assert (∀ k k', post_class k ∈ markup k' → k = k') as Hplain.
  { intros k k' Hin. apply list_elem_of_singleton in Hin. discriminate Hin. }
  assert (NoDup (obj_keys page)) as Hkeys.
  { apply (bool_decide_unpack _). vm_compute. exact I. }
  assert (∀ k e, k ∈ obj_keys page → e ∈ feedImageContainer f →
                 hasClass (post_class k) e = false) as Hfresh.
  { intros k e Hk He.
    apply list_elem_of_singleton in He as ->.
    apply elem_of_cons in Hk as [->|Hk]; [reflexivity|].
    apply list_elem_of_singleton in Hk as ->. reflexivity. }
  destruct (addPosts_appends_newest_first markup Hplain page f Hkeys Hfresh) as (H1 & H2 & _).
  split; [reflexivity|]. split; [exact H1|exact H2].
Defined.

(** C8, counterexample.  A page with [p1] older than [p2]: on an empty
    display the topmost entry is [p2], not the oldest; on a display showing
    [p9] the page lands below [p9], nothing is prepended. *)
Lemma addPosts_oldest_not_topmost :
  let markup := fun _ : string => ["fp-post"] in
  let page := [("p1", VStr "older"); ("p2", VStr "newer")] in
  displayed (addPosts markup page (feed_shown markup [])) = ["p2"; "p1"]
  ∧ displayed (addPosts markup page (feed_shown markup ["p9"])) = ["p9"; "p2"; "p1"].
Proof. by vm_compute. Qed.

(** * Pagination: the shape of a page and what the repair touches *)

Section pagination_pages.
Variable rules : path → bool.
Implicit Types (d : Database) (w : World) (uri : path) (b : option string).

Lemma elem_of_obj_set_inv (k k' : string) (x v' : value) (e : obj string value) :
  NoDup (obj_keys e) → (k', v') ∈ obj_set k x e →
  (k' = k ∧ v' = x) ∨ (k' ≠ k ∧ (k', v') ∈ e).
Proof.
  unfold obj_keys. induction e as [|[k0 v0] e IH]; intros Hnd; cbn [obj_set].
  - intros Hin%list_elem_of_singleton. injection Hin as -> ->. by left.
  - rewrite fmap_cons in Hnd. apply NoDup_cons in Hnd as [Hk0 Hnd]. cbn [fst] in Hk0.
    destruct (decide (k = k0)) as [->|Hne].
    + intros [Hin|Hin]%elem_of_cons.
      * injection Hin as -> ->. by left.
      * right. split; [|by right]. intros ->. apply Hk0.
        apply list_elem_of_fmap. by exists (k0, v').
    + intros [Hin|Hin]%elem_of_cons.
      * injection Hin as -> ->. right. split; [done|by left].
      * destruct (IH Hnd Hin) as [?|[? ?]]; [by left|]. right. split; [done|by right].
Qed.

Lemma expand_entries_values w ids (e : obj string value) k v :
  Forall (fun k => dangling w k = false) ids → NoDup (obj_keys e) → ids ⊆ obj_keys e →
  (k, v) ∈ expand_entries w ids e →
  (k ∈ ids → getPostData w k = Some v ∧ truthy (val (Some v)) = true)
  ∧ (k ∉ ids → (k, v) ∈ e).
Proof.
  revert e. induction ids as [|k0 ids IH]; intros e Hd Hnd Hsub Hin.
  - split; [by intros ?%elem_of_nil|done].
  - inversion_clear Hd as [|?? Hk0 Hids].
    apply dangling_false in Hk0 as (x & Hx & Ht).
    rewrite (expand_entries_cons_kept _ _ x) in Hin by done.
    assert (k0 ∈ obj_keys e) as Hk0e by set_solver.
    destruct (IH (obj_set k0 x e)) as [IH1 IH2]; [done| | |done|].
    { by rewrite obj_keys_set_in. }
    { rewrite obj_keys_set_in by done. set_solver. }
    split.
    + intros Hk. destruct (decide (k ∈ ids)) as [?|Hnot]; [by apply IH1|].
      apply elem_of_cons in Hk as [->|?]; [|done].
      destruct (elem_of_obj_set_inv _ _ _ _ _ Hnd (IH2 Hnot)) as [[_ ->]|[? _]]; done.
    + intros Hk. apply not_elem_of_cons in Hk as [Hne Hnot].
      destruct (elem_of_obj_set_inv _ _ _ _ _ Hnd (IH2 Hnot)) as [[? _]|[_ ?]]; done.
Qed.

Lemma paginate_returns_values fuel uri (N : nat) b w w' pg :
  _getPaginatedFeed rules fuel uri N b true w = Some (w', pg) →
  ∀ k v, (k, v) ∈ entries pg →
         getPostData w' k = Some v ∧ truthy (val (Some v)) = true.
Proof.
  revert w. induction fuel as [|fuel IH]; intros w; [done|].
  rewrite paginate_unfold. case_decide as Hd; [|by apply IH].
  intros [= <- <-] k v Hin. cbn [entries] in Hin.
  apply dangling_ids_nil in Hd.
  pose proof (sorted_keys_NoDup _ (sorted_keys_last_n N _ (remaining_sorted (database w) uri b)))
    as Hnd.
  destruct (expand_entries_values _ _ _ _ _ Hd Hnd (reflexivity _) Hin) as [H1 _].
  apply H1.
  rewrite <-(expand_entries_keys w _ (last_n N (remaining (database w) uri b)) Hd (reflexivity _)).
  apply list_elem_of_fmap. by exists (k, v).
Qed.

(** X1.  A page returned by [_getPaginatedFeed] holds at most [pageSize]
    entries, in strictly ascending key order; every key is an entry of the
    feed within the bound; with [fetchPostDetails] each value is the data of
    the post the key names, which exists, and without it the value stored in
    the feed. *)
Theorem getPaginatedFeed_page_shape fuel uri (N : nat) b (fetch : bool) w w' pg :
  _getPaginatedFeed rules fuel uri N b fetch w = Some (w', pg) →
  length (entries pg) ≤ N
  ∧ StronglySorted key_lt (obj_keys (entries pg))
  ∧ (∀ k, k ∈ obj_keys (entries pg) →
          is_Some (database w' !! (uri ++ [k])) ∧ in_range (pageRef uri b) k = true)
  ∧ (∀ k v, (k, v) ∈ entries pg →
            if fetch
            then getPostData w' k = Some v ∧ truthy (val (Some v)) = true
            else database w' !! (uri ++ [k]) = Some v).
Proof.
  intros Hret.
  destruct (paginate_returns _ _ _ _ _ _ _ _ _ Hret) as (_ & Hkeys & Hplain & _ & _).
  split; [|split; [|split]].
  - rewrite <-(length_fmap fst). fold (obj_keys (entries pg)). rewrite Hkeys.
    unfold obj_keys. rewrite length_fmap, length_last_n. lia.
  - rewrite Hkeys. apply sorted_keys_last_n, remaining_sorted.
  - intros k Hk. rewrite Hkeys in Hk. apply keys_last_n_subseteq in Hk.
    apply list_elem_of_fmap in Hk as ([k' v] & -> & Hin).
    apply elem_of_remaining in Hin as [Hin Hr]. split; [by eexists|done].
  - intros k v Hin. destruct fetch.
    + by eapply paginate_returns_values.
    + destruct (Hplain eq_refl) as [_ Hpg]. rewrite Hpg in Hin.
      destruct (last_n_suffix N (remaining (database w') uri b)) as [l0 Hl0].
      assert ((k, v) ∈ remaining (database w') uri b) as Hin'
        by (rewrite Hl0; set_solver).
      by apply elem_of_remaining in Hin' as [? _].
Qed.

End pagination_pages.

(** One page of one entry, of a feed with three entries. *)
Lemma getPaginatedFeed_page_shape_witness :
  ∃ w' pg,
    _getPaginatedFeed (fun _ => true) 3 ["feed"; "a"] 1 None true w_demo = Some (w', pg)
    ∧ length (entries pg) ≤ 1
    ∧ ∀ k v, (k, v) ∈ entries pg →
             getPostData w' k = Some v ∧ truthy (val (Some v)) = true.
Proof.
  destruct (_getPaginatedFeed (fun _ => true) 3 ["feed"; "a"] 1 None true w_demo)
    as [[w' pg]|] eqn:Hret; [|by vm_compute in Hret].
  exists w', pg. split; [reflexivity|].
  destruct (getPaginatedFeed_page_shape (fun _ => true) 3 ["feed"; "a"] 1 None true w_demo w' pg Hret)
    as (Hlen & _ & _ & Hval).
  split; [exact Hlen|exact Hval].
Defined.

Section pagination_repair_frame.
Variable rules : path → bool.
Implicit Types (d : Database) (w : World) (uri : path) (b : option string).

(** X2.  What [_getPaginatedFeed] changes, for a feed that does not lie in
    the post list: nothing without [fetchPostDetails]; never the storage; in
    the database only paths at or under a feed entry, within the bound, whose
    post is missing.  A feed entry whose post exists is never removed. *)
Theorem getPaginatedFeed_repairs_only_dangling fuel uri (N : nat) b (fetch : bool) w w' pg
    (Hfeed : ∀ k k', under (uri ++ [k]) ["posts"; k'] = false) :
  _getPaginatedFeed rules fuel uri N b fetch w = Some (w', pg) →
  (fetch = false → w' = w)
  ∧ storage w' = storage w
  ∧ (∀ q, (∀ k, k ∈ obj_keys (remaining (database w) uri b) → dangling w k = true →
                under (uri ++ [k]) q = false) →
          database w' !! q = database w !! q)
  ∧ (∀ k, dangling w k = false →
          database w' !! (uri ++ [k]) = database w !! (uri ++ [k])).
Proof.
  intros Hret.
  assert (storage w' = storage w
          ∧ ∀ q, (∀ k, k ∈ obj_keys (remaining (database w) uri b) → dangling w k = true →
                       under (uri ++ [k]) q = false) →
                 database w' !! q = database w !! q) as [Hst Hframe].
  { revert w Hret. induction fuel as [|fuel IH]; intros w; [done|].
    rewrite paginate_unfold. destruct fetch; [|by intros [= <- <-]].
    case_decide as Hd; [by intros [= <- <-]|].
    intros Hret. destruct (IH _ Hret) as [Hst Hframe]. split.
    - by rewrite Hst, storage_repair.
    - intros q Hq.
      set (ids := dangling_ids w (obj_keys (last_n N (remaining (database w) uri b)))) in *.
      assert (∀ k, k ∈ ids → k ∈ obj_keys (remaining (database w) uri b) ∧ dangling w k = true)
        as Hids.
      { intros k Hk. unfold ids, dangling_ids in Hk.
        apply list_elem_of_filter in Hk as [? Hk]. split; [|done].
        by apply keys_last_n_subseteq in Hk. }
      rewrite Hframe.
      + apply repair_frame. intros k Hk. destruct (Hids k Hk). by apply Hq.
      + intros k Hk Hdk. rewrite dangling_repair in Hdk by done. apply Hq; [|done].
        apply list_elem_of_fmap in Hk as ([k' v] & -> & Hin).
        apply list_elem_of_fmap. exists (k', v). split; [done|].
        eapply remaining_subseteq; [|done]. apply database_repair_subseteq. }
  split.
  { intros ->. by destruct (paginate_returns _ _ _ _ _ _ _ _ _ Hret) as (_ & _ & [-> _] & _). }
  split; [done|]. split; [done|].
  intros k Hk. apply Hframe. intros k' _ Hk'.
  destruct (under (uri ++ [k']) (uri ++ [k])) eqn:E; [|done].
  apply under_same_length in E; [|by rewrite !length_app].
  apply app_inv_head in E. injection E as ->. congruence.
Qed.

End pagination_repair_frame.

(** The feed of [w_demo]: [p1] has no post and goes, [p2] and [p3] stay. *)
Lemma getPaginatedFeed_repairs_only_dangling_witness :
  ∃ w' pg,
    _getPaginatedFeed (fun _ => true) 4 ["feed"; "a"] 3 None true w_demo = Some (w', pg)
    ∧ storage w' = storage w_demo
    ∧ database w' !! ["feed"; "a"; "p1"] = None
    ∧ database w' !! ["feed"; "a"; "p2"] = Some (VBool true)
    ∧ database w' !! ["feed"; "a"; "p3"] = Some (VBool true).
Proof.
  destruct (_getPaginatedFeed (fun _ => true) 4 ["feed"; "a"] 3 None true w_demo)
    as [[w' pg]|] eqn:Hret; [|by vm_compute in Hret].
  exists w', pg. split; [reflexivity|].
  assert (∀ k k', under (["feed"; "a"] ++ [k]) ["posts"; k'] = false) as Hfeed
    by reflexivity.
  destruct (getPaginatedFeed_repairs_only_dangling (fun _ => true) 4 ["feed"; "a"] 3 None true
              w_demo w' pg Hfeed Hret) as (_ & Hst & _ & Hkeep).
  split; [exact Hst|].
  split; [by vm_compute in Hret; injection Hret as <- <-|].
  split; [exact (Hkeep "p2" eq_refl)|exact (Hkeep "p3" eq_refl)].
Defined.

(** * Deleting a post: a refused write *)

Section deletePost_refused.
Implicit Types (w : World) (d : Database).

(** X3.  [deletePost] sends the blob deletions without waiting for the
    database write.  When the write is refused, the database is unchanged, so
    the post record stays, yet both blobs are removed from storage, and the
    completion is rejected. *)
Theorem deletePost_refused_write (rules : path → bool) (uid postId pic thumb : string)
    (w : World) (Hpic : pic ≠ "")
    (Hrefused : snd (update rules (deletePost_updateObj uid postId) w) = Rejected) :
  let r := deletePost rules uid postId (Some pic) thumb w in
  database (fst r) = database w
  ∧ storage (fst r) = storage w ∖ {[pic]} ∖ {[thumb]}
  ∧ snd r = Rejected.
Proof.
  intros r. unfold r. rewrite deletePost_pic by done. cbn [fst snd].
  destruct (update_spec rules (deletePost_updateObj uid postId) w) as (_ & Hs1 & _ & Hd1).
  destruct (storage_delete_spec pic (fst (update rules (deletePost_updateObj uid postId) w)))
    as (Hd2 & _ & Hs2 & _).
  destruct (storage_delete_spec thumb
              (fst (storage_delete pic (fst (update rules (deletePost_updateObj uid postId) w)))))
    as (Hd3 & _ & Hs3 & _).
  split; [by rewrite Hd3, Hd2, Hd1|].
  split; [by rewrite Hs3, Hs2, Hs1|].
  rewrite Hrefused. done.
Qed.

End deletePost_refused.

(** The post [p1] with both blobs in storage, deleted by a user the rules
    refuse: the record stays, the blobs go. *)
Lemma deletePost_refused_write_witness :
  let w := mkWorld (database w_post) {[ "full.jpg"; "thumb.jpg" ]} [] in
  let r := deletePost (fun _ => false) "C" "p1" (Some "full.jpg") "thumb.jpg" w in
  is_Some (database (fst r) !! ["posts"; "p1"])
  ∧ storage (fst r) = ∅
  ∧ snd r = Rejected.
Proof.
  intros w r.
  assert ("full.jpg" ≠ "") as Hpic by discriminate.
  destruct (deletePost_refused_write (fun _ => false) "C" "p1" "full.jpg" "thumb.jpg" w Hpic eq_refl)
    as (Hdb & Hst & Hrej).
  split; [|split; [|exact Hrej]].
  - fold r in Hdb. rewrite Hdb. apply (bool_decide_unpack _). vm_compute. exact I.
  - fold r in Hst. rewrite Hst. apply (bool_decide_unpack _). vm_compute. exact I.
Defined.

(** * Round trips of the social graph writes *)

Section round_trips.
Implicit Types (w : World) (d : Database) (u : obj path (option value)).

Lemma absent_map_Forall d (p : path) :
  map_Forall (fun q _ => under p q = false) d → absent d p.
Proof.
  intros H q Hq. destruct (d !! q) as [v|] eqn:E; [|done].
  apply H in E. congruence.
Qed.

(** Removing what a write put where nothing was gives the database back. *)
Lemma db_update_undo (paths : list path) (u : obj path (option value)) d :
  obj_keys u = paths →
  (∀ p, p ∈ paths → absent d p) →
  db_update ((fun p => (p, None)) <$> paths) (db_update u d) = d.
Proof.
  intros Hu Hab. apply map_eq. intros q.
  rewrite lookup_db_update_nulls.
  2:{ apply Forall_fmap, Forall_forall. done. }
  case_bool_decide as Hex.
  - apply Exists_exists in Hex as ([p v] & Hin & Hq). cbn [fst] in Hq.
    apply list_elem_of_fmap in Hin as (p' & [= -> ->] & Hp').
    symmetry. by apply (Hab p').
  - apply lookup_db_update_frame, Forall_forall. intros [p v] Hin. cbn [fst].
    destruct (under p q) eqn:E; [|done]. exfalso. apply Hex.
    apply Exists_exists. exists (p, None). split; [|done].
    apply list_elem_of_fmap. exists p. split; [done|].
    rewrite <-Hu. apply list_elem_of_fmap. by exists (p, v).
Qed.

Lemma toggleFollowUser_updateData_false uid followedUserId (data : obj string value) :
  NoDup (obj_keys data) →
  toggleFollowUser_updateData uid followedUserId false data =
    (fun p => (p, None)) <$>
      obj_keys (toggleFollowUser_updateData uid followedUserId true data).
Proof.
  intros Hnd. rewrite !toggleFollowUser_updateData_eq by done.
  unfold obj_keys. rewrite !fmap_app, <-!list_fmap_compose. cbn.
  f_equal.
Qed.

(** X4.  Following then unfollowing is a round trip: when both writes are
    fulfilled and, beforehand, [A] does not follow [B], is not among the
    followers of [B] and has none of the posts of [B] in the home feed, the
    database after [toggleFollowUser(B, true)] then [toggleFollowUser(B,
    false)] is the database before. *)
Theorem follow_unfollow_round_trip (rules : path → bool) (A B : string) (w : World) :
  let data := children (database w) ["people"; B; "posts"] in
  let r1 := toggleFollowUser rules A B true w in
  let r2 := toggleFollowUser rules A B false (fst r1) in
  snd r1 = Fulfilled → snd r2 = Fulfilled →
  absent (database w) ["people"; A; "following"; B] →
  absent (database w) ["followers"; B; A] →
  (∀ k, k ∈ obj_keys data → absent (database w) ["feed"; A; k]) →
  database (fst r2) = database w.
Proof.
  intros data r1 r2 Hok1 Hok2 Hfollowing Hfollowers Hfeed.
  pose proof (NoDup_children_keys (database w) ["people"; B; "posts"]) as Hnd. fold data in Hnd.
  assert (r1 = update rules (toggleFollowUser_updateData A B true data) w) as Hr1
    by apply toggleFollowUser_eq.
  destruct (update_spec rules (toggleFollowUser_updateData A B true data) w)
    as (_ & _ & Hdb1 & _).
  rewrite <-Hr1 in Hdb1. specialize (Hdb1 Hok1).
  assert (children (database (fst r1)) ["people"; B; "posts"] = data) as Hdata.
  { apply children_ext. intros k. rewrite Hdb1. cbn [app]. by apply lookup_toggle_posts. }
  assert (r2 = update rules (toggleFollowUser_updateData A B false data) (fst r1)) as Hr2.
  { unfold r2. by rewrite toggleFollowUser_eq, Hdata. }
  destruct (update_spec rules (toggleFollowUser_updateData A B false data) (fst r1))
    as (_ & _ & Hdb2 & _).
  rewrite <-Hr2 in Hdb2. specialize (Hdb2 Hok2).
  rewrite Hdb2, Hdb1, toggleFollowUser_updateData_false by done.
  apply db_update_undo; [done|].
  intros p Hp. rewrite toggleFollowUser_updateData_eq in Hp by done.
  rewrite obj_keys_app in Hp. apply elem_of_app in Hp as [Hp|Hp].
  - unfold obj_keys in Hp. rewrite <-list_fmap_compose in Hp.
    apply list_elem_of_fmap in Hp as ([k v] & -> & Hin). cbn.
    apply Hfeed. apply list_elem_of_fmap. by exists (k, v).
  - cbn in Hp. apply elem_of_cons in Hp as [->|Hp]; [done|].
    by apply list_elem_of_singleton in Hp as ->.
Qed.

Lemma toggleBlockUser_update_eq uid followedUserId (block : bool) :
  toggleBlockUser_update uid followedUserId block =
    [ (["blocking"; uid; followedUserId], if_block block);
      (["blocked"; followedUserId; uid], if_block block) ].
Proof. unfold toggleBlockUser_update. cbn [obj_set]. by rewrite decide_False by done. Qed.

(** X5.  [toggleBlockUser] records a block on both sides or on neither: it is
    one [update] of the two paths; when fulfilled, the entry of the blocked
    user under the blocker and the entry of the blocker under the blocked
    user hold the same value ([true], or nothing for an unblock) and every
    other path is untouched; when rejected nothing changes.  Blocking then
    unblocking a user who was not blocked gives the database back. *)
Theorem toggleBlockUser_both_sides (rules : path → bool) (uid other : string) (block : bool)
    (w : World) :
  let r := toggleBlockUser rules uid other block w in
  issued (fst r) = issued w ++ [ CUpdate [ (["blocking"; uid; other], if_block block);
                                           (["blocked"; other; uid], if_block block) ] ]
  ∧ (snd r = Fulfilled →
     database (fst r) !! ["blocking"; uid; other] = if_block block
     ∧ database (fst r) !! ["blocked"; other; uid] = if_block block
     ∧ ∀ q, under ["blocking"; uid; other] q = false →
            under ["blocked"; other; uid] q = false →
            database (fst r) !! q = database w !! q)
  ∧ (snd r = Rejected → database (fst r) = database w)
  ∧ (block = true → snd r = Fulfilled →
     snd (toggleBlockUser rules uid other false (fst r)) = Fulfilled →
     absent (database w) ["blocking"; uid; other] →
     absent (database w) ["blocked"; other; uid] →
     database (fst (toggleBlockUser rules uid other false (fst r))) = database w).
Proof.
  intros r. unfold r, toggleBlockUser.
  destruct (update_spec rules (toggleBlockUser_update uid other block) w)
    as (Hlog & _ & Hok & Hrej).
  rewrite toggleBlockUser_update_eq in *.
  split; [done|]. split; [|split; [done|]].
  - intros Hf. rewrite (Hok Hf). unfold db_update. cbn [fold_left fst snd].
    split; [|split].
    + rewrite lookup_db_set_frame by done. apply db_set_same.
    + apply db_set_same.
    + intros q H1 H2. by rewrite !lookup_db_set_frame.
  - intros -> Hf Hf2 Hab1 Hab2.
    destruct (update_spec rules (toggleBlockUser_update uid other false)
                (fst (update rules [ (["blocking"; uid; other], if_block true);
                                     (["blocked"; other; uid], if_block true) ] w)))
      as (_ & _ & Hok2 & _).
    rewrite toggleBlockUser_update_eq in *.
    rewrite (Hok2 Hf2), (Hok Hf).
    apply (db_update_undo [ ["blocking"; uid; other]; ["blocked"; other; uid] ]); [done|].
    intros p [->|Hp]%elem_of_cons; [done|].
    by apply list_elem_of_singleton in Hp as ->.
Qed.

End round_trips.

(** [A], with nothing in the home feed, follows and unfollows [B]. *)
Lemma follow_unfollow_round_trip_witness :
  database (fst (toggleFollowUser (fun _ => true) "A" "B" false
                   (fst (toggleFollowUser (fun _ => true) "A" "B" true w_social))))
  = database w_social.
Proof.
  apply (follow_unfollow_round_trip (fun _ => true) "A" "B" w_social).
  - reflexivity.
  - reflexivity.
  - apply absent_map_Forall. apply (bool_decide_unpack _). vm_compute. exact I.
  - apply absent_map_Forall. apply (bool_decide_unpack _). vm_compute. exact I.
  - intros k Hk.
    apply elem_of_cons in Hk as [->|Hk];
      [apply absent_map_Forall; apply (bool_decide_unpack _); vm_compute; exact I|].
    apply elem_of_cons in Hk as [->|Hk];
      [apply absent_map_Forall; apply (bool_decide_unpack _); vm_compute; exact I|].
    apply list_elem_of_singleton in Hk as ->.
    apply absent_map_Forall; apply (bool_decide_unpack _); vm_compute; exact I.
Defined.

(** [A] blocks then unblocks [B] in [w_social]. *)
Lemma toggleBlockUser_both_sides_witness :
  let r := toggleBlockUser (fun _ => true) "A" "B" true w_social in
  database (fst r) !! ["blocking"; "A"; "B"] = Some (VBool true)
  ∧ database (fst r) !! ["blocked"; "B"; "A"] = Some (VBool true)
  ∧ database (fst (toggleBlockUser (fun _ => true) "A" "B" false (fst r))) = database w_social.
Proof.
  intros r.
  destruct (toggleBlockUser_both_sides (fun _ => true) "A" "B" true w_social)
    as (_ & Hset & _ & Hundo).
  destruct (Hset eq_refl) as (H1 & H2 & _).
  split; [exact H1|]. split; [exact H2|].
  apply (Hundo eq_refl eq_refl eq_refl).
  - apply absent_map_Forall. apply (bool_decide_unpack _). vm_compute. exact I.
  - apply absent_map_Forall. apply (bool_decide_unpack _). vm_compute. exact I.
Defined.

(** * The feed view: a deleted post *)

Section feed_view_deletion.
Variable markup : string → list string.
Implicit Types (f : Feed) (ks : list string) (e : Element).

Lemma filter_all_in {A} (P : A → Prop) `{∀ x, Decision (P x)} (l : list A) :
  (∀ x, x ∈ l → P x) → filter P l = l.
Proof.
  induction l as [|x l IH]; intros Hl; [done|].
  rewrite filter_cons_True by (apply Hl; by left). f_equal. apply IH.
  intros ? ?. apply Hl. by right.
Qed.

(** X6.  [onPostDeleted] takes every element tagged with the id class of the
    post out of the container and leaves the others in their order; a truthy
    pending entry of that id is dropped from the buffer; an id that is neither
    pending nor on display changes nothing.  A post put on display by
    [addPosts] is tagged by the feed and therefore goes; a post revealed by
    [showNewPosts] is not tagged by the feed, so it goes only if the markup
    of the post itself carries the id class. *)
Theorem onPostDeleted_display (f : Feed) (postId : string) :
  (** nothing tagged with the id stays, everything else does, in order *)
  feedImageContainer (onPostDeleted postId f)
    = filter (fun e => hasClass (post_class postId) e = false) (feedImageContainer f)
  (** the pending entry goes, the others stay *)
  ∧ (∀ v, obj_get postId (newPosts f) = Some v → truthy (val (Some v)) = true →
          newPosts (onPostDeleted postId f) = obj_delete postId (newPosts f))
  (** in neither: no change *)
  ∧ (obj_get postId (newPosts f) = None →
     (∀ e, e ∈ feedImageContainer f → hasClass (post_class postId) e = false) →
     onPostDeleted postId f = f)
  (** a post put on display by [addPosts] goes *)
  ∧ (∀ page,
       (∀ k k', post_class k ∈ markup k' → k = k') →
       NoDup (obj_keys page) →
       (∀ k e, k ∈ postId :: obj_keys page → e ∈ feedImageContainer f →
               hasClass (post_class k) e = false) →
       displayed (onPostDeleted postId (addPosts markup page f))
       = displayed f ++ filter (fun k => k ≠ postId) (reverse (obj_keys page)))
  (** a post revealed by [showNewPosts] goes only if its own markup is tagged *)
  ∧ (∀ v,
       newPosts f = [] → truthy (val (Some v)) = true →
       (∀ e, e ∈ feedImageContainer f → hasClass (post_class postId) e = false) →
       displayed (onPostDeleted postId (showNewPosts markup (addNewPost postId v f)))
       = (if bool_decide (post_class postId ∈ markup postId) then [] else [postId])
         ++ displayed f).
Proof.
  assert (∀ f0, feedImageContainer (onPostDeleted postId f0)
                = filter (fun e => hasClass (post_class postId) e = false)
                         (feedImageContainer f0)) as Hc.
  { intros f0. unfold onPostDeleted. by destruct (truthy _). }
  split; [apply Hc|]. split; [|split; [|split]].
  - intros v Hv Ht. unfold onPostDeleted. by rewrite Hv, Ht.
  - intros Hn Hnone. unfold onPostDeleted. rewrite Hn. cbn [val truthy].
    rewrite filter_all_in by done. by destruct f.
  - intros page Hplain Hnd Hfresh. unfold displayed. rewrite Hc.
    assert (NoDup (reverse (obj_keys page))) as Hnd' by by rewrite reverse_Permutation.
    unfold addPosts. rewrite (addPosts_first markup Hplain _ f Hnd').
    2:{ intros k e Hk He. apply Hfresh; [|done]. right. by apply elem_of_reverse. }
    rewrite filter_app, filter_all_in by (intros e; apply Hfresh; by left).
    change (map el_post ?l) with (el_post <$> l). rewrite fmap_app. f_equal.
    induction (reverse (obj_keys page)) as [|k ks IH]; [done|].
    rewrite fmap_cons, !filter_cons.
    apply NoDup_cons in Hnd' as [_ Hnd'].
    destruct (decide (k = postId)) as [->|Hne].
    + rewrite (hasClass_shown_same markup).
      rewrite decide_False by done. rewrite decide_False by (intros H; by apply H).
      by apply IH.
    + rewrite (hasClass_shown markup Hplain) by done.
      rewrite decide_True by done. rewrite decide_True by done.
      rewrite fmap_cons, el_post_addClass. cbn [new_Post el_post]. f_equal. by apply IH.
  - intros v Hempty Ht Hnone. unfold displayed. rewrite Hc.
    unfold showNewPosts.
    match goal with |- context [fold_left _ ?ks ?f0] =>
      destruct (showNewPosts_fold markup ks f0) as (-> & _) end.
    cbn [feedImageContainer addNewPost newPosts]. rewrite Hempty.
    change (new_Post markup <$> reverse (obj_keys (obj_set postId v [])))
      with [new_Post markup postId].
    rewrite filter_app, (filter_all_in _ (feedImageContainer f)) by done.
    rewrite map_app. f_equal.
    rewrite filter_cons, filter_nil.
    destruct (decide _) as [Hd|Hd%not_false_is_true];
      unfold hasClass, new_Post in Hd; cbn [el_class] in Hd; by rewrite Hd.
Qed.

End feed_view_deletion.

(** [p2] deleted after a page [p1, p2] was added below [p9]; and [p4]
    deleted after it was revealed through the new-posts button. *)
Lemma onPostDeleted_display_witness :
  let markup := fun _ : string => ["fp-post"] in
  let f := feed_shown markup ["p9"] in
  let page := [("p1", VStr "older"); ("p2", VStr "newer")] in
  displayed (onPostDeleted "p2" (addPosts markup page f)) = ["p9"; "p1"]
  ∧ displayed (onPostDeleted "p4" (showNewPosts markup (addNewPost "p4" (VStr "new") f)))
    = ["p4"; "p9"].
Proof.
  intros markup f page.
  destruct (onPostDeleted_display markup f "p2") as (_ & _ & _ & Hadd & _).
  destruct (onPostDeleted_display markup f "p4") as (_ & _ & _ & _ & Hshow).
  split.
  - apply (Hadd page).
    + intros k k' Hin. apply list_elem_of_singleton in Hin. discriminate Hin.
    + apply (bool_decide_unpack _). vm_compute. exact I.
    + intros k e Hk He. apply list_elem_of_singleton in He as ->.
      apply elem_of_cons in Hk as [->|Hk]; [reflexivity|].
      apply elem_of_cons in Hk as [->|Hk]; [reflexivity|].
      apply list_elem_of_singleton in Hk as ->. reflexivity.
  - apply (Hshow (VStr "new")); [reflexivity|reflexivity|].
    intros e He. apply list_elem_of_singleton in He as ->. reflexivity.
Defined.

(** * The general feed, page after page *)

Section list_windows.
Context {A : Type}.
Implicit Types (l : list A).

Lemma last_n_app_r (n : nat) (R S : list A) :
  last_n (n + length S) (R ++ S) = last_n n R ++ S.
Proof.
  unfold last_n. rewrite length_app.
  replace (length R + length S - (n + length S)) with (length R - n) by lia.
  apply drop_app_le. lia.
Qed.

Lemma head_last_n_S (n : nat) l :
  n < length l → head (last_n (S n) l) = last (take (length l - n) l).
Proof.
  intros Hn. unfold last_n.
  rewrite head_lookup, lookup_drop, last_lookup, length_take, lookup_take_lt by lia.
  f_equal. lia.
Qed.

Lemma take_last_n l (m : nat) : l = take (length l - m) l ++ last_n m l.
Proof. unfold last_n. by rewrite take_drop. Qed.

End list_windows.

Lemma filter_none {A} (P : A → Prop) `{∀ x, Decision (P x)} (l : list A) :
  (∀ x, x ∈ l → ¬ P x) → filter P l = [].
Proof.
  induction l as [|x l IH]; intros Hl; [done|].
  rewrite filter_cons_False by (apply Hl; by left). apply IH. intros ? ?. apply Hl. by right.
Qed.

Lemma obj_keys_last_n {K A} (n : nat) (o : obj K A) :
  obj_keys (last_n n o) = last_n n (obj_keys o).
Proof. unfold obj_keys, last_n. by rewrite fmap_drop, length_fmap. Qed.

Lemma in_range_pageRef_iff uri c k :
  c ≠ "" → in_range (pageRef uri (Some c)) k = true ↔ key_le k c.
Proof.
  intros Hc. unfold pageRef. simpl.
  destruct (String.eqb_spec c "") as [?|_]; [done|]. simpl.
  unfold in_range. simpl. by rewrite bool_decide_eq_true.
Qed.

(** The entries at or before a cursor that is the last key of a prefix of
    the feed are that prefix. *)
Lemma remaining_prefix d uri (R0 S : obj string value) c v :
  children d uri = (R0 ++ [(c, v)]) ++ S → c ≠ "" →
  remaining d uri (Some c) = R0 ++ [(c, v)].
Proof.
  intros Hall Hc. rewrite remaining_filter, Hall.
  pose proof (children_sorted d uri) as Hs. rewrite Hall in Hs.
  apply sorted_entries in Hs.
  apply StronglySorted_app in Hs as (Hlt & HsR & _).
  apply StronglySorted_app in HsR as (HR0 & _ & _).
  rewrite filter_app. rewrite filter_all_in, filter_none; [by rewrite app_nil_r| |].
  - intros [k x] Hin Hr. cbn [fst] in Hr. apply in_range_pageRef_iff in Hr; [|done].
    eapply key_lt_not_le; [|exact Hr].
    apply (Hlt (c, v) (k, x)); [|done]. apply elem_of_app. right. by left.
  - intros [k x] Hin. cbn [fst]. apply in_range_pageRef_iff; [done|].
    apply elem_of_app in Hin as [Hin|Hin].
    + apply key_lt_le. apply (HR0 (k, x) (c, v)); [done|by left].
    + apply list_elem_of_singleton in Hin. by injection Hin as -> ->.
Qed.

Lemma remaining_all d uri : remaining d uri None = children d uri.
Proof. rewrite remaining_filter. by apply filter_all. Qed.

Lemma head_obj_keys {K A} (o : obj K A) : head (obj_keys o) = fst <$> head o.
Proof. by destruct o. Qed.

Lemma last_obj_keys {K A} (o : obj K A) : last (obj_keys o) = fst <$> last o.
Proof. unfold obj_keys. apply fmap_last. Qed.

Lemma last_last_n {A} (n : nat) (l : list A) : 0 < n → last (last_n n l) = last l.
Proof.
  intros Hn. unfold last_n. rewrite !last_lookup, lookup_drop, length_drop.
  destruct l as [|x l]; [done|]. cbn [length]. f_equal. lia.
Qed.

(** The cursor handed out with a page of [N] entries cut from the end of
    [R] is the last key of what is left of [R]. *)
Lemma next_cursor (N : nat) (R : obj string value) :
  (if decide (N < length R) then head (obj_keys (last_n (N + 1) R)) else None)
  = fst <$> last (take (length R - N) R).
Proof.
  destruct (decide (N < length R)) as [Hlt|Hge].
  - by rewrite Nat.add_1_r, head_obj_keys, head_last_n_S.
  - replace (length R - N) with 0 by lia. by rewrite take_0.
Qed.

Lemma next_cursor_is_Some {A} (N : nat) (R : list A) :
  is_Some (last (take (length R - N) R)) ↔ N < length R.
Proof.
  rewrite last_is_Some. split.
  - intros Hne. destruct (decide (N < length R)); [done|].
    destruct Hne. replace (length R - N) with 0 by lia. by rewrite take_0.
  - intros Hlt Hnil. apply (f_equal length) in Hnil.
    rewrite length_take in Hnil. cbn in Hnil. lia.
Qed.

Lemma toggleNextPageButton_fields (x : option string) (v : FeedPage) :
  let v' := toggleNextPageButton x v in
  page_feed v' = page_feed v
  ∧ firebaseRefs v' = firebaseRefs v
  ∧ next_click (nextPageButton v') = x
  ∧ next_shown (nextPageButton v') = bool_decide (is_Some x).
Proof. destruct x; cbn; repeat split; try done. Qed.

Section general_feed.
Variable markup : string → list string.
Variable rules : path → bool.
Hypothesis plain : ∀ k k', post_class k ∈ markup k' → k = k'.
Variable uri : path.
Variable N : nat.
Variable w : World.
Hypothesis keys_nonempty : "" ∉ obj_keys (children (database w) uri).

Local Abbreviation all := (children (database w) uri).
Local Abbreviation shown k := (addClass (post_class k) (new_Post markup k)).

Lemma addPosts_fields ks f :
  let f' := fold_left (addPosts_step markup) ks f in
  posts f' = posts f ++ ks
  ∧ newPosts f' = newPosts f
  ∧ newPostsButton f' = newPostsButton f
  ∧ (noPostsMessage f = false → noPostsMessage f' = false).
Proof.
  revert f. induction ks as [|k ks IH]; intros f; cbn [fold_left].
  - by rewrite app_nil_r.
  - destruct (IH (addPosts_step markup f k)) as (-> & -> & -> & Hn).
    cbn [addPosts_step posts newPosts newPostsButton]. rewrite <-app_assoc.
    repeat split; try done. intros _. by apply Hn.
Qed.

Lemma page_added (R S : obj string value) (v : FeedPage) :
  all = R ++ S →
  feedImageContainer (page_feed v) = (fun k => shown k) <$> reverse (obj_keys S) →
  posts (page_feed v) = reverse (obj_keys S) →
  newPosts (page_feed v) = [] →
  btn_shown (newPostsButton (page_feed v)) = false →
  noPostsMessage (page_feed v) = false →
  pages_shown markup uri w (length S + N)
    (toggleNextPageButton
       (if decide (N < length R) then head (obj_keys (last_n (N + 1) R)) else None)
       (with_feed (addPosts markup (last_n N R) (page_feed v)) v)).
Proof.
  intros Hall Hc Hp Hn Hb Hm.
  pose proof (children_sorted (database w) uri) as Hs.
  apply sorted_keys_NoDup in Hs. rewrite Hall, obj_keys_app in Hs.
  apply NoDup_app in Hs as (HndR & Hdisj & _).
  assert (last_n (length S + N) all = last_n N R ++ S) as Hwin.
  { rewrite <-last_n_app_r, <-Hall. f_equal. lia. }
  assert (take (length all - (length S + N)) all = take (length R - N) R) as Htake.
  { rewrite Hall at 2. rewrite Hall, length_app.
    replace (length R + length S - (length S + N)) with (length R - N) by lia.
    apply take_app_le. lia. }
  rewrite next_cursor.
  match goal with |- pages_shown _ _ _ _ (toggleNextPageButton ?x ?v0) =>
    destruct (toggleNextPageButton_fields x v0) as (Hf & _ & Hclick & Hshown) end.
  cbn zeta in *. unfold pages_shown. cbn zeta. rewrite Hf, Hclick, Hshown, Hwin, Htake.
  cbn [with_feed page_feed]. unfold addPosts.
  destruct (addPosts_fields (reverse (obj_keys (last_n N R))) (page_feed v))
    as (-> & -> & -> & Hm').
  assert (NoDup (obj_keys (last_n N R))) as HndP.
  { destruct (last_n_suffix N R) as [l0 Hl]. rewrite Hl, obj_keys_app in HndR.
    by apply NoDup_app in HndR as (_ & _ & ?). }
  rewrite addPosts_first, Hc, Hp; [| done | by rewrite reverse_Permutation | ].
  - rewrite obj_keys_app, reverse_app, fmap_app.
    repeat split; try done; [by apply Hm'|].
    apply bool_decide_ext. rewrite fmap_is_Some, next_cursor_is_Some.
    rewrite Hall, length_app. lia.
  - intros k e Hk He. rewrite Hc in He.
    apply list_elem_of_fmap in He as (k' & -> & Hk').
    apply hasClass_shown; [done|]. intros <-.
    rewrite elem_of_reverse in Hk. rewrite elem_of_reverse in Hk'.
    apply keys_last_n_subseteq in Hk.
    by apply (Hdisj k).
Qed.

Lemma loadMorePosts_step fuel (m : nat) (v : FeedPage) :
  pages_shown markup uri w m v →
  ∃ v', loadMorePosts markup rules (S fuel) uri N false w v = Some (w, v')
        ∧ pages_shown markup uri w (m + N) v'
        ∧ firebaseRefs v' = firebaseRefs v.
Proof.
  intros (Hc & Hp & Hn & Hb & Hm & Hclick & Hshown).
  unfold loadMorePosts. rewrite Hclick.
  destruct (last (take (length all - m) all)) as [[c vc]|] eqn:Hlast; cbn [fmap option_fmap option_map fst].
  - apply last_Some in Hlast as [R0 HR].
    assert (m < length all) as Hlt.
    { destruct (decide (m < length all)); [done|].
      replace (length all - m) with 0 in HR by lia. rewrite take_0 in HR. by destruct R0. }
    pose proof (take_last_n all m) as Hall. rewrite HR in Hall.
    assert (c ≠ "") as Hc0.
    { intros ->. apply keys_nonempty. rewrite Hall, !obj_keys_app.
      apply elem_of_app. left. apply elem_of_app. right. by left. }
    pose proof (remaining_prefix _ _ _ _ _ _ Hall Hc0) as Hrem.
    unfold call_nextPage. rewrite paginate_unfold. cbn zeta. rewrite Hrem.
    eexists. split; [reflexivity|]. split; [|done].
    assert (length (last_n m all) = m) as Hlen by (rewrite length_last_n; lia).
    rewrite <-Hlen at 1.
    apply (page_added (R0 ++ [(c, vc)]) (last_n m all)); done.
  - exists v. split; [done|]. split; [|done].
    apply last_None in Hlast. apply (f_equal length) in Hlast.
    rewrite length_take in Hlast. cbn [length] in Hlast.
    assert (length all ≤ m) as Hle by lia.
    unfold pages_shown. cbn zeta.
    rewrite (last_n_all (m + N)) by lia. rewrite (last_n_all m) in Hc, Hp by lia.
    replace (length all - (m + N)) with 0 by lia. rewrite take_0.
    repeat split; try done.
    rewrite Hshown. apply bool_decide_ext. lia.
Qed.

Lemma load_pages_shown fuel (n m : nat) (v : FeedPage) :
  pages_shown markup uri w m v →
  ∃ v', load_pages markup rules n (S fuel) uri N false w v = Some (w, v')
        ∧ pages_shown markup uri w (m + n * N) v'
        ∧ firebaseRefs v' = firebaseRefs v.
Proof.
  revert m v. induction n as [|n IH]; intros m v Hv.
  - exists v. cbn [load_pages]. by rewrite Nat.add_0_r.
  - destruct (loadMorePosts_step fuel m v Hv) as (v1 & Hload & Hv1 & Hrefs).
    destruct (IH _ _ Hv1) as (v' & Hn & Hv' & Hrefs').
    exists v'. cbn [load_pages]. rewrite Hload. split; [done|].
    split; [|congruence].
    by replace (m + S n * N) with (m + N + n * N) by lia.
Qed.

End general_feed.

(** Subscribing from the newest key of a feed raises no event for the
    entries already there. *)
Lemma subscribed_entries_latest uri w :
  subscribed_entries uri (last (obj_keys (children (database w) uri))) w = [].
Proof.
  unfold subscribed_entries. rewrite once_feedRef.
  destruct (last (obj_keys (children (database w) uri))) as [kmax|] eqn:Hlast.
  - apply filter_none. intros [k x] Hin Hneq.
    apply list_elem_of_filter in Hin as [Hr Hin]. cbn [fst] in *.
    assert (key_lt kmax k) as Hlt by (by apply (delivered_iff uri kmax k)).
    apply last_Some in Hlast as [l' Hl].
    pose proof (children_sorted (database w) uri) as Hs. rewrite Hl in Hs.
    apply StronglySorted_app in Hs as (Hbelow & _ & _).
    assert (k ∈ obj_keys (children (database w) uri)) as Hk.
    { apply list_elem_of_fmap. by exists (k, x). }
    rewrite Hl in Hk. apply elem_of_app in Hk as [Hk| ->%list_elem_of_singleton].
    + apply (key_lt_irrefl kmax). etrans; [exact Hlt|]. apply Hbelow; [done|by left].
    + by apply (key_lt_irrefl kmax).
  - apply last_None in Hlast. apply fmap_nil_inv in Hlast. by rewrite Hlast.
Qed.

Lemma with_feed_id (v : FeedPage) : with_feed (page_feed v) v = v.
Proof. by destruct v. Qed.

Lemma showGeneralFeed_first (markup : string → list string) (rules : path → bool)
    (w : World) (v0 : FeedPage) (fuel : nat) :
  (∀ k k', post_class k ∈ markup k' → k = k') →
  (∀ e, e ∈ feedImageContainer (page_feed v0) → hasClass "fp-post" e = true) →
  ∃ v, showGeneralFeed markup rules (S fuel) w v0 = Some (w, v)
       ∧ pages_shown markup ["posts"] w POSTS_PAGE_SIZE v
       ∧ firebaseRefs v
         = [ref ["posts"];
            feedRef ["posts"] (last (obj_keys (children (database w) ["posts"])))].
Proof.
  intros Hplain Hposts. unfold showGeneralFeed.
  rewrite paginate_unfold. cbn zeta. rewrite remaining_all.
  cbn [entries nextPage].
  rewrite obj_keys_last_n, last_last_n by (unfold POSTS_PAGE_SIZE; lia).
  rewrite subscribed_entries_latest. cbn [fold_left]. rewrite with_feed_id.
  eexists. split; [reflexivity|]. split.
  - apply (page_added markup Hplain ["posts"] POSTS_PAGE_SIZE w _ []); try done.
    + by rewrite app_nil_r.
    + cbn. apply filter_none. intros e He Hf. by rewrite (Hposts e He) in Hf.
  - by destruct (toggleNextPageButton_fields
                   (if decide (POSTS_PAGE_SIZE < length (children (database w) ["posts"]))
                    then head (obj_keys (last_n (POSTS_PAGE_SIZE + 1)
                                                (children (database w) ["posts"])))
                    else None)
                   (with_feed
                      (addPosts markup (last_n POSTS_PAGE_SIZE (children (database w) ["posts"]))
                         (page_feed (push_ref
                            (feedRef ["posts"] (last (obj_keys (children (database w) ["posts"]))))
                            (registerForPostsDeletion (clear v0)))))
                      (push_ref
                         (feedRef ["posts"] (last (obj_keys (children (database w) ["posts"]))))
                         (registerForPostsDeletion (clear v0)))))
      as (_ & -> & _).
Qed.

(** X7.  The general feed, on a database that does not change meanwhile,
    with post markup that carries no other post's id class, non-empty post keys
    and a container that holds post elements only.  [showGeneralFeed] followed
    by [n] uses of the next-page button returns, leaves the remote state as it
    is, and displays exactly the [POSTS_PAGE_SIZE * (n + 1)] newest posts (all of
    them if there are fewer), newest first, each once, whatever was displayed
    before.  The buffer of new posts is empty and its button hidden: the
    subscription started from the newest post loaded raises no event for the
    posts already there.  The next-page button is shown, and still bound,
    exactly while older posts are left.  The helper holds two listeners: the
    one for deletions and the one for new posts. *)
Theorem showGeneralFeed_pages (markup : string → list string) (rules : path → bool)
    (w : World) (v0 : FeedPage) (fuel n : nat)
    (Hplain : ∀ k k', post_class k ∈ markup k' → k = k')
    (Hkeys : "" ∉ obj_keys (children (database w) ["posts"]))
    (Hposts : ∀ e, e ∈ feedImageContainer (page_feed v0) → hasClass "fp-post" e = true) :
  let all := obj_keys (children (database w) ["posts"]) in
  ∃ v1 v,
    showGeneralFeed markup rules (S fuel) w v0 = Some (w, v1)
    ∧ load_pages markup rules n (S fuel) ["posts"] POSTS_PAGE_SIZE false w v1 = Some (w, v)
    ∧ displayed (page_feed v) = reverse (last_n (POSTS_PAGE_SIZE * (n + 1)) all)
    ∧ posts (page_feed v) = reverse (last_n (POSTS_PAGE_SIZE * (n + 1)) all)
    ∧ newPosts (page_feed v) = []
    ∧ btn_shown (newPostsButton (page_feed v)) = false
    ∧ next_shown (nextPageButton v) = bool_decide (POSTS_PAGE_SIZE * (n + 1) < length all)
    ∧ (next_click (nextPageButton v) = None ↔ length all ≤ POSTS_PAGE_SIZE * (n + 1))
    ∧ firebaseRefs v = [ref ["posts"]; feedRef ["posts"] (last all)].
Proof.
  intros all.
  destruct (showGeneralFeed_first markup rules w v0 fuel Hplain Hposts)
    as (v1 & Hshow & Hv1 & Hrefs1).
  destruct (load_pages_shown markup rules Hplain ["posts"] POSTS_PAGE_SIZE w Hkeys fuel n _ _ Hv1)
    as (v & Hload & Hv & Hrefs).
  exists v1, v. split; [done|]. split; [done|].
  replace (POSTS_PAGE_SIZE * (n + 1)) with (POSTS_PAGE_SIZE + n * POSTS_PAGE_SIZE) by lia.
  destruct Hv as (Hc & Hp & Hn & Hb & _ & Hclick & Hnext).
  unfold all. rewrite <-!obj_keys_last_n.
  split.
  { unfold displayed. rewrite Hc. change (map el_post ?l) with (el_post <$> l).
    apply displayed_shown. }
  split; [done|]. split; [done|]. split; [done|].
  split. { rewrite Hnext. apply bool_decide_ext. unfold obj_keys. by rewrite length_fmap. }
  split; [|congruence].
  rewrite Hclick, fmap_None, eq_None_not_Some, next_cursor_is_Some.
  unfold obj_keys. rewrite length_fmap. lia.
Qed.

(** Five posts: the first page shows the three newest, one use of the
    next-page button shows all five and hides the button. *)
Lemma showGeneralFeed_pages_witness :
  let markup := fun _ : string => ["fp-post"] in
  let rules := fun _ : path => true in
  ∃ v1 v,
    showGeneralFeed markup rules 1 w_general (page_shown markup ["p9"]) = Some (w_general, v1)
    ∧ load_pages markup rules 1 1 ["posts"] POSTS_PAGE_SIZE false w_general v1
      = Some (w_general, v)
    ∧ displayed (page_feed v) = ["p5"; "p4"; "p3"; "p2"; "p1"]
    ∧ next_shown (nextPageButton v) = false.
Proof.
  intros markup rules.
  destruct (showGeneralFeed_pages markup rules w_general (page_shown markup ["p9"]) 0 1)
    as (v1 & v & Hshow & Hload & Hd & _ & _ & _ & Hnext & _).
  - intros k k' Hin. apply list_elem_of_singleton in Hin. discriminate Hin.
  - apply (bool_decide_unpack _). vm_compute. exact I.
  - intros e He. apply list_elem_of_singleton in He as ->. reflexivity.
  - exists v1, v. split; [exact Hshow|]. split; [exact Hload|].
    split; [exact Hd|exact Hnext].
Defined.

(** * Catching up the home feed *)

Section obj_get_facts.
Context {K A : Type} `{EqDecision K}.
Implicit Types (o : obj K A) (k : K) (v : A).

Lemma obj_get_set k k' v o :
  obj_get k' (obj_set k v o) = if decide (k' = k) then Some v else obj_get k' o.
Proof.
  induction o as [|[k0 v0] o IH]; cbn [obj_set obj_get]; [done|].
  destruct (decide (k = k0)) as [->|Hne]; cbn [obj_get].
  - by destruct (decide (k' = k0)).
  - rewrite IH. destruct (decide (k' = k0)) as [->|]; [by rewrite decide_False|done].
Qed.

Lemma obj_get_notin k o : k ∉ obj_keys o → obj_get k o = None.
Proof.
  unfold obj_keys. induction o as [|[k0 v0] o IH]; csimpl; [done|].
  intros [Hne Hnotin]%not_elem_of_cons. rewrite decide_False by done. by apply IH.
Qed.

Lemma obj_get_elem_of k v o : NoDup (obj_keys o) → (k, v) ∈ o → obj_get k o = Some v.
Proof.
  unfold obj_keys. induction o as [|[k0 v0] o IH]; csimpl.
  - by intros _ ?%elem_of_nil.
  - intros [Hk0 Hnd]%NoDup_cons [Heq|Hin]%elem_of_cons.
    + injection Heq as -> ->. by rewrite decide_True.
    + rewrite decide_False; [by apply IH|]. intros ->. apply Hk0.
      apply list_elem_of_fmap. by exists (k0, v).
Qed.

Lemma elem_of_obj_keys_set k k' v o :
  k' ∈ obj_keys (obj_set k v o) → k' = k ∨ k' ∈ obj_keys o.
Proof.
  destruct (decide (k ∈ obj_keys o)).
  - rewrite obj_keys_set_in by done. by right.
  - rewrite obj_keys_set_notin by done.
    intros [?| ->%list_elem_of_singleton]%elem_of_app; [by right|by left].
Qed.

Lemma NoDup_obj_set k v o : NoDup (obj_keys o) → NoDup (obj_keys (obj_set k v o)).
Proof.
  intros Hnd. destruct (decide (k ∈ obj_keys o)).
  - by rewrite obj_keys_set_in.
  - rewrite obj_keys_set_notin by done. apply NoDup_app. split; [done|].
    split; [|apply NoDup_singleton].
    intros k' Hk' ->%list_elem_of_singleton. done.
Qed.

End obj_get_facts.

(** One update whose paths do not lie under one another: a path of the
    object gets its value, any other path is left alone. *)
Lemma lookup_db_update_get (u : obj path (option value)) (d : Database) (q : path) :
  NoDup (obj_keys u) →
  (∀ p, p ∈ obj_keys u → under p q = true → p = q) →
  db_update u d !! q = match obj_get q u with Some v => v | None => d !! q end.
Proof.
  unfold db_update, obj_keys. revert d.
  induction u as [|[p v] u IH]; intros d Hnd Hind; [done|].
  rewrite fmap_cons in Hnd, Hind. apply NoDup_cons in Hnd as [Hp Hnd]. cbn [fst] in *.
  cbn [fold_left obj_get fst snd]. rewrite IH; [|done|].
  2:{ intros p' Hp'. apply Hind. by right. }
  destruct (decide (q = p)) as [->|Hne].
  - rewrite obj_get_notin by done. apply db_set_same.
  - destruct (obj_get q u); [done|]. apply lookup_db_set_frame.
    destruct (under p q) eqn:E; [|done]. destruct Hne. symmetry. apply Hind; [by left|done].
Qed.

Section home_feed_sync.
Variable rules : path → bool.
Variable uid : string.
Implicit Types (w : World) (d : Database) (ks : list string) (c : value).

Local Abbreviation catch_up B c ks := (fold_left (updateHomeFeeds_post uid B c) ks []).
Local Abbreviation fresh k c := (key_strict_neq k (val (Some c)) = true).

Lemma catch_up_snoc B c ks k :
  catch_up B c (ks ++ [k]) =
    if key_strict_neq k (val (Some c))
    then obj_set ["people"; uid; "following"; B] (Some (VStr k))
           (obj_set ["feed"; uid; k] (Some (VBool true)) (catch_up B c ks))
    else catch_up B c ks.
Proof. by rewrite fold_left_app. Qed.

Lemma catch_up_NoDup B c ks : NoDup (obj_keys (catch_up B c ks)).
Proof.
  induction ks as [|k ks IH] using rev_ind; [constructor|].
  rewrite catch_up_snoc. destruct (key_strict_neq _ _); [|done].
  by apply NoDup_obj_set, NoDup_obj_set.
Qed.

Lemma catch_up_keys B c ks p :
  p ∈ obj_keys (catch_up B c ks) →
  p = ["people"; uid; "following"; B] ∨ ∃ k, k ∈ ks ∧ p = ["feed"; uid; k].
Proof.
  induction ks as [|k ks IH] using rev_ind; [by intros ?%elem_of_nil|].
  rewrite catch_up_snoc. destruct (key_strict_neq _ _).
  - intros [->|[->|Hin]%elem_of_obj_keys_set]%elem_of_obj_keys_set; [by left| |].
    + right. exists k. split; [|done]. apply elem_of_app. right. by left.
    + destruct (IH Hin) as [->|(k' & Hk' & ->)]; [by left|].
      right. exists k'. split; [|done]. apply elem_of_app. by left.
  - intros Hin. destruct (IH Hin) as [->|(k' & Hk' & ->)]; [by left|].
    right. exists k'. split; [|done]. apply elem_of_app. by left.
Qed.

Lemma catch_up_feed B c ks k :
  obj_get ["feed"; uid; k] (catch_up B c ks) =
    if bool_decide (k ∈ ks) && key_strict_neq k (val (Some c))
    then Some (Some (VBool true)) else None.
Proof.
  induction ks as [|k0 ks IH] using rev_ind.
  - cbn [fold_left obj_get]. by rewrite bool_decide_eq_false_2 by by intros ?%elem_of_nil.
  - rewrite catch_up_snoc.
    assert (bool_decide (k ∈ ks ++ [k0]) = bool_decide (k ∈ ks) || bool_decide (k = k0)) as ->.
    { rewrite <-bool_decide_or. apply bool_decide_ext.
      by rewrite elem_of_app, list_elem_of_singleton. }
    destruct (key_strict_neq k0 (val (Some c))) eqn:Hk0.
    + rewrite !obj_get_set, IH. rewrite decide_False by done.
      destruct (decide (k = k0)) as [->|Hne].
      * rewrite decide_True by done. rewrite (bool_decide_eq_true_2 (k0 = k0)) by done.
        by rewrite orb_true_r, Hk0.
      * rewrite decide_False by congruence.
        rewrite (bool_decide_eq_false_2 (k = k0)) by done. by rewrite orb_false_r.
    + rewrite IH. destruct (decide (k = k0)) as [->|Hne].
      * by rewrite Hk0, !andb_false_r.
      * rewrite (bool_decide_eq_false_2 (k = k0)) by done. by rewrite orb_false_r.
Qed.

Lemma catch_up_cursor B c ks :
  obj_get ["people"; uid; "following"; B] (catch_up B c ks) =
    (fun k => Some (VStr k)) <$> last (filter (fun k => fresh k c) ks).
Proof.
  induction ks as [|k0 ks IH] using rev_ind; [done|].
  rewrite catch_up_snoc, filter_app, filter_cons, filter_nil.
  destruct (key_strict_neq k0 (val (Some c))) eqn:Hk0.
  - rewrite decide_True by done. rewrite obj_get_set, decide_True by done.
    by rewrite last_snoc.
  - rewrite decide_False by congruence. by rewrite app_nil_r.
Qed.

Lemma catch_up_other_cursor B B' c ks :
  B' ≠ B → obj_get ["people"; uid; "following"; B'] (catch_up B c ks) = None.
Proof.
  intros Hne. apply obj_get_notin. intros [Heq|(k & _ & Heq)]%catch_up_keys; [|done].
  by injection Heq.
Qed.

Hypothesis feed_writable : ∀ k, rules ["feed"; uid; k] = true.
Hypothesis cursor_writable : ∀ B, rules ["people"; uid; "following"; B] = true.

Lemma updateHomeFeeds_followed_spec B c w :
  let r := updateHomeFeeds_followed rules uid (B, c) w in
  let ks := obj_keys (children (database w) ["people"; B; "posts"]) in
  snd r = Fulfilled
  ∧ storage (fst r) = storage w
  ∧ database (fst r) = db_update (catch_up B c ks) (database w).
Proof.
  unfold updateHomeFeeds_followed. cbn [fst snd].
  rewrite followedUserPostsRef_unanchored, once_ref.
  destruct (children (database w) ["people"; B; "posts"]) as [|kv l]; [done|].
  set (U := fold_left _ (obj_keys (kv :: l)) []).
  assert (forallb (fun pv => rules (fst pv)) U = true) as Hacc.
  { apply forallb_forall. intros [p v] Hin%list_elem_of_In. cbn [fst].
    assert (p ∈ obj_keys U) as Hp by (apply list_elem_of_fmap; by exists (p, v)).
    apply catch_up_keys in Hp as [->|(k & _ & ->)]; [apply cursor_writable|apply feed_writable]. }
  destruct (update_spec rules U w) as (_ & Hs & Hd & _).
  split; [by apply update_fulfilled|]. split; [done|].
  apply Hd. by apply update_fulfilled.
Qed.

Lemma lookup_catch_up_feed B c ks d k :
  db_update (catch_up B c ks) d !! ["feed"; uid; k] =
    if bool_decide (k ∈ ks) && key_strict_neq k (val (Some c))
    then Some (VBool true) else d !! ["feed"; uid; k].
Proof.
  rewrite lookup_db_update_get, catch_up_feed; [by destruct (_ && _)|apply catch_up_NoDup|].
  intros p [->|(k' & _ & ->)]%catch_up_keys Hu; [done|].
  by apply under_same_length.
Qed.

Lemma lookup_catch_up_cursor B B' c ks d :
  db_update (catch_up B c ks) d !! ["people"; uid; "following"; B'] =
    if decide (B' = B)
    then match last (filter (fun k => fresh k c) ks) with
         | Some k => Some (VStr k)
         | None => d !! ["people"; uid; "following"; B]
         end
    else d !! ["people"; uid; "following"; B'].
Proof.
  rewrite lookup_db_update_get; [|apply catch_up_NoDup|].
  - destruct (decide (B' = B)) as [->|Hne].
    + rewrite catch_up_cursor. by destruct (last _).
    + by rewrite catch_up_other_cursor.
  - intros p [->|(k' & _ & ->)]%catch_up_keys Hu; [|done].
    by apply under_same_length.
Qed.

Lemma lookup_catch_up_frame B c ks d (q : path) :
  (∀ k, under ["feed"; uid; k] q = false) →
  (∀ B, under ["people"; uid; "following"; B] q = false) →
  db_update (catch_up B c ks) d !! q = d !! q.
Proof.
  intros Hf Hc. apply lookup_db_update_frame, Forall_forall. intros [p v] Hin. cbn [fst].
  assert (p ∈ obj_keys (catch_up B c ks)) as Hp by (apply list_elem_of_fmap; by exists (p, v)).
  apply catch_up_keys in Hp as [->|(k & _ & ->)]; [apply Hc|apply Hf].
Qed.

Lemma updateHomeFeeds_fold d (l : obj string value) w0 ops0 :
  NoDup (obj_keys l) →
  (∀ B k, database w0 !! ["people"; B; "posts"; k] = d !! ["people"; B; "posts"; k]) →
  ∃ w' ops,
    fold_left (fun '(w, ops) f =>
                 let (w', op) := updateHomeFeeds_followed rules uid f w in (w', ops ++ [op]))
              l (w0, ops0) = (w', ops0 ++ ops)
    ∧ Forall (fun op => op = Fulfilled) ops
    ∧ storage w' = storage w0
    ∧ (∀ q, (∀ k, under ["feed"; uid; k] q = false) →
            (∀ B, under ["people"; uid; "following"; B] q = false) →
            database w' !! q = database w0 !! q)
    ∧ (∀ k, database w' !! ["feed"; uid; k] =
              if existsb (fun f : string * value =>
                            bool_decide (k ∈ obj_keys (children d ["people"; fst f; "posts"]))
                            && key_strict_neq k (val (Some (snd f)))) l
              then Some (VBool true) else database w0 !! ["feed"; uid; k])
    ∧ (∀ B, database w' !! ["people"; uid; "following"; B] =
              match obj_get B l with
              | Some c =>
                  match last (filter (fun k => fresh k c)
                                     (obj_keys (children d ["people"; B; "posts"]))) with
                  | Some k => Some (VStr k)
                  | None => database w0 !! ["people"; uid; "following"; B]
                  end
              | None => database w0 !! ["people"; uid; "following"; B]
              end).
Proof.
  revert w0 ops0. induction l as [|[B c] l IH]; intros w0 ops0 Hnd Hposts.
  - exists w0, []. rewrite app_nil_r. done.
  - unfold obj_keys in Hnd. rewrite fmap_cons in Hnd. apply NoDup_cons in Hnd as [HB Hnd].
    cbn [fst] in HB. cbn [fold_left].
    destruct (updateHomeFeeds_followed_spec B c w0) as (Hop & Hst & Hdb).
    destruct (updateHomeFeeds_followed rules uid (B, c) w0) as [w1 op] eqn:Hstep.
    cbn [fst snd] in Hop, Hst, Hdb. subst op.
    assert (children (database w0) ["people"; B; "posts"] = children d ["people"; B; "posts"])
      as Hch by (apply children_ext; intros k; apply Hposts).
    rewrite Hch in Hdb.
    destruct (IH w1 (ops0 ++ [Fulfilled]) Hnd) as (w' & ops & Hfold & Hops & Hst' & Hfr & Hfeed & Hcur).
    { intros B' k. rewrite Hdb, lookup_catch_up_frame; [apply Hposts|done|].
      intros B0. unfold under. cbn. by destruct (String.eqb uid B'). }
    exists w', (Fulfilled :: ops). rewrite Hfold, <-app_assoc.
    split; [done|]. split; [by constructor|]. split; [congruence|].
    split; [|split].
    + intros q Hq1 Hq2. rewrite Hfr, Hdb by done. by apply lookup_catch_up_frame.
    + intros k. rewrite Hfeed, Hdb, lookup_catch_up_feed. cbn [existsb fst snd].
      by destruct (existsb _ l), (bool_decide _ && _).
    + intros B'. rewrite Hcur, Hdb, lookup_catch_up_cursor. cbn [obj_get].
      destruct (decide (B' = B)) as [->|Hne].
      * by rewrite obj_get_notin by done.
      * by destruct (obj_get B' l).
Qed.

End home_feed_sync.

(** X8.  [updateHomeFeeds], when the rules accept writes to the home feed
    and to the cursors of the signed-in user: the returned promise is fulfilled
    and the blob store is not touched; every post of every followed user,
    other than the post named by the cursor stored for that user, ends up in
    the home feed with the value [true]; a home-feed entry that is no such
    post is left as it was, so nothing is ever taken out of the feed; the
    cursor of a followed user becomes the greatest key among that user's posts
    other than the old cursor (and stays when there is none); every path
    outside the home feed and the cursors is left alone; and when nobody is
    followed nothing is sent at all. *)
Theorem updateHomeFeeds_catches_up (rules : path → bool) (uid : string) (w : World)
    (Hfeed : ∀ k, rules ["feed"; uid; k] = true)
    (Hcursor : ∀ B, rules ["people"; uid; "following"; B] = true) :
  let d := database w in
  let r := updateHomeFeeds rules uid w in
  let d' := database (fst r) in
  snd r = Fulfilled
  ∧ storage (fst r) = storage w
  ∧ (∀ B c k,
       d !! ["people"; uid; "following"; B] = Some c →
       is_Some (d !! ["people"; B; "posts"; k]) →
       key_strict_neq k (val (Some c)) = true →
       d' !! ["feed"; uid; k] = Some (VBool true))
  ∧ (∀ k,
       (∀ B c, d !! ["people"; uid; "following"; B] = Some c →
               is_Some (d !! ["people"; B; "posts"; k]) →
               key_strict_neq k (val (Some c)) = false) →
       d' !! ["feed"; uid; k] = d !! ["feed"; uid; k])
  ∧ (∀ B c,
       d !! ["people"; uid; "following"; B] = Some c →
       d' !! ["people"; uid; "following"; B]
       = Some (default c
                 (VStr <$> last (filter (fun k => key_strict_neq k (val (Some c)) = true)
                                        (obj_keys (children d ["people"; B; "posts"]))))))
  ∧ (∀ q, (∀ k, under ["feed"; uid; k] q = false) →
          (∀ B, under ["people"; uid; "following"; B] q = false) →
          d' !! q = d !! q)
  ∧ (children d ["people"; uid; "following"] = [] → fst r = w).
Proof.
  intros d r d'.
  assert (children d ["people"; uid; "following"] = [] → fst r = w) as Hnone.
  { intros Hnil. unfold r, updateHomeFeeds. rewrite once_ref. fold d. by rewrite Hnil. }
  destruct (updateHomeFeeds_fold rules uid Hfeed Hcursor d
              (children d ["people"; uid; "following"]) w [])
    as (w' & ops & Hfold & Hops & Hst & Hfr & Hfd & Hcur);
    [apply NoDup_children_keys|done|].
  assert (r = (w', Promise_all ops)) as Hr.
  { unfold r, updateHomeFeeds. rewrite once_ref. fold d. by rewrite Hfold. }
  unfold d'. rewrite Hr. cbn [fst snd].
  split; [by apply Promise_all_Fulfilled|]. split; [done|].
  split; [|split; [|split; [|split]]]; [| | |done|].
  4:{ intros Hnil. specialize (Hnone Hnil). by rewrite Hr in Hnone. }
  - intros B c k HB Hk Hne. rewrite Hfd.
    assert (existsb (fun f : string * value =>
                       bool_decide (k ∈ obj_keys (children d ["people"; fst f; "posts"]))
                       && key_strict_neq k (val (Some (snd f))))
                    (children d ["people"; uid; "following"]) = true) as ->; [|done].
    apply existsb_exists. exists (B, c). split.
    + apply list_elem_of_In, elem_of_children. exact HB.
    + cbn [fst snd]. rewrite Hne, andb_true_r. apply bool_decide_eq_true.
      apply elem_of_children_keys. exact Hk.
  - intros k Hno. rewrite Hfd.
    destruct (existsb _ _) eqn:Hex; [|done].
    apply existsb_exists in Hex as ([B c] & Hin & Hc). cbn [fst snd] in Hc.
    apply andb_true_iff in Hc as [Hk%bool_decide_eq_true Hne].
    apply list_elem_of_In, elem_of_children in Hin. apply elem_of_children_keys in Hk.
    rewrite (Hno B c Hin Hk) in Hne. done.
  - intros B c HB. rewrite Hcur.
    rewrite (obj_get_elem_of B c); [|apply NoDup_children_keys|by apply elem_of_children].
    destruct (last _); [done|]. exact HB.
Qed.

(** [A] follows [B], whose posts are [p1], [p2], [p3], with the cursor at
    [p3]: the two other posts reach the home feed of [A] and the cursor ends
    at [p2]. *)
Lemma updateHomeFeeds_catches_up_witness :
  let r := updateHomeFeeds (fun _ => true) "A" w_following in
  snd r = Fulfilled
  ∧ database w_following !! ["people"; "A"; "following"; "B"] = Some (VStr "p3")
  ∧ database (fst r) !! ["feed"; "A"; "p1"] = Some (VBool true)
  ∧ database (fst r) !! ["feed"; "A"; "p2"] = Some (VBool true)
  ∧ database (fst r) !! ["people"; "A"; "following"; "B"] = Some (VStr "p2").
Proof.
  intros r. subst r.
  destruct (updateHomeFeeds_catches_up (fun _ => true) "A" w_following)
    as (Hdone & _ & Hcopy & _ & Hcur & _); [done|done|].
  assert (database w_following !! ["people"; "A"; "following"; "B"] = Some (VStr "p3")) as HB
    by (vm_compute; reflexivity).
  split; [exact Hdone|]. split; [exact HB|]. split; [|split].
  - apply (Hcopy "B" (VStr "p3") "p1" HB); [|reflexivity].
    exists (VBool true). vm_compute. reflexivity.
  - apply (Hcopy "B" (VStr "p3") "p2" HB); [|reflexivity].
    exists (VBool true). vm_compute. reflexivity.
  - rewrite (Hcur "B" (VStr "p3") HB). vm_compute. reflexivity.
Defined.

(** * Searching hashtags *)

Section prefix_order.

Lemma ascii_compare_refl (c : ascii) : Ascii.compare c c = Eq.
Proof. unfold Ascii.compare. apply N.compare_refl. Qed.

Lemma prefix_key_le (s a : string) : String.prefix s a = true → key_le s a.
Proof.
  unfold key_le, String.leb. revert a. induction s as [|c s IH]; intros a.
  - by destruct a.
  - destruct a as [|c' a]; [done|]. cbn [String.prefix String.compare].
    destruct (ascii_dec c c') as [<-|]; [|done].
    rewrite ascii_compare_refl. apply IH.
Qed.

(** The strings that start with [s] come before every other string that is
    not below [s]. *)
Lemma prefix_block (s a b : string) :
  String.prefix s a = true → key_le s b → String.prefix s b = false → key_lt a b.
Proof.
  unfold key_le, key_lt, String.leb, String.ltb. revert a b.
  induction s as [|c s IH]; intros a b.
  - by destruct b.
  - destruct a as [|ca a]; [done|]. cbn [String.prefix].
    destruct (ascii_dec c ca) as [<-|]; [|done]. intros Ha.
    destruct b as [|cb b]; [done|]. cbn [String.prefix String.compare].
    destruct (ascii_dec c cb) as [<-|Hne].
    + rewrite ascii_compare_refl. by apply IH.
    + destruct (Ascii.compare c cb) eqn:E; [|done..].
      by apply Ascii.compare_eq_iff in E.
Qed.

End prefix_order.

Section search_facts.
Implicit Types (d : Database) (p q : path) (l : list string).

Lemma first_key_Some p q k : first_key p q = Some k ↔ ∃ r, q = p ++ k :: r.
Proof.
  unfold first_key. destruct (strip p q) as [[|k' r]|] eqn:E.
  - apply strip_Some in E. split; [done|]. intros [r Hr]. rewrite E in Hr.
    apply (f_equal length) in Hr. rewrite !length_app in Hr. cbn in Hr. lia.
  - apply strip_Some in E. split.
    + intros [= ->]. by exists r.
    + intros [r' Hr]. rewrite E in Hr. apply app_inv_head in Hr. by injection Hr as -> _.
  - split; [done|]. intros [r Hr]. apply strip_Some in Hr. congruence.
Qed.

Lemma elem_of_child_nodes d p k :
  k ∈ child_nodes d p ↔ ∃ r, is_Some (d !! (p ++ k :: r)).
Proof.
  unfold child_nodes. cbn zeta.
  rewrite elem_of_app, !merge_sort_Permutation, !list_elem_of_filter, elem_of_remove_dups,
    list_elem_of_omap.
  split.
  - intros [[_ H]|[_ H]]; destruct H as (q & Hq & (r & ->)%first_key_Some); exists r;
      apply list_elem_of_fmap in Hq as ([q' v] & -> & Hin); exists v;
      by apply elem_of_map_to_list in Hin.
  - intros (r & v & Hv).
    assert (∃ q, q ∈ (map_to_list d).*1 ∧ first_key p q = Some k) as Hq.
    { exists (p ++ k :: r). split; [|apply first_key_Some; by exists r].
      apply list_elem_of_fmap. exists (p ++ k :: r, v). split; [done|].
      by apply elem_of_map_to_list. }
    destruct (tryParseInt k) as [z|] eqn:E; [left|right]; (split; [|done]).
    + by exists z.
    + done.
Qed.

Lemma sorted_strict l : StronglySorted key_le l → NoDup l → StronglySorted key_lt l.
Proof.
  induction 1 as [|k l Hs IH Hall]; [constructor|].
  rewrite NoDup_cons. intros [Hk Hl]. constructor; [by apply IH|].
  apply Forall_forall. intros k' Hin. apply key_lt_iff. split.
  - rewrite Forall_forall in Hall. by apply Hall.
  - by intros ->.
Qed.

Lemma child_nodes_NoDup d p : NoDup (child_nodes d p).
Proof.
  unfold child_nodes. cbn zeta. apply NoDup_app. split; [|split].
  - rewrite merge_sort_Permutation. apply NoDup_filter, NoDup_remove_dups.
  - intros k. rewrite !merge_sort_Permutation, !list_elem_of_filter.
    intros [[z Hz] _] [Hnone _]. congruence.
  - rewrite merge_sort_Permutation. apply NoDup_filter, NoDup_remove_dups.
Qed.

(** Where no key is integer-like the keys are in the order of strings. *)
Lemma child_nodes_plain d p :
  (∀ h, h ∈ child_nodes d p → tryParseInt h = None) →
  child_nodes d p = merge_sort key_le (remove_dups (omap (first_key p) (fst <$> map_to_list d))).
Proof.
  intros Hplain.
  assert (∀ k, k ∈ remove_dups (omap (first_key p) (fst <$> map_to_list d)) →
               tryParseInt k = None) as Hall.
  { intros k Hk. destruct (tryParseInt k) as [z|] eqn:E; [|done].
    rewrite <-E. apply Hplain. unfold child_nodes. cbn zeta.
    apply elem_of_app. left. rewrite merge_sort_Permutation. apply list_elem_of_filter.
    split; [by exists z|done]. }
  unfold child_nodes. cbn zeta.
  rewrite filter_none by (intros k Hk [z Hz]; rewrite (Hall k Hk) in Hz; done).
  by rewrite filter_all_in by done.
Qed.

Lemma child_nodes_sorted d p :
  (∀ h, h ∈ child_nodes d p → tryParseInt h = None) →
  StronglySorted key_lt (child_nodes d p).
Proof.
  intros Hplain. rewrite child_nodes_plain by done. apply sorted_strict.
  - apply StronglySorted_merge_sort; apply _.
  - rewrite merge_sort_Permutation. apply NoDup_remove_dups.
Qed.

(** Cutting a sorted list of keys at [n] entries from [s] on and then keeping
    those that start with [s] gives the first [n] that start with [s]. *)
Lemma prefix_after_limit (s : string) l (n : nat) :
  StronglySorted key_lt l →
  filter (fun h => String.prefix s h = true) (take n (filter (key_le s) l))
  = take n (filter (fun h => String.prefix s h = true) l).
Proof.
  intros Hs. revert n. induction Hs as [|x l Hs IH Hall]; intros n.
  - by rewrite !filter_nil, !take_nil.
  - rewrite (filter_cons (key_le s)), (filter_cons (fun h => String.prefix s h = true) x l).
    destruct (decide (key_le s x)) as [Hle|Hnle].
    + destruct (decide (String.prefix s x = true)) as [Hpre|Hnpre].
      * destruct n as [|n]; [done|]. cbn [take]. rewrite filter_cons_True by done.
        by rewrite IH.
      * apply not_true_is_false in Hnpre.
        assert (∀ y, y ∈ x :: l → String.prefix s y ≠ true) as Hnone.
        { intros y [->|Hy]%elem_of_cons; [congruence|]. intros Hpre.
          rewrite Forall_forall in Hall. apply (key_lt_irrefl x).
          etrans; [by apply Hall|]. by apply (prefix_block s). }
        rewrite (filter_none (fun h => String.prefix s h = true) l)
          by (intros y Hy; apply Hnone; by right).
        rewrite take_nil. apply filter_none. intros y Hy. apply Hnone.
        apply elem_of_take in Hy as (i & Hi & _). apply list_elem_of_lookup_2 in Hi.
        apply elem_of_cons in Hi as [->|Hi]; [by left|]. right.
        by apply list_elem_of_filter in Hi as [_ ?].
    + rewrite decide_False; [apply IH|]. intros Hpre. by apply Hnle, prefix_key_le.
Qed.

Lemma obj_delete_filter {A} (k : string) (o : obj string A) :
  obj_delete k o = filter (fun kv => k ≠ fst kv) o.
Proof.
  induction o as [|[k' v] o IH]; [done|]. cbn [obj_delete]. rewrite filter_cons. cbn [fst].
  destruct (decide (k = k')); [by rewrite decide_False by (intros H; by apply H)|].
  by rewrite decide_True, IH by done.
Qed.

Lemma collect_fold {A} (g : string → A) l (acc : obj string A) :
  NoDup l → (∀ k, k ∈ l → k ∉ obj_keys acc) →
  fold_left (fun acc key => obj_set key (g key) acc) l acc = acc ++ ((fun k => (k, g k)) <$> l).
Proof.
  revert acc. induction l as [|k l IH]; intros acc Hnd Hfresh.
  - by rewrite app_nil_r.
  - apply NoDup_cons in Hnd as [Hk Hnd]. cbn [fold_left].
    rewrite obj_set_notin by (apply Hfresh; by left).
    rewrite IH; [by rewrite <-app_assoc|done|].
    intros k' Hk'. rewrite obj_keys_app. intros [Hin| ->%list_elem_of_singleton]%elem_of_app.
    + apply (Hfresh k'); [by right|done].
    + done.
Qed.

Lemma prune_fold {A} (P : string → bool) l (acc : obj string A) :
  fold_left (fun acc h => if P h then acc else obj_delete h acc) l acc
  = filter (fun kv => fst kv ∈ l → P (fst kv) = true) acc.
Proof.
  revert acc. induction l as [|h l IH]; intros acc; cbn [fold_left].
  - symmetry. apply filter_all_in. by intros kv _ ?%elem_of_nil.
  - rewrite IH. destruct (P h) eqn:Hh.
    + apply list_filter_iff. intros [k v]. cbn [fst]. rewrite elem_of_cons.
      split; [|by auto]. intros H [->|Hin]; auto.
    + rewrite obj_delete_filter, list_filter_filter.
      apply list_filter_iff. intros [k v]. cbn [fst]. rewrite elem_of_cons.
      split.
      * intros [Hk Hne] [->|Hin]; [done|auto].
      * intros H. split; [by auto|]. intros ->. assert (P k = true) by auto. congruence.
Qed.

Lemma filter_ext_in {A} (P1 P2 : A → Prop) `{∀ x, Decision (P1 x)} `{∀ x, Decision (P2 x)}
    (l : list A) :
  (∀ x, x ∈ l → P1 x ↔ P2 x) → filter P1 l = filter P2 l.
Proof.
  induction l as [|x l IH]; intros Hl; [done|].
  rewrite !filter_cons. rewrite IH by (intros y Hy; apply Hl; by right).
  destruct (decide (P1 x)) as [H1|H1], (decide (P2 x)) as [H2|H2]; try done.
  - destruct H2. apply Hl; [by left|done].
  - destruct H1. apply Hl; [by left|done].
Qed.

Lemma prune_keys {A} (P : string → bool) (o : obj string A) :
  fold_left (fun acc h => if P h then acc else obj_delete h acc) (obj_keys o) o
  = filter (fun kv => P (fst kv) = true) o.
Proof.
  rewrite prune_fold. apply filter_ext_in. intros [k v] Hin. cbn [fst].
  split; [|by auto]. intros H. apply H. apply list_elem_of_fmap. by exists (k, v).
Qed.

Lemma filter_keys_fmap {A} (P : string → bool) (g : string → A) l :
  filter (fun kv => P (fst kv) = true) ((fun k => (k, g k)) <$> l)
  = (fun k => (k, g k)) <$> filter (fun k => P k = true) l.
Proof.
  induction l as [|k l IH]; [done|]. rewrite fmap_cons, !filter_cons. cbn [fst].
  destruct (decide (P k = true)); [rewrite fmap_cons|]; by rewrite IH.
Qed.

End search_facts.

Lemma searchHashtags_eq (normalize : string → string) (searchString : string)
    (maxResults : nat) (w : World) :
  searchHashtags normalize searchString maxResults w =
    if decide (maxResults = 0) then None
    else Some ((fun h => (h, children (database w) ["hashtags"; h]))
                 <$> filter (fun h => String.prefix (normalize searchString) h = true)
                       (take maxResults
                          (filter (name_le (normalize searchString))
                                  (child_nodes (database w) ["hashtags"])))).
Proof.
  unfold searchHashtags, once_first. destruct (decide (maxResults = 0)); [done|].
  f_equal.
  rewrite collect_fold; [| |by intros k _ ?%elem_of_nil].
  - rewrite app_nil_l, prune_keys.
    by rewrite (filter_keys_fmap (String.prefix (normalize searchString))).
  - eapply sublist_NoDup; [|apply sublist_take]. apply NoDup_filter, child_nodes_NoDup.
Qed.

(** X9.  [searchHashtags] throws when [maxResults] is zero.  Otherwise it
    returns at most [maxResults] hashtags, each one a hashtag of the database
    whose name starts with the normalised search string, with the node stored
    below it.  When neither the search string nor any hashtag of the database
    is integer-like, the result is, in key order, exactly the first
    [maxResults] hashtags whose name starts with the search string: cutting
    the query at [maxResults] entries before the names are tested then loses
    no match, because in the order of strings the names that start with the
    search string come first among those at or after it. *)
Theorem searchHashtags_first_matches (normalize : string → string)
    (searchString : string) (maxResults : nat) (w : World) :
  let s := normalize searchString in
  let hashtags := child_nodes (database w) ["hashtags"] in
  (maxResults = 0 → searchHashtags normalize searchString maxResults w = None)
  ∧ (∀ found, searchHashtags normalize searchString maxResults w = Some found →
       length found ≤ maxResults
       ∧ ∀ h data, (h, data) ∈ found →
           String.prefix s h = true ∧ h ∈ hashtags
           ∧ data = children (database w) ["hashtags"; h])
  ∧ (0 < maxResults → tryParseInt s = None →
     (∀ h, h ∈ hashtags → tryParseInt h = None) →
     searchHashtags normalize searchString maxResults w
     = Some ((fun h => (h, children (database w) ["hashtags"; h]))
               <$> take maxResults (filter (fun h => String.prefix s h = true) hashtags))
     ∧ StronglySorted key_lt hashtags)
  ∧ ∀ h, h ∈ hashtags ↔ ∃ r, is_Some (database w !! (["hashtags"; h] ++ r)).
Proof.
  intros s hashtags. rewrite searchHashtags_eq. fold s hashtags.
  split; [|split; [|split]].
  - intros ->. done.
  - intros found. destruct (decide (maxResults = 0)); [done|]. intros [= <-]. split.
    + rewrite length_fmap. etrans; [apply length_filter|]. rewrite length_take. lia.
    + intros h data (h' & [= -> ->] & Hin)%list_elem_of_fmap.
      apply list_elem_of_filter in Hin as [Hpre Hin]. split; [done|]. split; [|done].
      apply elem_of_take in Hin as (i & Hi & _). apply list_elem_of_lookup_2 in Hi.
      by apply list_elem_of_filter in Hi as [_ ?].
  - intros Hpos Hs Hplain. rewrite decide_False by lia.
    pose proof (child_nodes_sorted (database w) ["hashtags"] Hplain) as Hsorted.
    split; [|done]. do 2 f_equal.
    rewrite (filter_ext_in (name_le s) (key_le s)).
    + by apply prefix_after_limit.
    + intros h Hh. unfold name_le, orderByKey_le. by rewrite Hs, (Hplain h Hh).
  - intros h. apply elem_of_child_nodes.
Qed.

(** Among [cars], [cats] and [dogs], the first hashtag that starts with
    [ca]. *)
Lemma searchHashtags_first_matches_witness :
  searchHashtags (fun s => s) "ca" 1 w_tags
  = Some [("cars", [("p2", VBool true)])].
Proof.
  destruct (searchHashtags_first_matches (fun s => s) "ca" 1 w_tags) as (_ & _ & Hfirst & _).
  destruct Hfirst as [-> _]; [lia|reflexivity| |by vm_compute].
  apply Forall_forall. apply (bool_decide_unpack _). vm_compute. exact I.
Defined.

(** Integer-like hashtags are listed by value: among [1], [2] and [10] the
    first two at or after [1] are [1] and [2], and the hashtag [10], which
    starts with [1], is not found. *)
Lemma searchHashtags_numbers :
  child_nodes (database w_tags_numbers) ["hashtags"] = ["1"; "2"; "10"]
  ∧ obj_keys <$> searchHashtags (fun s => s) "1" 2 w_tags_numbers = Some ["1"]
  ∧ searchHashtags (fun s => s) "1" 0 w_tags_numbers = None.
Proof. by vm_compute. Qed.

(** * The live updaters of the home feed, when they are attached *)

Section home_feed_live.
Variable rules : path → bool.
Variable uid : string.
Hypothesis feed_writable : ∀ k, rules ["feed"; uid; k] = true.
Hypothesis cursor_writable : ∀ B, rules ["people"; uid; "following"; B] = true.
Implicit Types (w : World) (d : Database) (ks : list string) (c : value).

Local Abbreviation fresh k c := (key_strict_neq k (val (Some c)) = true).

Lemma home_feed_listener_spec B c k w :
  let w' := home_feed_listener rules uid B c k w in
  storage w' = storage w
  ∧ database w' =
      if key_strict_neq k (val (Some c))
      then db_update [ (["feed"; uid; k], Some (VBool true));
                       (["people"; uid; "following"; B], Some (VStr k)) ] (database w)
      else database w.
Proof.
  unfold home_feed_listener. destruct (key_strict_neq k (val (Some c))); [|done].
  rewrite home_feed_updates_nil. unfold update.
  cbn [forallb fst]. by rewrite feed_writable, cursor_writable.
Qed.

Lemma lookup_pair_feed B k k' (x : value) d :
  db_update [ (["feed"; uid; k], Some (VBool true));
              (["people"; uid; "following"; B], Some x) ] d !! ["feed"; uid; k']
  = if decide (k' = k) then Some (VBool true) else d !! ["feed"; uid; k'].
Proof.
  rewrite lookup_db_update_get.
  - cbn [obj_get]. destruct (decide (k' = k)) as [->|Hne].
    + by rewrite decide_True.
    + rewrite decide_False by congruence. by rewrite decide_False.
  - apply (bool_decide_unpack _). by vm_compute.
  - intros p [->|[->|[]%elem_of_nil]%elem_of_cons]%elem_of_cons Hu; [|done].
    by apply under_same_length.
Qed.

Lemma lookup_pair_cursor B B' k (x : value) d :
  db_update [ (["feed"; uid; k], Some (VBool true));
              (["people"; uid; "following"; B], Some x) ] d !! ["people"; uid; "following"; B']
  = if decide (B' = B) then Some x else d !! ["people"; uid; "following"; B'].
Proof.
  rewrite lookup_db_update_get.
  - cbn [obj_get]. rewrite decide_False by done. destruct (decide (B' = B)) as [->|Hne].
    + by rewrite decide_True.
    + by rewrite decide_False by congruence.
  - apply (bool_decide_unpack _). by vm_compute.
  - intros p [->|[->|[]%elem_of_nil]%elem_of_cons]%elem_of_cons Hu; [done|].
    by apply under_same_length.
Qed.

Lemma lookup_pair_frame B k (x : value) d (q : path) :
  (∀ k, under ["feed"; uid; k] q = false) →
  (∀ B, under ["people"; uid; "following"; B] q = false) →
  db_update [ (["feed"; uid; k], Some (VBool true));
              (["people"; uid; "following"; B], Some x) ] d !! q = d !! q.
Proof.
  intros Hf Hc. apply lookup_db_update_frame. repeat constructor; cbn [fst]; auto.
Qed.

Lemma fold_left_fmap_l {A B C} (f : A → B → A) (g : C → B) (l : list C) (a : A) :
  fold_left f (g <$> l) a = fold_left (fun a x => f a (g x)) l a.
Proof. revert a. induction l as [|x l IH]; intros a; [done|]. csimpl. apply IH. Qed.

(** The posts of one followed user delivered one after the other. *)
Lemma deliveries_spec B c ks w :
  let w' := fold_left (fun w k => home_feed_listener rules uid B c k w) ks w in
  storage w' = storage w
  ∧ (∀ q, (∀ k, under ["feed"; uid; k] q = false) →
          (∀ B, under ["people"; uid; "following"; B] q = false) →
          database w' !! q = database w !! q)
  ∧ (∀ k, database w' !! ["feed"; uid; k] =
            if bool_decide (k ∈ ks) && key_strict_neq k (val (Some c))
            then Some (VBool true) else database w !! ["feed"; uid; k])
  ∧ (∀ B', database w' !! ["people"; uid; "following"; B'] =
             if decide (B' = B)
             then match last (filter (fun k => fresh k c) ks) with
                  | Some k => Some (VStr k)
                  | None => database w !! ["people"; uid; "following"; B]
                  end
             else database w !! ["people"; uid; "following"; B']).
Proof.
  induction ks as [|k0 ks IH] using rev_ind.
  - cbn [fold_left]. split; [done|]. split; [done|]. split.
    + intros k. by rewrite bool_decide_eq_false_2 by by intros ?%elem_of_nil.
    + intros B'. by destruct (decide (B' = B)) as [->|].
  - rewrite fold_left_app. cbn [fold_left]. cbn zeta in IH.
    set (w1 := fold_left _ ks w) in *.
    destruct IH as (Hst & Hfr & Hfd & Hcur).
    destruct (home_feed_listener_spec B c k0 w1) as [Hst' Hdb]. cbn zeta in Hst', Hdb.
    split; [congruence|]. rewrite Hdb. clear Hdb.
    split; [|split].
    + intros q Hq1 Hq2. destruct (key_strict_neq k0 _); [rewrite lookup_pair_frame by done|];
        by apply Hfr.
    + intros k.
      assert (bool_decide (k ∈ ks ++ [k0]) = bool_decide (k ∈ ks) || bool_decide (k = k0)) as ->.
      { rewrite <-bool_decide_or. apply bool_decide_ext.
        by rewrite elem_of_app, list_elem_of_singleton. }
      destruct (key_strict_neq k0 (val (Some c))) eqn:Hk0.
      * rewrite lookup_pair_feed, Hfd. destruct (decide (k = k0)) as [->|Hne].
        -- rewrite (bool_decide_eq_true_2 (k0 = k0)) by done. by rewrite orb_true_r, Hk0.
        -- rewrite (bool_decide_eq_false_2 (k = k0)) by done. by rewrite orb_false_r.
      * rewrite Hfd. destruct (decide (k = k0)) as [->|Hne].
        -- by rewrite Hk0, !andb_false_r.
        -- rewrite (bool_decide_eq_false_2 (k = k0)) by done. by rewrite orb_false_r.
    + intros B'. rewrite filter_app, filter_cons, filter_nil.
      destruct (decide (key_strict_neq k0 (val (Some c)) = true)) as [Hk0|Hk0].
      * rewrite Hk0, lookup_pair_cursor, last_snoc.
        destruct (decide (B' = B)); [done|]. rewrite Hcur. by rewrite decide_False.
      * apply not_true_is_false in Hk0. rewrite Hk0, app_nil_r. apply Hcur.
Qed.

Lemma following_listener_spec B c w :
  let w' := following_listener rules uid (B, c) w in
  let ks := obj_keys (children (database w) ["people"; B; "posts"]) in
  storage w' = storage w
  ∧ (∀ q, (∀ k, under ["feed"; uid; k] q = false) →
          (∀ B, under ["people"; uid; "following"; B] q = false) →
          database w' !! q = database w !! q)
  ∧ (∀ k, database w' !! ["feed"; uid; k] =
            if bool_decide (k ∈ ks) && key_strict_neq k (val (Some c))
            then Some (VBool true) else database w !! ["feed"; uid; k])
  ∧ (∀ B', database w' !! ["people"; uid; "following"; B'] =
             if decide (B' = B)
             then match last (filter (fun k => fresh k c) ks) with
                  | Some k => Some (VStr k)
                  | None => database w !! ["people"; uid; "following"; B]
                  end
             else database w !! ["people"; uid; "following"; B']).
Proof.
  unfold following_listener. cbn [fst snd].
  rewrite followedUserPostsRef_unanchored, once_ref.
  pose proof (deliveries_spec B c (obj_keys (children (database w) ["people"; B; "posts"])) w)
    as H.
  unfold obj_keys in H. rewrite fold_left_fmap_l in H. exact H.
Qed.

Lemma startHomeFeedLiveUpdaters_fold d (l : obj string value) w0 :
  NoDup (obj_keys l) →
  (∀ B k, database w0 !! ["people"; B; "posts"; k] = d !! ["people"; B; "posts"; k]) →
  let w' := fold_left (fun w followingData => following_listener rules uid followingData w) l w0 in
  storage w' = storage w0
  ∧ (∀ q, (∀ k, under ["feed"; uid; k] q = false) →
          (∀ B, under ["people"; uid; "following"; B] q = false) →
          database w' !! q = database w0 !! q)
  ∧ (∀ k, database w' !! ["feed"; uid; k] =
            if existsb (fun f : string * value =>
                          bool_decide (k ∈ obj_keys (children d ["people"; fst f; "posts"]))
                          && key_strict_neq k (val (Some (snd f)))) l
            then Some (VBool true) else database w0 !! ["feed"; uid; k])
  ∧ (∀ B, database w' !! ["people"; uid; "following"; B] =
            match obj_get B l with
            | Some c =>
                match last (filter (fun k => fresh k c)
                                   (obj_keys (children d ["people"; B; "posts"]))) with
                | Some k => Some (VStr k)
                | None => database w0 !! ["people"; uid; "following"; B]
                end
            | None => database w0 !! ["people"; uid; "following"; B]
            end).
Proof.
  revert w0. induction l as [|[B c] l IH]; intros w0 Hnd Hposts; [done|].
  unfold obj_keys in Hnd. rewrite fmap_cons in Hnd. apply NoDup_cons in Hnd as [HB Hnd].
  cbn [fst] in HB. cbn [fold_left]. cbn zeta.
  destruct (following_listener_spec B c w0) as (Hst & Hfr & Hfd & Hcur). cbn zeta in *.
  set (w1 := following_listener rules uid (B, c) w0) in *.
  assert (children (database w0) ["people"; B; "posts"] = children d ["people"; B; "posts"])
    as Hch by (apply children_ext; intros k; apply Hposts).
  rewrite Hch in Hfd, Hcur.
  destruct (IH w1 Hnd) as (Hst1 & Hfr1 & Hfd1 & Hcur1).
  { intros B' k. rewrite Hfr; [apply Hposts|done|].
    intros B0. unfold under. cbn. by destruct (String.eqb uid B'). }
  split; [congruence|]. split; [|split].
  - intros q Hq1 Hq2. rewrite Hfr1 by done. by apply Hfr.
  - intros k. rewrite Hfd1, Hfd. cbn [existsb fst snd].
    by destruct (existsb _ l), (bool_decide _ && _).
  - intros B'. rewrite Hcur1, Hcur. cbn [obj_get].
    destruct (decide (B' = B)) as [->|Hne].
    + by rewrite obj_get_notin by done.
    + by destruct (obj_get B' l).
Qed.

End home_feed_live.

(** X10.  [startHomeFeedLiveUpdaters], for the followed users and posts that
    are there when it is called and rules that accept writes to the home feed
    and to the cursors of the signed-in user, writing once per post.  Every post of every followed user other than the
    one named by the cursor is put in the home feed with the value [true]; the
    other home-feed entries are left as they were; the cursor of a followed
    user ends at the greatest key among the posts of that user other than the
    old cursor, and stays when there is none; every path outside the home
    feed and the cursors is left alone, and so is the blob store. *)
Theorem startHomeFeedLiveUpdaters_catches_up (rules : path → bool) (uid : string) (w : World)
    (Hfeed : ∀ k, rules ["feed"; uid; k] = true)
    (Hcursor : ∀ B, rules ["people"; uid; "following"; B] = true) :
  let d := database w in
  let d' := database (startHomeFeedLiveUpdaters rules uid w) in
  storage (startHomeFeedLiveUpdaters rules uid w) = storage w
  ∧ (∀ B c k,
       d !! ["people"; uid; "following"; B] = Some c →
       is_Some (d !! ["people"; B; "posts"; k]) →
       key_strict_neq k (val (Some c)) = true →
       d' !! ["feed"; uid; k] = Some (VBool true))
  ∧ (∀ k,
       (∀ B c, d !! ["people"; uid; "following"; B] = Some c →
               is_Some (d !! ["people"; B; "posts"; k]) →
               key_strict_neq k (val (Some c)) = false) →
       d' !! ["feed"; uid; k] = d !! ["feed"; uid; k])
  ∧ (∀ B c,
       d !! ["people"; uid; "following"; B] = Some c →
       d' !! ["people"; uid; "following"; B]
       = Some (default c
                 (VStr <$> last (filter (fun k => key_strict_neq k (val (Some c)) = true)
                                        (obj_keys (children d ["people"; B; "posts"]))))))
  ∧ (∀ q, (∀ k, under ["feed"; uid; k] q = false) →
          (∀ B, under ["people"; uid; "following"; B] q = false) →
          d' !! q = d !! q).
Proof.
  intros d d'.
  destruct (startHomeFeedLiveUpdaters_fold rules uid Hfeed Hcursor d
              (children d ["people"; uid; "following"]) w)
    as (Hst & Hfr & Hfd & Hcur); [apply NoDup_children_keys|done|].
  cbn zeta in *.
  assert (startHomeFeedLiveUpdaters rules uid w
          = fold_left (fun w0 followingData => following_listener rules uid followingData w0)
              (children d ["people"; uid; "following"]) w) as Hw.
  { unfold startHomeFeedLiveUpdaters. by rewrite once_ref. }
  unfold d'. rewrite Hw.
  split; [done|]. split; [|split; [|split]]; [| | |done].
  - intros B c k HB Hk Hne. rewrite Hfd.
    assert (existsb (fun f : string * value =>
                       bool_decide (k ∈ obj_keys (children d ["people"; fst f; "posts"]))
                       && key_strict_neq k (val (Some (snd f))))
                    (children d ["people"; uid; "following"]) = true) as ->; [|done].
    apply existsb_exists. exists (B, c). split.
    + apply list_elem_of_In, elem_of_children. exact HB.
    + cbn [fst snd]. rewrite Hne, andb_true_r. apply bool_decide_eq_true.
      apply elem_of_children_keys. exact Hk.
  - intros k Hno. rewrite Hfd.
    destruct (existsb _ _) eqn:Hex; [|done].
    apply existsb_exists in Hex as ([B c] & Hin & Hc). cbn [fst snd] in Hc.
    apply andb_true_iff in Hc as [Hk%bool_decide_eq_true Hne].
    apply list_elem_of_In, elem_of_children in Hin. apply elem_of_children_keys in Hk.
    rewrite (Hno B c Hin Hk) in Hne. done.
  - intros B c HB. rewrite Hcur.
    rewrite (obj_get_elem_of B c); [|apply NoDup_children_keys|by apply elem_of_children].
    destruct (last _); [done|]. exact HB.
Qed.

(** [A] follows [B], whose posts are [p1], [p2], [p3], with the cursor at
    [p3]: attaching the listeners copies [p1] and [p2] and leaves the cursor
    at [p2]. *)
Lemma startHomeFeedLiveUpdaters_catches_up_witness :
  let w' := startHomeFeedLiveUpdaters (fun _ => true) "A" w_following in
  database w_following !! ["people"; "A"; "following"; "B"] = Some (VStr "p3")
  ∧ database w' !! ["feed"; "A"; "p1"] = Some (VBool true)
  ∧ database w' !! ["feed"; "A"; "p2"] = Some (VBool true)
  ∧ database w' !! ["people"; "A"; "following"; "B"] = Some (VStr "p2").
Proof.
  intros w'. subst w'.
  destruct (startHomeFeedLiveUpdaters_catches_up (fun _ => true) "A" w_following)
    as (_ & Hcopy & _ & Hcur & _); [done|done|].
  assert (database w_following !! ["people"; "A"; "following"; "B"] = Some (VStr "p3")) as HB
    by (vm_compute; reflexivity).
  split; [exact HB|]. split; [|split].
  - apply (Hcopy "B" (VStr "p3") "p1" HB); [|reflexivity].
    exists (VBool true). vm_compute. reflexivity.
  - apply (Hcopy "B" (VStr "p3") "p2" HB); [|reflexivity].
    exists (VBool true). vm_compute. reflexivity.
  - rewrite (Hcur "B" (VStr "p3") HB). vm_compute. reflexivity.
Defined.
